(** * Philippine location parser: hierarchy index, false-positive filter and resolvers

    A shallow embedding of the rule-based resolver of the repository:
    - [hierarchical-location-index.js]  (class PhilippineLocationIndex),
    - [false-positive-filter.js]        (isFalsePositive, validateLocationCandidate, ...),
    - [hierarchical-parser.js]          (class HierarchicalLocationParser),
    - [hierarchical-parser-v2.js]       (class HierarchicalLocationParserV2),
    - [location-parser-v5.js]           (normalizeLocationFields, formatLocation),
    - [sheet-parser.js]                 (parseColumnRange, extractFromCSV, parseCSVLine),
    - [enhanced-location-matcher.js]    (calculateConfidence, hasWordBoundaryMatch,
                                         extractCandidatesFromHashtag, ...),
    - [excel-location-index.js]         (normalize).

    JavaScript strings are modelled as lists of characters, and the embedding
    covers ASCII text: letters are A-Z and a-z, the white space of [\s] and
    [trim] is the ASCII white space, and a character of code 128 or more
    stands for a symbol that is neither.  Text with letters or white space
    outside ASCII is outside the model.

    Regular expressions are kept as syntax, one term per pattern of the
    source, and run by a backtracking matcher that follows the ECMAScript
    matching rules: ordered alternatives, greedy and lazy repetition that
    rejects empty iterations, [^] and [$] without the [m] flag, [\b], and
    the [i] flag by canonicalisation to upper case.  Where the source reads
    the groups of a match, the pattern is given as the list of its parts
    (module [Cap]); elsewhere groups only group, and are not recorded.

    Objects used as dictionaries are association lists in insertion order;
    numbers are binary64 floats where the source computes with fractions and
    integers where it computes with integers. *)

From Stdlib Require Import Ascii String List Bool Arith Lia ZArith Floats Uint63.
Import ListNotations.

Local Set Warnings "-inexact-float".

(** ** JavaScript strings *)

Definition jsstring := list ascii.

(** [chars "abc"] is the JavaScript string literal ['abc']. *)
Definition chars (s : string) : jsstring := list_ascii_of_string s.

Module Char.

Definition code (c : ascii) : nat := nat_of_ascii c.

Definition between (lo hi : ascii) (c : ascii) : bool :=
  (code lo <=? code c) && (code c <=? code hi).

Definition is_upper : ascii -> bool := between "A" "Z".
Definition is_lower : ascii -> bool := between "a" "z".
Definition is_digit : ascii -> bool := between "0" "9".
Definition is_alpha (c : ascii) : bool := is_upper c || is_lower c.

(** [\w] is [[A-Za-z0-9_]]. *)
Definition is_word (c : ascii) : bool :=
  is_alpha c || is_digit c || Ascii.eqb c "_".

(** White space of [\s] and of [String.prototype.trim]: tab, line feed,
    vertical tab, form feed, carriage return and space. *)
Definition is_space (c : ascii) : bool :=
  (9 <=? code c) && (code c <=? 13) || (code c =? 32).

(** Line terminators, which [.] does not match. *)
Definition is_newline (c : ascii) : bool :=
  (code c =? 10) || (code c =? 13).

Definition lower (c : ascii) : ascii :=
  if is_upper c then ascii_of_nat (code c + 32) else c.

Definition upper (c : ascii) : ascii :=
  if is_lower c then ascii_of_nat (code c - 32) else c.

End Char.

Module Str.

Fixpoint eqb (a b : jsstring) : bool :=
  match a, b with
  | [], [] => true
  | x :: a', y :: b' => Ascii.eqb x y && eqb a' b'
  | _, _ => false
  end.

Definition toLowerCase (s : jsstring) : jsstring := map Char.lower s.

Fixpoint trimStart (s : jsstring) : jsstring :=
  match s with
  | c :: s' => if Char.is_space c then trimStart s' else s
  | [] => []
  end.

Definition trimEnd (s : jsstring) : jsstring := rev (trimStart (rev s)).

Definition trim (s : jsstring) : jsstring := trimEnd (trimStart s).

Fixpoint startsWith (s p : jsstring) : bool :=
  match p, s with
  | [], _ => true
  | x :: p', y :: s' => Ascii.eqb x y && startsWith s' p'
  | _ :: _, [] => false
  end.

Definition endsWith (s p : jsstring) : bool := startsWith (rev s) (rev p).

(** [s.includes(p)]: [p] occurs in [s] as a substring. *)
Fixpoint includes (s p : jsstring) : bool :=
  startsWith s p ||
  match s with
  | [] => false
  | _ :: s' => includes s' p
  end.

(** [s.replace(p, r)] with a string pattern [p]: the first occurrence. *)
Fixpoint replace_str (p r s : jsstring) : jsstring :=
  if startsWith s p then r ++ skipn (length p) s
  else match s with
       | [] => []
       | c :: s' => c :: replace_str p r s'
       end.

(** Truthiness of a string: only the empty string is falsy. *)
Definition truthy (s : jsstring) : bool :=
  match s with [] => false | _ => true end.

Definition mem (s : jsstring) (l : list jsstring) : bool := existsb (eqb s) l.

End Str.

(** ** Regular expressions *)

Module Re.

(** Character sets: what a class atom such as [[^a-z0-9\s]] denotes. *)
Inductive cset : Type :=
| One (c : ascii)              (* a literal character *)
| Range (lo hi : ascii)        (* lo-hi *)
| Space                        (* \s *)
| Word                         (* \w *)
| Digit                        (* \d *)
| Dot                          (* . *)
| Union (a b : cset)
| Not (a : cset).              (* [^...] *)

(** Membership; [ci] is the [i] flag: the pattern character and the input
    character are compared after canonicalisation to upper case. *)
Fixpoint mem (ci : bool) (s : cset) (c : ascii) : bool :=
  match s with
  | One a =>
      if ci then Ascii.eqb (Char.upper a) (Char.upper c) else Ascii.eqb a c
  | Range lo hi =>
      Char.between lo hi c ||
      (ci && (Char.between lo hi (Char.upper c) || Char.between lo hi (Char.lower c)))
  | Space => Char.is_space c
  | Word => Char.is_word c
  | Digit => Char.is_digit c
  | Dot => negb (Char.is_newline c)
  | Union a b => mem ci a c || mem ci b c
  | Not a => negb (mem ci a c)
  end.

Inductive regex : Type :=
| Eps
| Chr (ci : bool) (s : cset)          (* one character of the set *)
| Seq (r1 r2 : regex)
| Alt (r1 r2 : regex)                 (* r1|r2, r1 tried first *)
| Star (greedy : bool) (r : regex)    (* r* and r*? *)
| Bol                                 (* ^ *)
| Eol                                 (* $ *)
| WordB.                              (* \b *)

Definition Plus (greedy : bool) (r : regex) : regex := Seq r (Star greedy r).
Definition Opt (r : regex) : regex := Alt r Eps.

(** A literal word, character by character. *)
Fixpoint Lit (ci : bool) (s : jsstring) : regex :=
  match s with
  | [] => Eps
  | c :: s' => Seq (Chr ci (One c)) (Lit ci s')
  end.

Fixpoint Seqs (l : list regex) : regex :=
  match l with
  | [] => Eps
  | [r] => r
  | r :: l' => Seq r (Seqs l')
  end.

Fixpoint Alts (l : list regex) : regex :=
  match l with
  | [] => Eps
  | [r] => r
  | r :: l' => Alt r (Alts l')
  end.

(** A position in the subject: the characters already passed (most recent
    first) and the characters still ahead. *)
Record cursor : Type := Cursor { seen : jsstring; ahead : jsstring }.

Definition cont := cursor -> option cursor.
Definition matcher := cursor -> cont -> option cursor.

Definition at_word_boundary (c : cursor) : bool :=
  let a := match seen c with x :: _ => Char.is_word x | [] => false end in
  let b := match ahead c with x :: _ => Char.is_word x | [] => false end in
  xorb a b.

Definition orelse (a : option cursor) (b : unit -> option cursor) : option cursor :=
  match a with
  | Some x => Some x
  | None => b tt
  end.

(** RepeatMatcher with min = 0 and no upper bound: an iteration that
    consumes nothing is rejected; the greedy form tries one more iteration
    before the continuation, the lazy form the continuation first. *)
Fixpoint star_loop (greedy : bool) (m : matcher) (fuel : nat)
         (c : cursor) (k : cont) : option cursor :=
  match fuel with
  | 0 => k c
  | S fuel' =>
      let again (_ : unit) :=
        m c (fun c' =>
               if length (ahead c') <? length (ahead c)
               then star_loop greedy m fuel' c' k
               else None) in
      if greedy then orelse (again tt) (fun _ => k c)
      else orelse (k c) again
  end.

Fixpoint rmatch (r : regex) : matcher :=
  match r with
  | Eps => fun c k => k c
  | Chr ci s => fun c k =>
      match ahead c with
      | x :: rest => if mem ci s x then k (Cursor (x :: seen c) rest) else None
      | [] => None
      end
  | Seq r1 r2 => fun c k => rmatch r1 c (fun c' => rmatch r2 c' k)
  | Alt r1 r2 => fun c k => orelse (rmatch r1 c k) (fun _ => rmatch r2 c k)
  | Star g r1 => fun c k => star_loop g (rmatch r1) (length (ahead c)) c k
  | Bol => fun c k => match seen c with [] => k c | _ => None end
  | Eol => fun c k => match ahead c with [] => k c | _ => None end
  | WordB => fun c k => if at_word_boundary c then k c else None
  end.

(** The match starting exactly at [c], if any: its end position. *)
Definition match_at (r : regex) (c : cursor) : option cursor :=
  rmatch r c (fun c' => Some c').

(** Leftmost match at or after the position [(seen, ahead)]:
    start and end positions. *)
Fixpoint search (r : regex) (seen ahead : jsstring) : option (cursor * cursor) :=
  match match_at r (Cursor seen ahead) with
  | Some e => Some (Cursor seen ahead, e)
  | None =>
      match ahead with
      | [] => None
      | x :: ahead' => search r (x :: seen) ahead'
      end
  end.

(** [r.exec(s)] for a regex without the [g] flag. *)
Definition exec (r : regex) (s : jsstring) : option (cursor * cursor) :=
  search r [] s.

(** [r.test(s)]. *)
Definition test (r : regex) (s : jsstring) : bool :=
  match exec r s with Some _ => true | None => false end.

(** Text between two positions of one subject. *)
Definition slice (b e : cursor) : jsstring :=
  firstn (length (seen e) - length (seen b)) (ahead b).

(** [s.match(r)] for a regex without [g]: [(match.index, match[0])]. *)
Definition match0 (r : regex) (s : jsstring) : option (nat * jsstring) :=
  match exec r s with
  | Some (b, e) => Some (length (seen b), slice b e)
  | None => None
  end.

(** [s.replace(r, repl)] for a regex without [g]. *)
Definition replace (r : regex) (repl : jsstring) (s : jsstring) : jsstring :=
  match exec r s with
  | Some (b, e) => rev (seen b) ++ repl ++ ahead e
  | None => s
  end.

(** [s.replace(r, repl)] for a regex with [g]: every match, left to right;
    after an empty match the scan moves one character on. *)
Fixpoint replace_from (fuel : nat) (r : regex) (repl : jsstring)
         (seen ahead : jsstring) : jsstring :=
  match fuel with
  | 0 => ahead
  | S fuel' =>
      match search r seen ahead with
      | None => ahead
      | Some (b, e) =>
          let skipped := slice (Cursor seen ahead) b in
          if length (Re.ahead e) <? length (Re.ahead b) then
            skipped ++ repl ++ replace_from fuel' r repl (Re.seen e) (Re.ahead e)
          else
            match Re.ahead e with
            | [] => skipped ++ repl
            | x :: tl =>
                skipped ++ repl ++ x :: replace_from fuel' r repl (x :: Re.seen e) tl
            end
      end
  end.

Definition replace_all (r : regex) (repl : jsstring) (s : jsstring) : jsstring :=
  replace_from (S (length s)) r repl [] s.

End Re.

Import Re.

(** Shorthands used when transcribing the patterns of the source. *)
Definition ws : regex := Chr false Space.          (* \s *)
Definition ws_star : regex := Star true ws.         (* \s* *)
Definition ws_plus : regex := Plus true ws.         (* \s+ *)
Definition wordc : regex := Chr false Word.         (* \w *)
Definition lit (s : string) : regex := Lit false (chars s).
Definition liti (s : string) : regex := Lit true (chars s).   (* under the i flag *)
Definition lits (l : list string) : regex := Alts (map lit l).
Definition litis (l : list string) : regex := Alts (map liti l).

(** ** The hierarchy index (hierarchical-location-index.js) *)

(** [normalizeKey(text)]: the seven steps of the source, in order. *)
Definition re_parenthetical : regex :=                      (* /\s*\(.*?\)\s*/g *)
  Seqs [ws_star; lit "("; Star false (Chr false Dot); lit ")"; ws_star].
Definition re_brgy_prefix : regex :=                        (* /^brgy\.?\s*/i *)
  Seqs [Bol; liti "brgy"; Opt (Chr true (One "."%char)); ws_star].
Definition re_barangay_prefix : regex :=                    (* /^barangay\s*/i *)
  Seqs [Bol; liti "barangay"; ws_star].
Definition re_city_suffix : regex :=                        (* /\s+city$/i *)
  Seqs [ws_plus; liti "city"; Eol].
Definition re_special : regex :=                            (* /[^a-z0-9\s]/g *)
  Chr false (Not (Union (Range "a" "z") (Union (Range "0" "9") Space))).
Definition re_spaces : regex := ws_plus.                    (* /\s+/g *)

Definition normalizeKey (text : jsstring) : jsstring :=
  if negb (Str.truthy text) then [] else
  let s := Str.toLowerCase text in
  let s := replace_all re_parenthetical [] s in
  let s := replace re_brgy_prefix [] s in
  let s := replace re_barangay_prefix [] s in
  let s := replace re_city_suffix [] s in
  let s := replace_all re_special (chars " ") s in
  let s := replace_all re_spaces (chars " ") s in
  Str.trim s.

(** *** Objects used as maps

    A JavaScript object used as a dictionary: its own string-keyed properties
    in insertion order.  Properties inherited from [Object.prototype] are not
    modelled. *)

Definition obj (V : Type) : Type := list (jsstring * V).

Module Obj.
Section Ops.
Context {V : Type}.

(** [o[key]], [None] standing for [undefined]. *)
Fixpoint get (key : jsstring) (o : obj V) : option V :=
  match o with
  | [] => None
  | (k, v) :: o' => if Str.eqb k key then Some v else get key o'
  end.

(** [o[key] = v]: an existing property keeps its place. *)
Fixpoint set (key : jsstring) (v : V) (o : obj V) : obj V :=
  match o with
  | [] => [(key, v)]
  | (k, w) :: o' =>
      if Str.eqb k key then (k, v) :: o' else (k, w) :: set key v o'
  end.

(** The values of [Object.entries(o)]. *)
Definition values (o : obj V) : list V := map snd o.
End Ops.
End Obj.

(** A JavaScript [Set] of strings. *)
Module SSet.
Definition t := list jsstring.
Definition has (k : jsstring) (s : t) : bool := Str.mem k s.
Definition add (k : jsstring) (s : t) : t := if has k s then s else s ++ [k].
End SSet.

(** The three kinds of records the index stores. *)
Record BarangayEntry : Type := {
  b_barangay : jsstring;
  b_city : jsstring;
  b_province : jsstring;
  b_region : jsstring;
  b_regionCode : jsstring
}.

Record CityEntry : Type := {
  c_city : jsstring;
  c_province : jsstring;
  c_region : jsstring;
  c_regionCode : jsstring;
  c_barangays : list jsstring
}.

Record ProvinceEntry : Type := {
  p_province : jsstring;
  p_region : jsstring;
  p_regionCode : jsstring;
  p_cities : list jsstring
}.

Record Index : Type := {
  barangayIndex : obj (list BarangayEntry);
  cityIndex : obj (list CityEntry);
  provinceIndex : obj ProvinceEntry;
  ambiguousBarangays : SSet.t;
  ambiguousCities : SSet.t
}.

Definition emptyIndex : Index :=
  {| barangayIndex := []; cityIndex := []; provinceIndex := [];
     ambiguousBarangays := []; ambiguousCities := [] |}.

(** The dataset file: region code -> region_name and province_list;
    province name -> municipality_list; city name -> barangay_list.
    Each level is given in the order of [Object.entries]. *)
Definition municipality_list := list (jsstring * list jsstring).
Definition province_list := list (jsstring * municipality_list).
Record RegionData : Type := {
  region_name : jsstring;
  provinces : province_list
}.
Definition Dataset := list (jsstring * RegionData).

Section Lookups.

(** A hint argument: [None] is [null]; a hint counts when it is truthy. *)
Definition hint_given (h : option jsstring) : option jsstring :=
  match h with
  | Some s => if Str.truthy s then Some s else None
  | None => None
  end.

Definition isAmbiguousBarangay (idx : Index) (barangayName : jsstring) : bool :=
  SSet.has (normalizeKey barangayName) (ambiguousBarangays idx).

Definition isAmbiguousCity (idx : Index) (cityName : jsstring) : bool :=
  SSet.has (normalizeKey cityName) (ambiguousCities idx).

(** The predicate of [matches.find] under a city hint. *)
Definition city_hint_matches (cityKey : jsstring) (m : BarangayEntry) : bool :=
  Str.eqb (normalizeKey (b_city m)) cityKey ||
  Str.includes (normalizeKey (b_city m)) cityKey ||
  Str.includes cityKey (normalizeKey (b_city m)).

(** The predicate of [matches.find] under a province hint. *)
Definition province_hint_matches (provinceKey province : jsstring) : bool :=
  Str.eqb (normalizeKey province) provinceKey ||
  Str.includes (normalizeKey province) provinceKey.

Definition findBarangay (idx : Index) (barangayName : jsstring)
           (cityContext provinceContext : option jsstring) : option BarangayEntry :=
  let barangayKey := normalizeKey barangayName in
  match Obj.get barangayKey (barangayIndex idx) with
  | None => None
  | Some [] => None
  | Some [m] => Some m
  | Some matches =>
      let by_city :=
        match hint_given cityContext with
        | Some cityContext =>
            find (city_hint_matches (normalizeKey cityContext)) matches
        | None => None
        end in
      match by_city with
      | Some m => Some m
      | None =>
          match hint_given provinceContext with
          | Some provinceContext =>
              find (fun m => province_hint_matches (normalizeKey provinceContext)
                                                   (b_province m)) matches
          | None => None
          end
      end
  end.

Definition priorityCities : obj jsstring :=
  [ (chars "bacolod", chars "NEGROS OCCIDENTAL");
    (chars "san juan", chars "NATIONAL CAPITAL REGION");
    (chars "taguig", chars "TAGUIG - PATEROS");
    (chars "makati", chars "NATIONAL CAPITAL REGION");
    (chars "quezon", chars "NATIONAL CAPITAL REGION") ].

Definition findCity (idx : Index) (cityName : jsstring)
           (provinceContext : option jsstring) : option CityEntry :=
  let cityKey := normalizeKey cityName in
  let has_city := Str.includes (Str.toLowerCase cityName) (chars "city") in
  (* Try exact match first *)
  let matches := Obj.get cityKey (cityIndex idx) in
  (* If no match, try adding "CITY" suffix *)
  let matches :=
    match matches with
    | None =>
        if negb has_city
        then Obj.get (normalizeKey (cityName ++ chars " City")) (cityIndex idx)
        else None
    | Some _ => matches
    end in
  (* Also try removing "City" if it's there *)
  let matches :=
    match matches with
    | None =>
        if has_city
        then Obj.get (normalizeKey (replace re_city_suffix [] cityName)) (cityIndex idx)
        else None
    | Some _ => matches
    end in
  match matches with
  | None => None
  | Some [] => None
  | Some [m] => Some m
  | Some ((first :: _) as matches) =>
      let by_province :=
        match hint_given provinceContext with
        | Some provinceContext =>
            find (fun m => province_hint_matches (normalizeKey provinceContext)
                                                 (c_province m)) matches
        | None => None
        end in
      match by_province with
      | Some m => Some m
      | None =>
          let by_priority :=
            match Obj.get cityKey priorityCities with
            | Some p => find (fun m => Str.includes (c_province m) p) matches
            | None => None
            end in
          match by_priority with
          | Some m => Some m
          | None => Some first      (* Default to first match if no better option *)
          end
      end
  end.

Definition findProvince (idx : Index) (provinceName : jsstring) : option ProvinceEntry :=
  Obj.get (normalizeKey provinceName) (provinceIndex idx).

Definition validateHierarchy (idx : Index) (barangay city province : jsstring) : bool :=
  let barangay_ok :=
    if Str.truthy barangay && Str.truthy city then
      match Obj.get (normalizeKey barangay) (barangayIndex idx) with
      | None => false
      | Some matches =>
          existsb (fun m => Str.eqb (normalizeKey (b_city m)) (normalizeKey city)) matches
      end
    else true in
  let city_ok :=
    if Str.truthy city && Str.truthy province then
      match Obj.get (normalizeKey city) (cityIndex idx) with
      | None => false
      | Some matches =>
          existsb (fun m => Str.eqb (normalizeKey (c_province m)) (normalizeKey province))
                  matches
      end
    else true in
  barangay_ok && city_ok.

End Lookups.

(** *** Building the index *)

Section Build.

Definition or_empty {A : Type} (o : option (list A)) : list A :=
  match o with Some l => l | None => [] end.

(** One barangay of [cityData.barangay_list.forEach]. *)
Definition addBarangay (regionName regionCode provinceName cityName : jsstring)
           (idx : Index) (barangayName : jsstring) : Index :=
  let barangayKey := normalizeKey barangayName in
  let entry := {| b_barangay := barangayName; b_city := cityName;
                  b_province := provinceName; b_region := regionName;
                  b_regionCode := regionCode |} in
  let l := or_empty (Obj.get barangayKey (barangayIndex idx)) ++ [entry] in
  {| barangayIndex := Obj.set barangayKey l (barangayIndex idx);
     cityIndex := cityIndex idx;
     provinceIndex := provinceIndex idx;
     ambiguousBarangays :=
       if 1 <? length l then SSet.add barangayKey (ambiguousBarangays idx)
       else ambiguousBarangays idx;
     ambiguousCities := ambiguousCities idx |}.

(** One city of a province's [municipality_list]. *)
Definition addCity (regionName regionCode provinceName : jsstring)
           (idx : Index) (city : jsstring * list jsstring) : Index :=
  let '(cityName, barangay_list) := city in
  let provinceKey := normalizeKey provinceName in
  let cityKey := normalizeKey cityName in
  (* Track cities in province *)
  let provinceIndex' :=
    match Obj.get provinceKey (provinceIndex idx) with
    | Some p =>
        Obj.set provinceKey
                {| p_province := p_province p; p_region := p_region p;
                   p_regionCode := p_regionCode p;
                   p_cities := p_cities p ++ [cityName] |}
                (provinceIndex idx)
    | None => provinceIndex idx
    end in
  let cityInfo := {| c_city := cityName; c_province := provinceName;
                     c_region := regionName; c_regionCode := regionCode;
                     c_barangays := barangay_list |} in
  let l := or_empty (Obj.get cityKey (cityIndex idx)) ++ [cityInfo] in
  let idx' :=
    {| barangayIndex := barangayIndex idx;
       cityIndex := Obj.set cityKey l (cityIndex idx);
       provinceIndex := provinceIndex';
       ambiguousBarangays := ambiguousBarangays idx;
       ambiguousCities :=
         if 1 <? length l then SSet.add cityKey (ambiguousCities idx)
         else ambiguousCities idx |} in
  fold_left (addBarangay regionName regionCode provinceName cityName)
            barangay_list idx'.

(** One province of a region's [province_list]. *)
Definition addProvince (regionName regionCode : jsstring)
           (idx : Index) (province : jsstring * municipality_list) : Index :=
  let '(provinceName, municipalities) := province in
  let provinceKey := normalizeKey provinceName in
  let idx' :=
    {| barangayIndex := barangayIndex idx;
       cityIndex := cityIndex idx;
       provinceIndex :=
         Obj.set provinceKey
                 {| p_province := provinceName; p_region := regionName;
                    p_regionCode := regionCode; p_cities := [] |}
                 (provinceIndex idx);
       ambiguousBarangays := ambiguousBarangays idx;
       ambiguousCities := ambiguousCities idx |} in
  fold_left (addCity regionName regionCode provinceName) municipalities idx'.

Definition addRegion (idx : Index) (region : jsstring * RegionData) : Index :=
  let '(regionCode, regionData) := region in
  fold_left (addProvince (region_name regionData) regionCode)
            (provinces regionData) idx.

(** The [{alias, target}] pairs one city-index property contributes. *)
Definition aliasesOf (entry : jsstring * list CityEntry)
  : list (jsstring * jsstring) :=
  let '(cityKey, cityInfo) := entry in
  match cityInfo with
  | [] => []
  | first :: _ =>
      let city := c_city first in
      (if Str.startsWith city (chars "CITY OF ") then
         let baseName := Str.replace_str (chars "CITY OF ") [] city in
         [ (normalizeKey (baseName ++ chars " CITY"), cityKey);
           (normalizeKey baseName, cityKey) ]
       else [])
      ++
      (if Str.endsWith city (chars " CITY") then
         let baseName := Str.replace_str (chars " CITY") [] city in
         [ (normalizeKey baseName, cityKey) ]
       else [])
      ++
      (if negb (Str.includes city (chars "CITY")) &&
          negb (Str.startsWith city (chars "CITY OF")) then
         [ (normalizeKey (city ++ chars " CITY"), cityKey) ]
       else [])
  end.

Definition applyAlias (ci : obj (list CityEntry)) (a : jsstring * jsstring)
  : obj (list CityEntry) :=
  let '(alias, target) := a in
  match Obj.get alias ci with
  | Some _ => ci
  | None =>
      match Obj.get target ci with
      | Some l => Obj.set alias l ci
      | None => ci
      end
  end.

Definition commonAliases : list (jsstring * jsstring) :=
  map (fun p => (chars (fst p), chars (snd p)))
    [ ("qc", "quezon city"); ("bgc", "taguig"); ("fort bonifacio", "taguig");
      ("gensan", "general santos"); ("cdo", "cagayan de oro");
      ("makati city", "city of makati"); ("taguig city", "taguig");
      ("gen trias", "general trias"); ("general trias", "general trias city");
      ("montalban", "rodriguez montalban"); ("rodriguez", "rodriguez montalban");
      ("north caloocan", "caloocan city"); ("south caloocan", "caloocan city");
      ("caloocan", "caloocan city"); ("las pinas", "las pinas city");
      ("san juan", "san juan city"); ("pasay", "pasay city");
      ("pasig", "pasig city"); ("marikina", "marikina city");
      ("muntinlupa", "muntinlupa city"); ("paranaque", "paranaque city");
      ("valenzuela", "valenzuela city"); ("malabon", "malabon city");
      ("navotas", "navotas city"); ("mandaluyong", "mandaluyong city");
      ("davao", "davao city"); ("cebu", "cebu city");
      ("zamboanga", "zamboanga city"); ("bacolod", "bacolod city");
      ("iloilo", "iloilo city"); ("cagayan de oro", "cagayan de oro city");
      ("general santos", "general santos city") ]%string.

Definition applyCommonAlias (ci : obj (list CityEntry)) (a : jsstring * jsstring)
  : obj (list CityEntry) :=
  let '(alias, canonical) := a in
  match Obj.get (normalizeKey canonical) ci with
  | Some l => Obj.set alias l ci
  | None => ci
  end.

Definition addCityAliases (idx : Index) : Index :=
  let cityAliases := flat_map aliasesOf (cityIndex idx) in
  let ci := fold_left applyAlias cityAliases (cityIndex idx) in
  let ci := fold_left applyCommonAlias commonAliases ci in
  {| barangayIndex := barangayIndex idx;
     cityIndex := ci;
     provinceIndex := provinceIndex idx;
     ambiguousBarangays := ambiguousBarangays idx;
     ambiguousCities := ambiguousCities idx |}.

Definition buildIndexes (data : Dataset) : Index :=
  addCityAliases (fold_left addRegion data emptyIndex).

End Build.

(** ** Resolver results *)

(** What the resolvers return: either the barangay entry of the index itself
    (an object with the properties barangay, city, province, region and
    regionCode) or an object literal [{region, province, city, barangay}]. *)
Inductive LocationMatch : Type :=
| OfEntry (m : BarangayEntry)
| Literal (region province city barangay : jsstring).

Definition lm_region (r : LocationMatch) : jsstring :=
  match r with OfEntry m => b_region m | Literal g _ _ _ => g end.
Definition lm_province (r : LocationMatch) : jsstring :=
  match r with OfEntry m => b_province m | Literal _ p _ _ => p end.
Definition lm_city (r : LocationMatch) : jsstring :=
  match r with OfEntry m => b_city m | Literal _ _ c _ => c end.
Definition lm_barangay (r : LocationMatch) : jsstring :=
  match r with OfEntry m => b_barangay m | Literal _ _ _ b => b end.


Definition ofCity (c : CityEntry) : LocationMatch :=
  Literal (c_region c) (c_province c) (c_city c) [].

Definition ofProvince (p : ProvinceEntry) : LocationMatch :=
  Literal (p_region p) (p_province p) [] [].

(** [m.length] and [m[0]] on an index entry, as the resolvers write them on
    the result of [findBarangay] and [findCity]: an entry object has neither
    property, so both are [undefined]. *)
Definition entry_length {E : Type} (m : E) : option nat := None.
Definition entry_at0 {E : Type} (m : E) : option E := None.

(** [x.length === 1]. *)
Definition length_is_1 (l : option nat) : bool :=
  match l with Some 1 => true | _ => false end.

(** ** Parser V2 (hierarchical-parser-v2.js) *)

Module V2.

Inductive Candidate : Type :=
| Barangay (name : jsstring) (context : option jsstring)   (* type: 'barangay' *)
| City (name : jsstring)                                   (* type: 'city' *)
| Location (name : jsstring)                               (* type: 'location' *)
| Area (name : jsstring)                                   (* type: 'area' *)
| Sequence (first second third : jsstring).                (* type: 'sequence' *)

Definition minConfidence : float := 0.3%float.

Definition STRONG_LOCATION_INDICATORS : list regex :=
  [ (* /\b(?:location|address)\s*(?:is|=|:)\s*/i *)
    Seqs [WordB; litis ["location"; "address"]; ws_star; litis ["is"; "="; ":"]; ws_star];
    (* /\bhere\s+in\b/i *)
    Seqs [WordB; liti "here"; ws_plus; liti "in"; WordB];
    (* /\b(?:from|at)\s+/i *)
    Seqs [WordB; litis ["from"; "at"]; ws_plus];
    (* /\b(?:taga|dito|rito|nasa|sa)\s+/i *)
    Seqs [WordB; litis ["taga"; "dito"; "rito"; "nasa"; "sa"]; ws_plus];
    (* /,\s*PHILIPPINES\s*$/i *)
    Seqs [liti ","; ws_star; liti "PHILIPPINES"; ws_star; Eol] ]%string.

Definition WEAK_LOCATION_INDICATORS : list regex :=
  [ (* /\b(?:in|near|around)\s+/i *)
    Seqs [WordB; litis ["in"; "near"; "around"]; ws_plus];
    (* /\s+area\b/i *)
    Seqs [ws_plus; liti "area"; WordB];
    (* /\b(?:my|our|aming)\s+(?:area|location|place)\s+/i *)
    Seqs [WordB; litis ["my"; "our"; "aming"]; ws_plus;
          litis ["area"; "location"; "place"]; ws_plus];
    (* /sa\s+area\s+namin\s+sa/i *)
    Seqs [liti "sa"; ws_plus; liti "area"; ws_plus; liti "namin"; ws_plus; liti "sa"] ]%string.

Definition SLANG_PATTERNS : list regex :=
  [ Seqs [WordB; liti "AF"; WordB];        (* /\bAF\b/i *)
    Seqs [WordB; liti "hehe"; WordB];      (* /\bhehe\b/i *)
    Seqs [WordB; liti "haha"];             (* /\bhaha/i *)
    Seqs [WordB; liti "lol"; WordB] ]%string.  (* /\blol\b/i *)

(* /\bLocation:\s*/i *)
Definition re_location_colon : regex := Seqs [WordB; liti "Location:"; ws_star]%string.
(* /\b(?:brgy|barangay)\.?\s+\w+\s*,\s*\w+/i *)
Definition re_barangay_comma : regex :=
  Seqs [WordB; litis ["brgy"; "barangay"]; Opt (Chr true (One "."%char)); ws_plus;
        Plus true wordc; ws_star; liti ","; ws_star; Plus true wordc]%string.
(* /\b\w+\s+area\b/i *)
Definition re_area_suffix : regex :=
  Seqs [WordB; Plus true wordc; ws_plus; liti "area"; WordB]%string.
(* /PHILIPPINES/i *)
Definition re_philippines : regex := liti "PHILIPPINES".

(** [Math.max] and [Math.min] on numbers that are not NaN. *)
Definition fmax (a b : float) : float := if PrimFloat.ltb a b then b else a.
Definition fmin (a b : float) : float := if PrimFloat.ltb b a then b else a.

(** [calculateConfidence] from the outcomes of its tests: the strong
    indicators (first hit only), each weak indicator, the four explicit
    patterns, and the slang patterns (first hit only). *)
Definition confidenceOf (strong : bool) (weak : list bool)
           (location barangay area philippines slang : bool) : float :=
  let confidence := 0%float in
  let confidence := if strong then (confidence + 0.4)%float else confidence in
  let confidence :=
    fold_left (fun (c : float) (hit : bool) => if hit then (c + 0.2)%float else c)
              weak confidence in
  let confidence := if location then fmax confidence 0.8%float else confidence in
  let confidence := if barangay then fmax confidence 0.7%float else confidence in
  let confidence := if area then fmax confidence 0.5%float else confidence in
  let confidence := if philippines then fmax confidence 0.6%float else confidence in
  let confidence := if slang then (confidence * 0.3)%float else confidence in
  fmin confidence 1.0%float.

Definition calculateConfidence (text : jsstring) : float :=
  confidenceOf
    (existsb (fun pattern => test pattern text) STRONG_LOCATION_INDICATORS)
    (map (fun pattern => test pattern text) WEAK_LOCATION_INDICATORS)
    (test re_location_colon text)
    (test re_barangay_comma text)
    (test re_area_suffix text)
    (test re_philippines text)
    (existsb (fun pattern => test pattern text) SLANG_PATTERNS).

(** The generic branch: barangay, then city, then province, each
    assignment overwriting the previous one. *)
Definition resolveGeneric (idx : Index) (name : jsstring)
  : option LocationMatch * float :=
  let r := (None, 0%float) in
  let r :=
    match findBarangay idx name None None with
    | Some m => if negb (isAmbiguousBarangay idx name)
                then (Some (OfEntry m), 0.5%float) else r
    | None => r
    end in
  let r :=
    match findCity idx name None with
    | Some c => (Some (ofCity c), 0.6%float)
    | None => r
    end in
  match findProvince idx name with
  | Some p => (Some (ofProvince p), 0.4%float)
  | None => r
  end.

(** The body of the loop up to "Apply confidence boost":
    [(locationMatch, score)] for one candidate. *)
Definition resolveCandidate (idx : Index) (candidate : Candidate)
  : option LocationMatch * float :=
  match candidate with
  | Barangay name context =>
      match findBarangay idx name context None with
      | Some m => (Some (OfEntry m), 0.8%float)
      | None => (None, 0%float)
      end
  | Area name =>
      let barangayMatch := findBarangay idx name None None in
      let cityMatch := findCity idx name None in
      match barangayMatch with
      | Some m =>
          if length_is_1 (entry_length m)
          then (option_map OfEntry (entry_at0 m), 0.6%float)
          else match cityMatch with
               | Some c => (Some (ofCity c), 0.7%float)
               | None => (None, 0%float)
               end
      | None =>
          match cityMatch with
          | Some c => (Some (ofCity c), 0.7%float)
          | None => (None, 0%float)
          end
      end
  | Sequence first second third =>
      match findBarangay idx first (Some second) None with
      | Some m => (Some (OfEntry m), 0.7%float)
      | None => (None, 0%float)
      end
  | City name | Location name => resolveGeneric idx name
  end.

(** One turn of the loop over the candidates: the state is
    [(bestMatch, bestScore)]. *)
Definition step (idx : Index) (confidence : float)
           (best : option LocationMatch * float) (candidate : Candidate)
  : option LocationMatch * float :=
  match resolveCandidate idx candidate with
  | (Some locationMatch, score) =>
      let score := (score * (1 + confidence))%float in
      if PrimFloat.ltb (snd best) score then (Some locationMatch, score) else best
  | (None, _) => best
  end.

Definition findBestMatch (idx : Index) (candidates : list Candidate)
           (fullText : jsstring) (confidence : float) : option LocationMatch :=
  let '(bestMatch, bestScore) :=
    fold_left (step idx confidence) candidates (None, 0%float) in
  if PrimFloat.ltb bestScore minConfidence then None else bestMatch.

End V2.

(** ** location-parser-v5.js *)

(** [x || 'None']. *)
Definition or_None (x : jsstring) : jsstring :=
  if Str.truthy x then x else chars "None".

Record LocationFields : Type := {
  region : jsstring;
  province : jsstring;
  city : jsstring;
  barangay : jsstring
}.

Definition createEmptyLocation : LocationFields :=
  {| region := chars "None"; province := chars "None";
     city := chars "None"; barangay := chars "None" |}.

Definition normalizeLocationFields (location : option LocationMatch) : LocationFields :=
  match location with
  | None => createEmptyLocation
  | Some l =>
      {| region := or_None (lm_region l);
         province := or_None (lm_province l);
         city := or_None (lm_city l);
         barangay := or_None (lm_barangay l) |}
  end.

(** ** Parser V1 (hierarchical-parser.js) *)

Module V1.

Definition LOCATION_INDICATORS : list regex :=
  [ (* /\b(?:location|address)\s*(?:is|=|:)\s*/i *)
    Seqs [WordB; litis ["location"; "address"]; ws_star; litis ["is"; "="; ":"]; ws_star];
    (* /\b(?:from|in|at|near|around)\s+/i *)
    Seqs [WordB; litis ["from"; "in"; "at"; "near"; "around"]; ws_plus];
    (* /\b(?:taga|dito|rito|nasa|sa|mula)\s+/i *)
    Seqs [WordB; litis ["taga"; "dito"; "rito"; "nasa"; "sa"; "mula"]; ws_plus];
    (* /\b(?:here\s+in|area\s+(?:ko|namin|natin))\s+/i *)
    Seqs [WordB;
          Alt (Seqs [liti "here"; ws_plus; liti "in"])
              (Seqs [liti "area"; ws_plus; litis ["ko"; "namin"; "natin"]]);
          ws_plus];
    (* /\b(?:my|our|aming)\s+(?:area|location|place)\s+/i *)
    Seqs [WordB; litis ["my"; "our"; "aming"]; ws_plus;
          litis ["area"; "location"; "place"]; ws_plus] ]%string.

(* /\blocation\s*(?:is|=|:)/i *)
Definition re_location_decl : regex :=
  Seqs [WordB; liti "location"; ws_star; litis ["is"; "="; ":"]]%string.

Definition SERVICE_NAMES : list jsstring :=
  map chars
    [ "globe"; "smart"; "pldt"; "converge"; "dito"; "sky"; "gomo";
      "fibr"; "fiber"; "dsl"; "broadband"; "wifi"; "internet";
      "globeathome"; "skyfiber"; "smartbro" ]%string.

Definition STOPWORDS : list jsstring :=
  map chars
    [ "january"; "february"; "march"; "april"; "may"; "june";
      "july"; "august"; "september"; "october"; "november"; "december";
      "jan"; "feb"; "mar"; "apr"; "jun"; "jul"; "aug"; "sep"; "sept"; "oct"; "nov"; "dec";
      "monday"; "tuesday"; "wednesday"; "thursday"; "friday"; "saturday"; "sunday";
      "today"; "yesterday"; "tomorrow"; "kahapon"; "bukas"; "ngayon";
      "same"; "just"; "wala"; "down"; "here"; "there";
      "every"; "sarado"; "may"; "apparently"; "pare";
      "problem"; "issue"; "service"; "happening"; "frustrating" ]%string.

Definition hasLocationContext (text : jsstring) : bool :=
  if test re_location_decl text then true
  else existsb (fun pattern => test pattern text) LOCATION_INDICATORS.

Record Contexts : Type := { ctx_city : option jsstring; ctx_province : option jsstring }.

(** First loop of [extractContexts]: the first candidate whose [findCity]
    result passes [cityMatch && cityMatch.length === 1]; it yields
    [(candidate, cityMatch[0].province)]. *)
Fixpoint cityAnchor (idx : Index) (candidates : list jsstring)
  : option (jsstring * option jsstring) :=
  match candidates with
  | [] => None
  | candidate :: rest =>
      match findCity idx candidate None with
      | Some cityMatch =>
          if length_is_1 (entry_length cityMatch)
          then Some (candidate, option_map c_province (entry_at0 cityMatch))
          else cityAnchor idx rest
      | None => cityAnchor idx rest
      end
  end.

(** Second loop: the first candidate that is a province. *)
Definition provinceAnchor (idx : Index) (candidates : list jsstring) : option jsstring :=
  find (fun candidate =>
          match findProvince idx candidate with Some _ => true | None => false end)
       candidates.

Definition extractContexts (idx : Index) (candidates : list jsstring)
           (text : jsstring) : Contexts :=
  let c0 := {| ctx_city := None; ctx_province := None |} in
  let c1 :=
    match cityAnchor idx candidates with
    | Some (candidate, province) =>
        {| ctx_city := Some candidate; ctx_province := province |}
    | None => c0
    end in
  match provinceAnchor idx candidates with
  | Some candidate => {| ctx_city := ctx_city c1; ctx_province := Some candidate |}
  | None => c1
  end.

(** The three ways [scoreMatch(match, text, type)] is called. *)
Inductive Scored : Type :=
| AsBarangay (m : BarangayEntry)      (* type = 'barangay' *)
| AsCity (m : CityEntry)              (* type = 'city' *)
| AsProvince (m : ProvinceEntry).     (* type = 'province' *)

Definition mentions (textLower name : jsstring) : bool :=
  Str.includes textLower (Str.toLowerCase name).

Definition scoreMatch (idx : Index) (m : Scored) (text : jsstring) : Z :=
  let score := 0%Z in
  let textLower := Str.toLowerCase text in
  let score :=
    match m with
    | AsBarangay m =>
        let score := (score + 30)%Z in
        (* Boost if city is also mentioned *)
        let score :=
          if Str.truthy (b_city m) && mentions textLower (b_city m)
          then (score + 40)%Z else score in
        (* Boost if province is also mentioned *)
        let score :=
          if Str.truthy (b_province m) && mentions textLower (b_province m)
          then (score + 20)%Z else score in
        (* Penalize ambiguous barangay without context *)
        if isAmbiguousBarangay idx (b_barangay m) &&
           negb (mentions textLower (b_city m))
        then (score - 50)%Z else score
    | AsCity m =>
        let score := (score + 50)%Z in
        if Str.truthy (c_province m) && mentions textLower (c_province m)
        then (score + 30)%Z else score
    | AsProvince _ => (score + 40)%Z
    end in
  (* Boost for explicit location declaration *)
  if test re_location_decl text then (score + 20)%Z else score.

(** [text.split(/\s+/).length]: one more than the number of white-space runs. *)
Fixpoint count_runs (in_run : bool) (s : jsstring) : nat :=
  match s with
  | [] => 0
  | c :: s' =>
      if Char.is_space c
      then (if in_run then 0 else 1) + count_runs true s'
      else count_runs false s'
  end.

Definition wordCount (text : jsstring) : nat := S (count_runs false text).

Definition validateMatch (idx : Index) (m : LocationMatch) (text : jsstring) : bool :=
  if Str.truthy (lm_barangay m) && negb (Str.truthy (lm_city m)) &&
     isAmbiguousBarangay idx (lm_barangay m)
  then false
  else if Str.truthy (lm_barangay m) &&
          Str.mem (Str.toLowerCase (lm_barangay m)) STOPWORDS
  then false
  else if (wordCount text <? 5) && negb (hasLocationContext text)
  then false
  else true.

(** One turn of the loop of [findBestMatch]; the state is
    [(bestMatch, bestScore)]. *)
Definition step (idx : Index) (contexts : Contexts) (fullText : jsstring)
           (best : option LocationMatch * Z) (candidate : jsstring)
  : option LocationMatch * Z :=
  let best :=
    match findBarangay idx candidate (ctx_city contexts) (ctx_province contexts) with
    | Some barangayMatch =>
        let score := scoreMatch idx (AsBarangay barangayMatch) fullText in
        if (snd best <? score)%Z then (Some (OfEntry barangayMatch), score) else best
    | None => best
    end in
  let best :=
    match findCity idx candidate (ctx_province contexts) with
    | Some cityMatch =>
        let score := scoreMatch idx (AsCity cityMatch) fullText in
        if (snd best <? score)%Z then (Some (ofCity cityMatch), score) else best
    | None => best
    end in
  match findProvince idx candidate with
  | Some provinceMatch =>
      let score := scoreMatch idx (AsProvince provinceMatch) fullText in
      if (snd best <? score)%Z then (Some (ofProvince provinceMatch), score) else best
  | None => best
  end.

Definition findBestMatch (idx : Index) (candidates : list jsstring)
           (fullText : jsstring) : option LocationMatch :=
  let contexts := extractContexts idx candidates fullText in
  let '(bestMatch, _) :=
    fold_left (step idx contexts fullText) candidates (None, 0%Z) in
  match bestMatch with
  | Some m => if validateMatch idx m fullText then Some m else None
  | None => None
  end.

End V1.

(** ** The false-positive filter (false-positive-filter.js) *)

Module Filter.

Definition FILIPINO_FUNCTION_WORDS : list jsstring :=
  map chars
    [ (* Common function words *)
      "parang"; "iba"; "ba"; "pa"; "na"; "naman"; "din"; "daw"; "raw";
      "sana"; "kaya"; "nang"; "nga"; "pala"; "lang"; "lamang";
      "kahit"; "kung"; "kasi"; "pero"; "at"; "o"; "ni"; "ng"; "sa";
      "rin"; "dito"; "rito"; "doon"; "roon"; "dyan"; "ryan";
      "saan"; "bakit"; "paano"; "sino"; "ano"; "alin"; "aling";
      "eh"; "ha"; "oo"; "opo"; "hindi"; "huwag"; "ayaw";
      (* Pronouns *)
      "ako"; "ikaw"; "siya"; "kami"; "kayo"; "sila"; "tayo";
      "ko"; "mo"; "niya"; "namin"; "natin"; "ninyo"; "nila";
      "akin"; "iyo"; "kaniya"; "amin"; "atin"; "inyo"; "kanila";
      "kanya"; "sarili"; "nito"; "nyan"; "niyan"; "noon"; "ngayon";
      (* Common words *)
      "wala"; "meron"; "may"; "mayroon"; "walang"; "lahat";
      "bawat"; "kada"; "ilan"; "marami"; "konti"; "kaunti";
      "isa"; "dalawa"; "tatlo"; "apat"; "lima"; "anim"; "pito"; "walo"; "siyam"; "sampu";
      "sobra"; "kulang"; "tama"; "mali"; "totoo"; "tunay"; "talaga";
      (* Time/frequency *)
      "araw"; "gabi"; "umaga"; "hapon"; "tanghali"; "madaling araw";
      "kahapon"; "bukas"; "ngayon"; "kanina"; "mamaya"; "maya";
      "minsan"; "lagi"; "palagi"; "madalas"; "bihira";
      "oras"; "minuto"; "segundo"; "linggo"; "buwan"; "taon";
      "sandali"; "saglit"; "ngayong araw"; "kagabi"; "kaninang umaga";
      (* Adjectives that might match locations *)
      "bago"; "luma"; "malaki"; "maliit"; "mabilis"; "mabagal";
      "mahaba"; "maikli"; "matanda"; "bata"; "maganda"; "pangit";
      "mahal"; "mura"; "mainit"; "malamig"; "mataas"; "mababa";
      "malayo"; "malapit"; "magaan"; "mabigat"; "masaya"; "malungkot";
      (* Verbs that might substring match *)
      "gawa"; "sabi"; "kain"; "inom"; "tulog"; "gising"; "lakad";
      "takbo"; "laro"; "trabaho"; "aral"; "basa"; "sulat"; "bili";
      "bayad"; "sakay"; "baba"; "pasok"; "labas"; "dating"; "alis";
      "uwi"; "balik"; "punta"; "tuloy"; "tigil"; "simula"; "tapos";
      (* Question words and conjunctions *)
      "dahil"; "sapagkat"; "subalit"; "datapwat"; "samantala";
      "gayunman"; "gayunpaman"; "bagamat"; "ngunit"; "upang"; "nang";
      "kapag"; "pag"; "kung"; "sakali"; "baka"; "siguro"; "marahil";
      (* Common exclamations and interjections *)
      "naku"; "hay"; "hala"; "aba"; "sus"; "diyos ko"; "grabe"; "sayang";
      "sige"; "tara"; "halika"; "sandali"; "teka"; "hintay"; "tignan" ]%string.

Definition TAGALOG_VERB_PATTERNS : list regex :=
  [ (* /^(nag|mag|um|in|na|ma|i|ipa|pag|pang|ka)/i *)
    Seqs [Bol; litis ["nag"; "mag"; "um"; "in"; "na"; "ma"; "i"; "ipa"; "pag"; "pang"; "ka"]];
    (* /^(nag|mag)(ka|pa|si)/i *)
    Seqs [Bol; litis ["nag"; "mag"]; litis ["ka"; "pa"; "si"]];
    (* /(in|an|han)$/i *)
    Seqs [litis ["in"; "an"; "han"]; Eol];
    (* /(um|in).*?(in|an)$/i *)
    Seqs [litis ["um"; "in"]; Star false (Chr true Dot); litis ["in"; "an"]; Eol] ]%string.

Definition ENGLISH_FALSE_POSITIVES : list jsstring :=
  map chars
    [ "real"; "goal"; "goals"; "usual"; "usually"; "face"; "facebook";
      "book"; "books"; "load"; "loading"; "loaded"; "upload";
      "download"; "reload"; "alone"; "loan"; "loans";
      "can"; "cant"; "cannot"; "ban"; "bans"; "banned";
      "pan"; "pans"; "tan"; "tans"; "man"; "men";
      "new"; "news"; "newer"; "newest"; "renew";
      "lag"; "lagging"; "lags"; "ping"; "pings"; "pinged";
      "plan"; "plans"; "planning"; "planned";
      "pass"; "passed"; "passing"; "password";
      "data"; "database"; "update"; "updates";
      "service"; "services"; "servicing";
      "announce"; "announced"; "announcement"; "announcing";
      "register"; "registered"; "registration"; "registering";
      "apply"; "applied"; "application"; "applying";
      "pay"; "paid"; "payment"; "paying";
      "say"; "said"; "saying"; "says";
      "down"; "up"; "online"; "offline"; "active"; "inactive";
      "good"; "bad"; "better"; "best"; "worse"; "worst";
      "same"; "different"; "similar"; "exact";
      "day"; "days"; "daily"; "today"; "yesterday"; "tomorrow";
      "week"; "weeks"; "weekly"; "month"; "months"; "monthly";
      "year"; "years"; "yearly"; "annual"; "annually" ]%string.

Definition CONTEXT_DEPENDENT_WORDS : list jsstring :=
  map chars
    [ "aurora"; "victoria"; "angeles"; "carmen"; "esperanza";
      "florida"; "jordan"; "leon"; "mercedes"; "salvador";
      "santiago"; "trinidad"; "valencia" ]%string.

Definition letter_i : regex := Chr true (Range "a" "z").     (* [a-z] under i *)
Definition digit : regex := Chr false Digit.                 (* \d *)

Definition NON_LOCATION_PATTERNS : list regex :=
  [ (* /\b(nag|mag|um)\s*\w+/i *)
    Seqs [WordB; litis ["nag"; "mag"; "um"]; ws_star; Plus true wordc];
    (* /\b\w+ing\b/i *)
    Seqs [WordB; Plus true wordc; liti "ing"; WordB];
    (* /\b\w+ed\b/i *)
    Seqs [WordB; Plus true wordc; liti "ed"; WordB];
    (* /@\w+/ *)
    Seqs [lit "@"; Plus true wordc];
    (* /#\w+/ *)
    Seqs [lit "#"; Plus true wordc];
    (* /\.(com|net|org|ph)/i *)
    Seqs [liti "."; litis ["com"; "net"; "org"; "ph"]];
    (* /https?:\/\//i *)
    Seqs [liti "http"; Opt (liti "s"); liti "://"];
    (* /\b\d{1,2}(am|pm)\b/i *)
    Seqs [WordB; digit; Opt digit; litis ["am"; "pm"]; WordB];
    (* /\b(jan|feb|mar|apr|may|jun|jul|aug|sep|oct|nov|dec)\s+\d+/i *)
    Seqs [WordB;
          litis ["jan"; "feb"; "mar"; "apr"; "may"; "jun"; "jul"; "aug"; "sep"; "oct"; "nov"; "dec"];
          ws_plus; Plus true digit];
    (* /\bseptember\s+\d+/i *)
    Seqs [WordB; liti "september"; ws_plus; Plus true digit];
    (* /\b(down|offline|slow|lag|delay|issue|problem|error)/i *)
    Seqs [WordB; litis ["down"; "offline"; "slow"; "lag"; "delay"; "issue"; "problem"; "error"]];
    (* /\b(walang|no|without)\s+(internet|connection|service|signal)/i *)
    Seqs [WordB; litis ["walang"; "no"; "without"]; ws_plus;
          litis ["internet"; "connection"; "service"; "signal"]] ]%string.

Definition LOCATION_CONTEXT_PATTERNS : list regex :=
  [ (* /\b(taga|galing|from|sa|nasa|dito|rito|nandito|narito)\s+/i *)
    Seqs [WordB;
          litis ["taga"; "galing"; "from"; "sa"; "nasa"; "dito"; "rito"; "nandito"; "narito"];
          ws_plus];
    (* /\b(here\s+in|located\s+at|located\s+in|based\s+in)\s+/i *)
    Seqs [WordB;
          Alts [Seqs [liti "here"; ws_plus; liti "in"];
                Seqs [liti "located"; ws_plus; liti "at"];
                Seqs [liti "located"; ws_plus; liti "in"];
                Seqs [liti "based"; ws_plus; liti "in"]];
          ws_plus];
    (* /\b(address|location|lugar|area|place)\s*[:=]\s*/i *)
    Seqs [WordB; litis ["address"; "location"; "lugar"; "area"; "place"]; ws_star;
          Chr true (Union (One ":") (One "=")); ws_star];
    (* /\b([a-z]+)\s+area\b/i *)
    Seqs [WordB; Plus true letter_i; ws_plus; liti "area"; WordB];
    (* /\b(here|dito|rito)\b/i *)
    Seqs [WordB; litis ["here"; "dito"; "rito"]; WordB];
    (* /\b(?:around|near)\s+[a-z]/i *)
    Seqs [WordB; litis ["around"; "near"]; ws_plus; letter_i];
    (* /\b(?:living|staying|working)\s+in\s+[a-z]/i *)
    Seqs [WordB; litis ["living"; "staying"; "working"]; ws_plus; liti "in"; ws_plus; letter_i];
    (* /\b(city|municipality|province|region|barangay|brgy)\s+/i *)
    Seqs [WordB; litis ["city"; "municipality"; "province"; "region"; "barangay"; "brgy"]; ws_plus];
    (* /\b(city|municipality|province|region|barangay|brgy)$/i *)
    Seqs [WordB; litis ["city"; "municipality"; "province"; "region"; "barangay"; "brgy"]; Eol];
    (* /,\s*philippines$/i *)
    Seqs [liti ","; ws_star; liti "philippines"; Eol];
    (* /\b(north|south|east|west|northern|southern|eastern|western)\s+/i *)
    Seqs [WordB;
          litis ["north"; "south"; "east"; "west"; "northern"; "southern"; "eastern"; "western"];
          ws_plus];
    (* /\b(upper|lower|central|downtown|suburban)\s+/i *)
    Seqs [WordB; litis ["upper"; "lower"; "central"; "downtown"; "suburban"]; ws_plus] ]%string.

(** The last loop of [isFalsePositive]: some non-location pattern matches
    the text and the matched text includes the word. *)
Definition inNonLocationContext (normalized fullTextLower : jsstring) : bool :=
  existsb (fun pattern =>
             match match0 pattern fullTextLower with
             | Some (_, matched) => Str.includes matched normalized
             | None => false
             end)
          NON_LOCATION_PATTERNS.

Definition isFalsePositive (word fullText : jsstring) : bool :=
  if negb (Str.truthy word) then true else
  let normalized := Str.trim (Str.toLowerCase word) in
  let fullTextLower := Str.toLowerCase fullText in
  (* Check Filipino function words *)
  if Str.mem normalized FILIPINO_FUNCTION_WORDS then true
  (* Check English false positives *)
  else if Str.mem normalized ENGLISH_FALSE_POSITIVES then true
  (* Check Tagalog verb patterns *)
  else if existsb (fun pattern => test pattern normalized) TAGALOG_VERB_PATTERNS then true
  (* For context-dependent words, check if there's location context *)
  else if Str.mem normalized CONTEXT_DEPENDENT_WORDS then
    negb (existsb (fun pattern => test pattern fullTextLower) LOCATION_CONTEXT_PATTERNS)
  (* Check if the word appears in non-location context *)
  else inNonLocationContext normalized fullTextLower.

Definition hasLocationContext (text : jsstring) : bool :=
  let textLower := Str.toLowerCase text in
  (* /\b(taga|dito\s+sa|nasa)\s+\w+/i *)
  if test (Seqs [WordB;
                 Alts [liti "taga"; Seqs [liti "dito"; ws_plus; liti "sa"]; liti "nasa"];
                 ws_plus; Plus true wordc]%string) textLower then true
  (* /\w+\s+area\b/i *)
  else if test (Seqs [Plus true wordc; ws_plus; liti "area"; WordB]%string) textLower then true
  (* /\b(location|address)\s*[:=]/i *)
  else if test (Seqs [WordB; litis ["location"; "address"]; ws_star;
                      Chr true (Union (One ":") (One "="))]%string) textLower then true
  else existsb (fun pattern => test pattern textLower) LOCATION_CONTEXT_PATTERNS.

(** Characters with a meaning in pattern syntax. *)
Definition syntax_char (c : ascii) : bool :=
  existsb (Ascii.eqb c) (chars "\^$.*+?()[]{}|").

(** The body of [new RegExp(word, 'i')] for a word whose characters stand
    for themselves, [.] apart, which stands for any character; [None] for a
    word with other pattern syntax, which this model does not parse. *)
Fixpoint wordPattern (word : jsstring) : option regex :=
  match word with
  | [] => Some Eps
  | c :: w =>
      match wordPattern w with
      | Some r =>
          if Ascii.eqb c "." then Some (Seq (Chr true Dot) r)
          else if syntax_char c then None
          else Some (Seq (Chr true (One c)) r)
      | None => None
      end
  end.

(* /[\s,.\-!?;:]/ *)
Definition boundary_char (c : ascii) : bool :=
  mem false (Union Space (Union (One ",") (Union (One ".") (Union (One "-")
            (Union (One "!") (Union (One "?") (Union (One ";") (One ":")))))))) c.

(** [extractWordWithBoundaries(text, word)]; the outer [None] is a word
    outside [wordPattern], the inner [None] is the [null] result. *)
Definition extractWordWithBoundaries (text word : jsstring)
  : option (option jsstring) :=
  match wordPattern word with
  | None => None
  | Some body =>
      let wordRegex := Seqs [WordB; body; WordB] in
      Some
        match exec wordRegex text with
        | Some (b, e) =>
            let before := match seen b with x :: _ => x | [] => " "%char end in
            let after := match ahead e with x :: _ => x | [] => " "%char end in
            let isWordBoundary := boundary_char before && boundary_char after in
            if isWordBoundary then Some (slice b e) else None
        | None => None
        end
  end.

Inductive Validation : Type :=
| Invalid (reason : string)          (* { isValid: false, reason } *)
| Valid (candidate : jsstring).      (* { isValid: true, candidate } *)

Definition isValid (v : Validation) : bool :=
  match v with Valid _ => true | Invalid _ => false end.

Definition validateLocationCandidate (candidate fullText : jsstring)
  : option Validation :=
  if negb (Str.truthy candidate) || (length candidate <? 3) then
    Some (Invalid "Too short")
  else if isFalsePositive candidate fullText then
    Some (Invalid "Common word false positive")
  else if negb (hasLocationContext fullText) then
    Some (Invalid "No location context")
  else
    match extractWordWithBoundaries fullText candidate with
    | None => None
    | Some None => Some (Invalid "Not a complete word")
    | Some (Some extracted) => Some (Valid extracted)
    end.

End Filter.

(** ** A small gazetteer used in the examples *)

Definition sampleData : Dataset :=
  [ (chars "04",
     {| region_name := chars "REGION IV-A (CALABARZON)";
        provinces :=
          [ (chars "RIZAL",
             [ (chars "RODRIGUEZ (MONTALBAN)", [chars "ROSARIO"; chars "SAN JOSE"]);
               (chars "TAYTAY", [chars "SAN ISIDRO"; chars "DOLORES"]) ]) ] |});
    (chars "07",
     {| region_name := chars "REGION VII (CENTRAL VISAYAS)";
        provinces :=
          [ (chars "CEBU",
             [ (chars "CEBU CITY", [chars "LAHUG"]);
               (chars "CONSOLACION", [chars "POBLACION"; chars "TAYUD"]) ]) ] |});
    (chars "08",
     {| region_name := chars "REGION VIII (EASTERN VISAYAS)";
        provinces :=
          [ (chars "LEYTE",
             [ (chars "SAN ISIDRO", [chars "POBLACION"]) ]);
            (chars "NORTHERN SAMAR",
             [ (chars "SAN ISIDRO", [chars "POBLACION"; chars "CONSOLACION"]) ]) ] |}) ].

Definition sampleIndex : Index := Eval vm_compute in buildIndexes sampleData.

Definition sanIsidroLeyte : CityEntry :=
  {| c_city := chars "SAN ISIDRO"; c_province := chars "LEYTE";
     c_region := chars "REGION VIII (EASTERN VISAYAS)"; c_regionCode := chars "08";
     c_barangays := [chars "POBLACION"] |}.

Definition sampleBarangay (barangay city province region code : string) : BarangayEntry :=
  {| b_barangay := chars barangay; b_city := chars city; b_province := chars province;
     b_region := chars region; b_regionCode := chars code |}.

Definition poblacionLeyte : BarangayEntry :=
  sampleBarangay "POBLACION" "SAN ISIDRO" "LEYTE" "REGION VIII (EASTERN VISAYAS)" "08".
Definition poblacionSamar : BarangayEntry :=
  sampleBarangay "POBLACION" "SAN ISIDRO" "NORTHERN SAMAR" "REGION VIII (EASTERN VISAYAS)" "08".
Definition poblacionConsolacion : BarangayEntry :=
  sampleBarangay "POBLACION" "CONSOLACION" "CEBU" "REGION VII (CENTRAL VISAYAS)" "07".
Definition tayudConsolacion : BarangayEntry :=
  sampleBarangay "TAYUD" "CONSOLACION" "CEBU" "REGION VII (CENTRAL VISAYAS)" "07".

Definition sanIsidroSamar : CityEntry :=
  {| c_city := chars "SAN ISIDRO"; c_province := chars "NORTHERN SAMAR";
     c_region := chars "REGION VIII (EASTERN VISAYAS)"; c_regionCode := chars "08";
     c_barangays := [chars "POBLACION"; chars "CONSOLACION"] |}.

(** ** More string operations *)

Module Text.

(** The double quote character. *)
Definition dquote : ascii := ascii_of_nat 34.

Definition toUpperCase (s : jsstring) : jsstring := map Char.upper s.

(** [parts.join(sep)]. *)
Fixpoint join (sep : jsstring) (parts : list jsstring) : jsstring :=
  match parts with
  | [] => []
  | [p] => p
  | p :: rest => p ++ sep ++ join sep rest
  end.

(** [s.split(c)] for a separator [c] of one character; [piece] holds the
    characters since the last separator, most recent first. *)
Fixpoint split_at (c : ascii) (piece : jsstring) (s : jsstring) : list jsstring :=
  match s with
  | [] => [rev piece]
  | x :: s' =>
      if Ascii.eqb x c then rev piece :: split_at c [] s'
      else split_at c (x :: piece) s'
  end.

Definition split (c : ascii) (s : jsstring) : list jsstring := split_at c [] s.

(** [s.slice(1, -1)]. *)
Definition slice_1_m1 (s : jsstring) : jsstring := removelast (tl s).

(** [parseInt(s)] on a string of decimal digits, which is what the source
    passes; the value is exact up to fifteen digits. *)
Definition parseInt (s : jsstring) : Z :=
  fold_left (fun n c => (n * 10 + (Z.of_nat (Char.code c) - 48))%Z) s 0%Z.

End Text.

(** ** Patterns with capturing groups

    A pattern whose groups lie side by side, such as [^([A-Z]+)(\d+)$], is
    given as the list of its parts.  [match_parts rs c] is the position
    after each part in the match the backtracking matcher finds from [c]:
    the first end of the first part, in that part's order of preference,
    from which the remaining parts match, and so on. *)

Module Cap.

Fixpoint match_parts (rs : list regex) (c : cursor) : option (list cursor) :=
  match rs with
  | [] => Some []
  | r :: rest =>
      match rmatch r c (fun c1 => match match_parts rest c1 with
                                  | Some _ => Some c1
                                  | None => None
                                  end) with
      | Some c1 =>
          match match_parts rest c1 with
          | Some l => Some (c1 :: l)
          | None => None
          end
      | None => None
      end
  end.

(** The text of each part: [match[1]], [match[2]], ... when every part is a
    group. *)
Fixpoint texts (b : cursor) (ends : list cursor) : list jsstring :=
  match ends with
  | [] => []
  | e :: ends' => slice b e :: texts e ends'
  end.

(** The end of the whole match. *)
Definition end_of (b : cursor) (ends : list cursor) : cursor := last ends b.

(** Leftmost match at or after a position. *)
Fixpoint search (rs : list regex) (seen ahead : jsstring)
  : option (cursor * list cursor) :=
  match match_parts rs (Cursor seen ahead) with
  | Some l => Some (Cursor seen ahead, l)
  | None =>
      match ahead with
      | [] => None
      | x :: ahead' => search rs (x :: seen) ahead'
      end
  end.

(** [s.match(r)] without [g]: the texts of the parts of the first match. *)
Definition exec (rs : list regex) (s : jsstring) : option (list jsstring) :=
  match search rs [] s with
  | Some (b, l) => Some (texts b l)
  | None => None
  end.

(** The loop [while ((match = r.exec(s)) !== null)] for a pattern with [g]:
    every match from left to right, each search starting where the previous
    match ended.  The loop of the source does not end if a match is empty;
    no pattern it is used with can match the empty string, and the model
    stops there. *)
Fixpoint exec_from (fuel : nat) (rs : list regex) (seen ahead : jsstring)
  : list (list jsstring) :=
  match fuel with
  | 0 => []
  | S fuel' =>
      match search rs seen ahead with
      | None => []
      | Some (b, l) =>
          let e := end_of b l in
          if length (Re.ahead e) <? length (Re.ahead b)
          then texts b l :: exec_from fuel' rs (Re.seen e) (Re.ahead e)
          else [texts b l]
      end
  end.

Definition exec_all (rs : list regex) (s : jsstring) : list (list jsstring) :=
  exec_from (S (length s)) rs [] s.

(** [s.replace(r, f)] with [g] and a function [f] of the match: [f] gets
    the texts of the parts. *)
Fixpoint replace_from (fuel : nat) (rs : list regex) (f : list jsstring -> jsstring)
         (seen ahead : jsstring) : jsstring :=
  match fuel with
  | 0 => ahead
  | S fuel' =>
      match search rs seen ahead with
      | None => ahead
      | Some (b, l) =>
          let e := end_of b l in
          let skipped := slice (Cursor seen ahead) b in
          let repl := f (texts b l) in
          if length (Re.ahead e) <? length (Re.ahead b) then
            skipped ++ repl ++ replace_from fuel' rs f (Re.seen e) (Re.ahead e)
          else
            match Re.ahead e with
            | [] => skipped ++ repl
            | x :: tl =>
                skipped ++ repl ++ x :: replace_from fuel' rs f (x :: Re.seen e) tl
            end
      end
  end.

Definition replace_all (rs : list regex) (f : list jsstring -> jsstring)
           (s : jsstring) : jsstring :=
  replace_from (S (length s)) rs f [] s.

(** [s.split(r)] for a pattern without groups: the pieces between the
    matches.  A match is looked for at each position [q] from the end [p] of
    the last separator on; an empty match at [p] itself is skipped.
    [piece] holds the characters from [p] to [q], most recent first. *)
Fixpoint split_from (fuel : nat) (r : regex) (piece seen ahead : jsstring)
  : list jsstring :=
  match fuel with
  | 0 => [rev piece ++ ahead]
  | S fuel' =>
      match ahead with
      | [] => [rev piece]
      | x :: tl =>
          match match_at r (Cursor seen ahead) with
          | Some e =>
              if (length (Re.ahead e) =? length ahead) && (length piece =? 0)
              then split_from fuel' r (x :: piece) (x :: seen) tl
              else rev piece :: split_from fuel' r [] (Re.seen e) (Re.ahead e)
          | None => split_from fuel' r (x :: piece) (x :: seen) tl
          end
      end
  end.

Definition split (r : regex) (s : jsstring) : list jsstring :=
  match s with
  | [] => match match_at r (Cursor [] []) with Some _ => [] | None => [[]] end
  | _ => split_from (2 * length s + 1) r [] [] s
  end.

End Cap.

(** ** location-parser-v5.js, continued *)

(** [x && x !== 'None'], as a truth value. *)
Definition has_value (x : jsstring) : bool :=
  Str.truthy x && negb (Str.eqb x (chars "None")).

(** [hasLocationData(location)]: the truth value of the result ([None] is a
    [null] location). *)
Definition hasLocationData (location : option LocationFields) : bool :=
  match location with
  | None => false
  | Some l =>
      has_value (region l) || has_value (province l) ||
      has_value (city l) || has_value (barangay l)
  end.

(** [if (cond) parts.push(label + value)]. *)
Definition push_if (cond : bool) (label : string) (value : jsstring)
           (parts : list jsstring) : list jsstring :=
  if cond then parts ++ [chars label ++ value] else parts.

Definition formatLocation (location : option LocationFields) : jsstring :=
  match location with
  | None => chars "No location identified"
  | Some l =>
      if negb (hasLocationData location) then chars "No location identified" else
      let parts := [] in
      let parts := push_if (has_value (barangay l)) "Barangay: " (barangay l) parts in
      let parts := push_if (has_value (city l)) "City: " (city l) parts in
      let parts := push_if (has_value (province l)) "Province: " (province l) parts in
      let parts := push_if (has_value (region l)) "Region: " (region l) parts in
      Text.join (chars ", ") parts
  end.

(** ** The sheet parser (sheet-parser.js) *)

Module Sheet.

Record ColumnRange : Type := {
  column : Z;
  startRow : Z;
  endRow : option Z          (* [None] is [null] *)
}.

(** [columnLetterToIndex(letter)]; the arithmetic of the source is exact
    for names of up to eleven letters. *)
Definition columnLetterToIndex (letter : jsstring) : Z :=
  let index :=
    fold_left (fun index c => index * 26 + (Z.of_nat (Char.code c) - 65 + 1))%Z
              letter 0%Z in
  (index - 1)%Z.

Definition upper_letters : regex := Plus true (Chr false (Range "A" "Z")).  (* [A-Z]+ *)
Definition digits : regex := Plus true (Chr false Digit).                   (* \d+ *)

(* /^([A-Z]+)$/ *)
Definition re_simple_column : list regex := [Bol; upper_letters; Eol].
(* /^([A-Z]+)(\d+)$/ *)
Definition re_single_cell : list regex := [Bol; upper_letters; digits; Eol].
(* /^([A-Z]+):([A-Z]+)$/ *)
Definition re_column_range : list regex :=
  [Bol; upper_letters; lit ":"; upper_letters; Eol].
(* /^([A-Z]+)(\d+):([A-Z]+)(\d+)$/ *)
Definition re_cell_range : list regex :=
  [Bol; upper_letters; digits; lit ":"; upper_letters; digits; Eol].

(** [parseColumnRange(range)]; [None] is a missing argument.  The parts of
    each pattern are listed with their anchors, so the first group is the
    second text. *)
Definition parseColumnRange (range : option jsstring) : ColumnRange :=
  let default := {| column := 1; startRow := 2; endRow := None |} in
  match range with
  | None => default
  | Some range =>
      if negb (Str.truthy range) || Str.eqb (Str.trim range) [] then default else
      let range := Text.toUpperCase (Str.trim range) in
      match Cap.exec re_simple_column range with
      | Some [_; g1; _] =>
          {| column := columnLetterToIndex g1; startRow := 2; endRow := None |}
      | _ =>
      match Cap.exec re_single_cell range with
      | Some [_; g1; g2; _] =>
          {| column := columnLetterToIndex g1; startRow := Text.parseInt g2;
             endRow := Some (Text.parseInt g2) |}
      | _ =>
      match Cap.exec re_column_range range with
      | Some [_; g1; _; g2; _] =>
          {| column := columnLetterToIndex g1; startRow := 2; endRow := None |}
      | _ =>
      match Cap.exec re_cell_range range with
      | Some [_; g1; g2; _; g3; g4; _] =>
          {| column := columnLetterToIndex g1; startRow := Text.parseInt g2;
             endRow := Some (Text.parseInt g4) |}
      | _ => default
      end end end end
  end.

(** The loop of [parseCSVLine]: [current] is the field being read. *)
Fixpoint scanCSV (line : jsstring) (current : jsstring) (inQuotes : bool)
  : list jsstring :=
  match line with
  | [] => [current]                                  (* Add last field *)
  | char :: rest =>
      if Ascii.eqb char Text.dquote then
        match rest with
        | nextChar :: rest' =>
            if Ascii.eqb nextChar Text.dquote
            then scanCSV rest' (current ++ [Text.dquote]) inQuotes   (* Escaped quote *)
            else scanCSV rest current (negb inQuotes)                (* Toggle quotes *)
        | [] => scanCSV rest current (negb inQuotes)
        end
      else if Ascii.eqb char "," && negb inQuotes then
        current :: scanCSV rest [] inQuotes                          (* Field separator *)
      else scanCSV rest (current ++ [char]) inQuotes
  end.

(** Remove surrounding quotes if present. *)
Definition unquote (field : jsstring) : jsstring :=
  if Str.startsWith field [Text.dquote] && Str.endsWith field [Text.dquote]
  then Text.slice_1_m1 field else field.

Definition parseCSVLine (line : jsstring) : list jsstring :=
  map unquote (scanCSV line [] false).

(** A number used as a condition: zero is falsy. *)
Definition nonzero (n : Z) : bool := negb (n =? 0)%Z.

(** One line of the [forEach] of [extractFromCSV]; [index] counts from 0. *)
Definition extractRow (range : ColumnRange) (results : list jsstring)
           (row : nat * jsstring) : list jsstring :=
  let '(index, line) := row in
  let actualRowNumber := (Z.of_nat index + 1)%Z in
  if nonzero (startRow range) && (actualRowNumber <? startRow range)%Z then results
  else if match endRow range with
          | Some e => nonzero e && (e <? actualRowNumber)%Z
          | None => false
          end then results
  else
    let fields := parseCSVLine line in
    if (column range <? Z.of_nat (length fields))%Z then
      match (if (column range <? 0)%Z then None
             else nth_error fields (Z.to_nat (column range))) with
      | Some cellValue =>
          if Str.truthy cellValue && Str.truthy (Str.trim cellValue) &&
             negb (Str.eqb cellValue (chars "None"))
          then results ++ [Str.trim cellValue]
          else results
      | None => results
      end
    else results.

Definition extractFromCSV (csvText : jsstring) (columnRange : option jsstring)
  : list jsstring :=
  let range := parseColumnRange columnRange in
  let lines := filter Str.truthy (map Str.trim (Text.split (ascii_of_nat 10) csvText)) in
  fold_left (extractRow range) (combine (seq 0 (length lines)) lines) [].

(** The quoting of a text cell by the CSV export of the web page
    ([generateSingleColumnCSV]): the text between two double quotes, after
    [replace] has doubled every double quote in it. *)
Definition quoteCell (text : jsstring) : jsstring :=
  [Text.dquote] ++
  replace_all (Chr false (One Text.dquote)) [Text.dquote; Text.dquote] text ++
  [Text.dquote].

End Sheet.

(** ** The false-positive filter, continued *)

Module FilterText.

(* /@\w+/g, /#\w+/g, /https?:\/\/[^\s]+/g *)
Definition re_mention : regex := Seqs [lit "@"; Plus true wordc].
Definition re_hashtag : regex := Seqs [lit "#"; Plus true wordc].
Definition re_url : regex :=
  Seqs [lit "http"; Opt (lit "s"); lit "://"; Plus true (Chr false (Not Space))].

Definition falsePositivePhrases : list regex :=
  [ Seqs [WordB; liti "nag"; ws_plus; liti "announce"; WordB];    (* /\bnag\s+announce\b/gi *)
    Seqs [WordB; liti "nag"; ws_plus; liti "register"; WordB];    (* /\bnag\s+register\b/gi *)
    Seqs [WordB; liti "goal"; ws_plus; liti "is"; WordB];         (* /\bgoal\s+is\b/gi *)
    Seqs [WordB; liti "real"; ws_plus; liti "problem"; WordB];    (* /\breal\s+problem\b/gi *)
    Seqs [WordB; liti "usual"; ws_plus; liti "time"; WordB] ]%string.  (* /\busual\s+time\b/gi *)

Definition preprocessTextForParsing (text : jsstring) : jsstring :=
  let processed := text in
  (* Remove @mentions and #hashtags completely *)
  let processed := replace_all re_mention [] processed in
  let processed := replace_all re_hashtag [] processed in
  (* Remove URLs *)
  let processed := replace_all re_url [] processed in
  (* Remove common false positive phrases *)
  fold_left (fun processed phrase => replace_all phrase [] processed)
            falsePositivePhrases processed.

End FilterText.

(** ** The index of the Excel data (excel-location-index.js) *)

Module Excel.

(* /[^A-Z0-9\s]/g *)
Definition re_other : regex :=
  Chr false (Not (Union (Range "A" "Z") (Union (Range "0" "9") Space))).

Definition normalize (text : jsstring) : jsstring :=
  if negb (Str.truthy text) then [] else
  let s := Text.toUpperCase text in
  let s := replace_all re_other [] s in
  let s := replace_all ws_plus (chars " ") s in
  Str.trim s.

End Excel.

(** ** The enhanced matcher (enhanced-location-matcher.js) *)

Module Matcher.

Definition colon_or_equals : regex := Chr true (Union (One ":") (One "=")).   (* [:=] *)

Definition EXPLICIT_LOCATION_PATTERNS : list regex :=
  [ (* /\blocation\s*[:=]\s*[a-z]/i *)
    Seqs [WordB; liti "location"; ws_star; colon_or_equals; ws_star; Filter.letter_i];
    (* /\baddress\s*[:=]\s*[a-z]/i *)
    Seqs [WordB; liti "address"; ws_star; colon_or_equals; ws_star; Filter.letter_i];
    (* /\b(?:based|living|staying|working)\s+in\b/i *)
    Seqs [WordB; litis ["based"; "living"; "staying"; "working"]; ws_plus; liti "in"; WordB];
    (* /\bhere\s+in\b/i *)
    Seqs [WordB; liti "here"; ws_plus; liti "in"; WordB];
    (* /\btaga\s+[a-z]/i *)
    Seqs [WordB; liti "taga"; ws_plus; Filter.letter_i] ]%string.

Definition IMPLICIT_LOCATION_PATTERNS : list regex :=
  [ (* /\b(?:dito|rito)\s+sa\s+[a-z]/i *)
    Seqs [WordB; litis ["dito"; "rito"]; ws_plus; liti "sa"; ws_plus; Filter.letter_i];
    (* /\b(?:around|near)\s+[a-z]/i *)
    Seqs [WordB; litis ["around"; "near"]; ws_plus; Filter.letter_i];
    (* /\b(?:area|place)\s+(?:ng|of)\s+[a-z]/i *)
    Seqs [WordB; litis ["area"; "place"]; ws_plus; litis ["ng"; "of"]; ws_plus; Filter.letter_i];
    (* /\b(?:nasa|nandito|narito)\s+[a-z]/i *)
    Seqs [WordB; litis ["nasa"; "nandito"; "narito"]; ws_plus; Filter.letter_i];
    (* /\b(?:living|staying|working|based)\s+in\s+[a-z]/i *)
    Seqs [WordB; litis ["living"; "staying"; "working"; "based"]; ws_plus; liti "in";
          ws_plus; Filter.letter_i] ]%string.

Definition LOCATION_INDICATOR_WORDS : list jsstring :=
  map chars
    [ "area"; "place"; "living"; "based"; "staying"; "work"; "working";
      "dito"; "rito"; "nasa"; "location"; "address"; "near"; "around";
      "taga"; "sa"; "based in"; "here in" ]%string.

Definition NEGATIVE_CONTEXT_PATTERNS : list regex :=
  [ (* /\bwalang?\s+(?:internet|signal|connection)/i *)
    Seqs [WordB; liti "walan"; Opt (liti "g"); ws_plus;
          litis ["internet"; "signal"; "connection"]];
    (* /\bno\s+(?:internet|connection|signal)/i *)
    Seqs [WordB; liti "no"; ws_plus; litis ["internet"; "connection"; "signal"]];
    (* /\b(?:wala|walang|hindi)\s+location/i *)
    Seqs [WordB; litis ["wala"; "walang"; "hindi"]; ws_plus; liti "location"];
    (* /\b(?:issue|problem)\s+(?:dito|rito)/i *)
    Seqs [WordB; litis ["issue"; "problem"]; ws_plus; litis ["dito"; "rito"]] ]%string.

Definition hasExplicitLocationDeclaration (text : jsstring) : bool :=
  existsb (fun pattern => test pattern text) EXPLICIT_LOCATION_PATTERNS.

Definition hasImplicitLocationPattern (text : jsstring) : bool :=
  existsb (fun pattern => test pattern text) IMPLICIT_LOCATION_PATTERNS.

Definition hasStrongLocationIndicators (text : jsstring) : bool :=
  if negb (Str.truthy text) then false else
  let lower := Str.toLowerCase text in
  existsb (fun word => Str.includes lower word) LOCATION_INDICATOR_WORDS.

(** The [options] argument: a missing property is falsy. *)
Record Options : Type := { hashtag : bool; ambiguous : bool; partial : bool }.

Definition no_options : Options :=
  {| hashtag := false; ambiguous := false; partial := false |}.

(** [typeBoosts[locationType] || 0]. *)
Definition typeBoost (locationType : string) : Z :=
  if String.eqb locationType "barangay" then 25
  else if String.eqb locationType "city" then 20
  else if String.eqb locationType "province" then 15
  else if String.eqb locationType "region" then 10
  else 0.

(** The score of [calculateConfidence] before the division by 100. *)
Definition confidenceScore (text : jsstring) (locationType : string)
           (hasValidContext : bool) (options : Options) : Z :=
  let score := 35%Z in
  let score := (score + typeBoost locationType)%Z in
  let score := if hasValidContext then (score + 15)%Z else score in
  let score := if hasExplicitLocationDeclaration text then (score + 25)%Z else score in
  let score := if hasImplicitLocationPattern text then (score + 15)%Z else score in
  let score := if hasStrongLocationIndicators text then (score + 10)%Z else score in
  let score := if hashtag options then (score + 20)%Z else score in
  let score := if ambiguous options then (score - 10)%Z else score in
  let score := if partial options then (score - 5)%Z else score in
  let score :=
    if existsb (fun pattern => test pattern text) NEGATIVE_CONTEXT_PATTERNS
    then (score - 25)%Z else score in
  Z.max 20 (Z.min 95 score).

(** An integer of the range of the scores as a number. *)
Definition number (n : Z) : float := PrimFloat.of_uint63 (Uint63.of_Z n).

Definition calculateConfidence (text : jsstring) (locationType : string)
           (hasValidContext : bool) (options : Options) : float :=
  (number (confidenceScore text locationType hasValidContext options) / 100)%float.

(* /[^\w\s,.\-]/g *)
Definition re_unmatched : regex :=
  Chr false (Not (Union Word (Union Space (Union (One ",") (Union (One ".") (One "-")))))).

Definition normalizeForMatching (text : jsstring) : jsstring :=
  let s := replace_all re_unmatched (chars " ") text in
  let s := replace_all ws_plus (chars " ") s in
  Str.trim s.

(* /[.*+?^${}()|[\]\\]/g *)
Definition re_syntax : regex :=
  Chr false
      (Union (One ".") (Union (One "*") (Union (One "+") (Union (One "?")
      (Union (One "^") (Union (One "$") (Union (One "{") (Union (One "}")
      (Union (One "(") (Union (One ")") (Union (One "|") (Union (One "[")
      (Union (One "]") (One "\")))))))))))))).

(** [escapeRegex(string)]: the replacement [\$&] is a backslash and the
    text of the match. *)
Definition escapeRegex (string : jsstring) : jsstring :=
  Cap.replace_all [re_syntax] (fun groups => "\"%char :: concat groups) string.

(** The body of [new RegExp(source)] for a source in which every character
    of pattern syntax follows a backslash, and then stands for itself, as
    every other character does; [None] for any other source, which this
    model does not parse. *)
Fixpoint escapedPattern (source : jsstring) : option regex :=
  match source with
  | [] => Some Eps
  | c :: rest =>
      if Ascii.eqb c "\" then
        match rest with
        | d :: rest' =>
            if Filter.syntax_char d
            then option_map (Seq (Chr false (One d))) (escapedPattern rest')
            else None
        | [] => None
        end
      else if Filter.syntax_char c then None
      else option_map (Seq (Chr false (One c))) (escapedPattern rest)
  end.

(** [hasWordBoundaryMatch(text, word)]; [None] is a pattern outside
    [escapedPattern]. *)
Definition hasWordBoundaryMatch (text word : jsstring) : option bool :=
  if negb (Str.truthy word) || (length word =? 0) then Some false else
  (* Normalize both for comparison *)
  let normalizedWord := Excel.normalize word in
  let normalizedText := Excel.normalize text in
  match escapedPattern (escapeRegex normalizedWord) with
  | None => None
  | Some body =>
      let patterns :=
        [ Seqs [WordB; body; WordB];               (* \b...\b *)
          Seqs [Bol; body; WordB];                 (* ^...\b *)
          Seqs [WordB; body; Eol];                 (* \b...$ *)
          Seqs [WordB; body; ws_star; lit ","];    (* \b...\s*, *)
          Seqs [lit ","; ws_star; body; WordB] ]   (* ,\s*...\b *) in
      Some (existsb (fun pattern => test pattern normalizedText) patterns)
  end.

End Matcher.

(** ** Patterns that the two parsers share *)

Module Patterns.

(** Character classes of the patterns.  Where a pattern is quoted, a space
    stands between a star and the closing parenthesis of a group. *)
Definition letter : cset := Union (Range "A" "Z") (Range "a" "z").       (* A-Za-z *)
Definition letter_or_space : cset := Union letter Space.                  (* A-Za-z\s *)
Definition capital : regex := Chr false (Range "A" "Z").                  (* [A-Z] *)

(* /^\d+$/ *)
Definition re_number : regex := Seqs [Bol; Plus true (Chr false Digit); Eol].

(** The text of a group: the part of that place in the list of the parts
    of a match. *)
Definition group (n : nat) (parts : list jsstring) : jsstring := nth n parts [].

(* /([a-z])([A-Z])/g, replaced by '$1 $2' *)
Definition re_camel : list regex := [Chr false (Range "a" "z"); capital].
Definition splitCamel (tag : jsstring) : jsstring :=
  Cap.replace_all re_camel (fun m => group 0 m ++ chars " " ++ group 1 m) tag.

(* /#([A-Za-z][A-Za-z0-9]* )/g: the parts are [#] and the tag *)
Definition re_hashtag : list regex :=
  [ lit "#";
    Seq (Chr false letter) (Star true (Chr false (Union letter (Range "0" "9")))) ].

(* \b(?:brgy|barangay)\.?\s+ *)
Definition brgy_prefix : regex :=
  Seqs [WordB; litis ["brgy"; "barangay"]; Opt (liti "."); ws_plus]%string.
(* \s*,\s* *)
Definition comma : regex := Seqs [ws_star; lit ","; ws_star].
(* [A-Z][a-zA-Z]+(?:\s+[A-Z][a-zA-Z]+)* *)
Definition capitalized_words : regex :=
  Seqs [ capital; Plus true (Chr false letter);
         Star true (Seqs [ws_plus; capital; Plus true (Chr false letter)]) ].

(* /\b([A-Z][a-zA-Z]+(?:\s+[A-Z][a-zA-Z]+)* )\s*,\s*([A-Z][a-zA-Z]+(?:\s+[A-Z][a-zA-Z]+)* )/g:
   groups 1 and 2 are the parts 1 and 3 *)
Definition commaPattern : list regex :=
  [ WordB; capitalized_words; comma; capitalized_words ].

End Patterns.

(** ** Parser V2, continued: from the text to the candidates *)

Module V2Parse.

Import Patterns.

Definition SERVICE_NAMES : list jsstring :=
  map chars
    [ "globe"; "smart"; "pldt"; "converge"; "dito"; "sky"; "gomo";
      "fibr"; "fiber"; "dsl"; "broadband"; "wifi"; "internet";
      "globeathome"; "skyfiber"; "smartbro"; "los"; "red" ]%string.

Definition STOPWORDS : list jsstring :=
  map chars
    [ "january"; "february"; "march"; "april"; "may"; "june";
      "july"; "august"; "september"; "october"; "november"; "december";
      "jan"; "feb"; "mar"; "apr"; "jun"; "jul"; "aug"; "sep"; "sept"; "oct"; "nov"; "dec";
      "monday"; "tuesday"; "wednesday"; "thursday"; "friday"; "saturday"; "sunday";
      "today"; "yesterday"; "tomorrow"; "kahapon"; "bukas"; "ngayon";
      "6am"; "10am"; "11";
      "same"; "just"; "wala"; "down"; "here"; "there";
      "every"; "sarado"; "may"; "apparently"; "pare";
      "problem"; "issue"; "service"; "happening"; "frustrating";
      "installed"; "light"; "blinking"; "outage" ]%string.

Definition isStopword (word : jsstring) : bool :=
  if negb (Str.truthy word) then true else
  let lower := Str.toLowerCase word in
  Str.mem lower STOPWORDS || Str.mem lower SERVICE_NAMES || test re_number word.

(* /[,\s]+/ *)
Definition re_separators : regex := Plus true (Chr false (Union (One ",") Space)).

(** [parseCandidateString(candidates, str)]: the candidates after the call. *)
Definition parseCandidateString (candidates : list V2.Candidate) (str : jsstring)
  : list V2.Candidate :=
  if negb (Str.truthy str) then candidates else
  let parts := filter (fun p => 2 <? length p) (Cap.split re_separators str) in
  fold_left (fun candidates part =>
               if negb (isStopword part) then candidates ++ [V2.Location part]
               else candidates)
            parts candidates.

(* /\b(hehe|haha|lol)\b/gi *)
Definition re_noise : regex := Seqs [WordB; litis ["hehe"; "haha"; "lol"]; WordB]%string.
(* /^(North|South|East|West)\s+/i *)
Definition re_direction : regex :=
  Seqs [Bol; litis ["North"; "South"; "East"; "West"]; ws_plus]%string.

Definition abbreviations : obj jsstring :=
  map (fun p => (chars (fst p), chars (snd p)))
    [ ("gen trias", "General Trias"); ("qc", "Quezon City");
      ("bgc", "Taguig"); ("montalban", "Rodriguez") ]%string.

Definition cleanCityName (cityName : jsstring) : jsstring :=
  if negb (Str.truthy cityName) then [] else
  let cleaned := Str.trim cityName in
  (* Remove slang/noise *)
  let cleaned := Str.trim (replace_all re_noise [] cleaned) in
  (* Handle directional prefixes *)
  let cleaned := replace re_direction [] cleaned in
  (* Expand common abbreviations *)
  let lower := Str.toLowerCase cleaned in
  match Obj.get lower abbreviations with
  | Some full => full
  | None => cleaned
  end.

Definition preprocessText (text : jsstring) : jsstring :=
  let processed := text in
  (* Handle hashtags *)
  let processed :=
    Cap.replace_all re_hashtag (fun m => chars " " ++ splitCamel (group 1 m)) processed in
  (* Normalize common abbreviations *)
  let processed :=
    replace_all (Seqs [WordB; liti "QC"; WordB]) (chars "Quezon City") processed in
  let processed :=
    replace_all (Seqs [WordB; liti "BGC"; WordB]) (chars "Taguig") processed in
  let processed :=
    replace_all (Seqs [WordB; liti "Gensan"; WordB]) (chars "General Santos") processed in
  let processed :=
    replace_all (Seqs [WordB; liti "CDO"; WordB]) (chars "Cagayan de Oro") processed in
  let processed :=
    replace_all (Seqs [WordB; liti "Gen"; ws_plus; liti "Trias"; WordB])
                (chars "General Trias") processed in
  processed.

(** The patterns of [extractCandidates], each as the list of its parts; the
    groups of the source are parts of their own. *)

(* /\blocation\s*(?:is|=|:)\s*([^.,]+)/gi: group 1 is part 1 *)
Definition locationPattern : list regex :=
  [ Seqs [WordB; liti "location"; ws_star; litis ["is"; "="; ":"]; ws_star];
    Plus true (Chr true (Not (Union (One ".") (One ",")))) ]%string.

(* ([A-Za-z][A-Za-z\s]*?) under i *)
Definition name_lazy : regex := Seq (Chr true letter) (Star false (Chr true letter_or_space)).

(** Groups 1 and 2 are the parts 1 and 3. *)
Definition barangayPatterns : list (list regex) :=
  [ (* /\b(?:brgy|barangay)\.?\s+(\d+)\s*,\s*([^.]+?)(?:\.|$)/gi *)
    [ brgy_prefix; Plus true (Chr true Digit); comma;
      Plus false (Chr true (Not (One "."))); Alt (liti ".") Eol ];
    (* /\b(?:brgy|barangay)\.?\s+([A-Za-z][A-Za-z\s]*?)\s+([A-Za-z][A-Za-z\s]+?)(?:\.|,|$)/gi *)
    [ brgy_prefix; name_lazy; ws_plus;
      Seq (Chr true letter) (Plus false (Chr true letter_or_space));
      Alts [liti "."; liti ","; Eol] ];
    (* /\b(?:brgy|barangay)\.?\s+([A-Za-z][A-Za-z\s]*?)\s*,\s*([^.]+?)(?:\.|$)/gi *)
    [ brgy_prefix; name_lazy; comma;
      Plus false (Chr true (Not (One "."))); Alt (liti ".") Eol ] ]%string.

(* /^(?:brgy|barangay)/i *)
Definition re_brgy_start : regex := Seqs [Bol; litis ["brgy"; "barangay"]]%string.

(* /\b([A-Za-z][\w\s-]+?)\s+area\b/gi: group 1 is part 1 *)
Definition areaPattern : list regex :=
  [ WordB;
    Seq (Chr true letter) (Plus false (Chr true (Union Word (Union Space (One "-")))));
    Seqs [ws_plus; liti "area"; WordB] ]%string.

(* ([a-zA-Z\s]+?) *)
Definition words_lazy (ci : bool) : regex := Plus false (Chr ci letter_or_space).

(** Group 1 is part 1. *)
Definition contextPatterns : list (list regex) :=
  [ (* /\b(?:from|in|at)\s+([A-Z][a-zA-Z\s]+?)(?:\.|,|area|$)/g *)
    [ Seqs [WordB; lits ["from"; "in"; "at"]; ws_plus];
      Seq capital (words_lazy false);
      Alts [lit "."; lit ","; lit "area"; Eol] ];
    (* /\b(?:taga|nasa|sa)\s+([a-zA-Z\s]+?)(?:\.|,|area|$)/gi *)
    [ Seqs [WordB; litis ["taga"; "nasa"; "sa"]; ws_plus];
      words_lazy true;
      Alts [liti "."; liti ","; liti "area"; Eol] ];
    (* /\b(?:dito|rito)\s+(?:sa\s+)?([a-zA-Z\s]+?)(?:\.|,|area|$)/gi *)
    [ Seqs [WordB; litis ["dito"; "rito"]; ws_plus; Opt (Seqs [liti "sa"; ws_plus])];
      words_lazy true;
      Alts [liti "."; liti ","; liti "area"; Eol] ];
    (* /\b(?:here\s+in)\s+([a-zA-Z\s]+?)(?:\.|,|area|$)/gi *)
    [ Seqs [WordB; liti "here"; ws_plus; liti "in"; ws_plus];
      words_lazy true;
      Alts [liti "."; liti ","; liti "area"; Eol] ];
    (* /sa\s+area\s+namin\s+sa\s+([a-zA-Z\s]+?)(?:\.|,|$)/gi *)
    [ Seqs [liti "sa"; ws_plus; liti "area"; ws_plus; liti "namin"; ws_plus;
            liti "sa"; ws_plus];
      words_lazy true;
      Alts [liti "."; liti ","; Eol] ] ]%string.

(* /\b([a-z]+)\s+([a-z]+)\s+([a-z]+)\b/gi: the groups are the parts 1, 3 and 5 *)
Definition word_i : regex := Plus true (Chr true (Range "a" "z")).
Definition sequencePattern : list regex :=
  [ WordB; word_i; ws_plus; word_i; ws_plus; word_i; WordB ].

(* /([^,]+?)\s*,?\s*PHILIPPINES/i: group 1 is part 0 *)
Definition beforePhilippines : list regex :=
  [ Plus false (Chr true (Not (One ",")));
    Seqs [ws_star; Opt (liti ","); ws_star; liti "PHILIPPINES"] ]%string.

(** The body of the loop over the matches of a barangay pattern. *)
Definition addBarangayMatch (candidates : list V2.Candidate) (m : list jsstring)
  : list V2.Candidate :=
  let candidates :=
    if Str.truthy (group 1 m) then
      let barangayName :=
        if test re_number (group 1 m) then chars "Barangay " ++ group 1 m
        else group 1 m in
      candidates ++
        [V2.Barangay barangayName
                     (if Str.truthy (group 3 m) then Some (Str.trim (group 3 m)) else None)]
    else candidates in
  if Str.truthy (group 3 m)
  then candidates ++ [V2.City (cleanCityName (group 3 m))]
  else candidates.

Definition extractCandidates (text : jsstring) : list V2.Candidate :=
  let candidates := [] in
  let processed := preprocessText text in
  (* Pattern 1: Explicit location declaration *)
  let candidates :=
    fold_left (fun candidates m => parseCandidateString candidates (group 1 m))
              (Cap.exec_all locationPattern text) candidates in
  (* Pattern 2: Barangay + City combinations *)
  let candidates :=
    fold_left (fun candidates pattern =>
                 fold_left addBarangayMatch (Cap.exec_all pattern text) candidates)
              barangayPatterns candidates in
  (* Pattern 3: Comma-separated locations (City, Province) *)
  let candidates :=
    fold_left (fun candidates m =>
                 if negb (test re_brgy_start (group 1 m))
                 then candidates ++ [V2.Location (Str.trim (group 1 m));
                                     V2.Location (Str.trim (group 3 m))]
                 else candidates)
              (Cap.exec_all commaPattern text) candidates in
  (* Pattern 4: Area references *)
  let candidates :=
    fold_left (fun candidates m =>
                 let name := Str.trim (group 1 m) in
                 if negb (isStopword name) then candidates ++ [V2.Area name]
                 else candidates)
              (Cap.exec_all areaPattern text) candidates in
  (* Pattern 5: After location indicators *)
  let candidates :=
    fold_left (fun candidates pattern =>
                 fold_left (fun candidates m =>
                              candidates ++ [V2.Location (Str.trim (group 1 m))])
                           (Cap.exec_all pattern processed) candidates)
              contextPatterns candidates in
  (* Pattern 6: Space-separated location sequences *)
  let candidates :=
    fold_left (fun candidates m =>
                 let words := [group 1 m; group 3 m; group 5 m] in
                 if forallb (fun w => negb (isStopword w) && negb (Str.mem w SERVICE_NAMES))
                            words
                 then candidates ++ [V2.Sequence (group 1 m) (group 3 m) (group 5 m)]
                 else candidates)
              (Cap.exec_all sequencePattern (Str.toLowerCase text)) candidates in
  (* Pattern 7: Philippines marker *)
  if test V2.re_philippines text then
    match Cap.exec beforePhilippines text with
    | Some m => parseCandidateString candidates (group 0 m)
    | None => candidates
    end
  else candidates.

(** [parseLocation(text)] for a string [text]. *)
Definition parseLocation (idx : Index) (text : jsstring) : option LocationMatch :=
  if negb (Str.truthy text) then None else
  let confidence := V2.calculateConfidence text in
  let candidates := extractCandidates text in
  if length candidates =? 0 then None
  else V2.findBestMatch idx candidates text confidence.

End V2Parse.

(** ** Parser V1, continued: from the text to the candidates *)

Module V1Parse.

Import Patterns.

Definition requireLocationContext : bool := true.

(** [addCandidate(candidates, text)]: the set after the call, in the order
    of insertion. *)
Definition addCandidate (candidates : SSet.t) (text : jsstring) : SSet.t :=
  if negb (Str.truthy text) then candidates else
  let cleaned := Str.trim text in
  (* Skip if too short *)
  if length cleaned <? 3 then candidates else
  (* Skip if it's a service name *)
  let lower := Str.toLowerCase cleaned in
  if Str.mem lower V1.SERVICE_NAMES then candidates else
  (* Skip if it's a stopword *)
  if Str.mem lower V1.STOPWORDS then candidates else
  (* Skip if it's just numbers *)
  if test re_number cleaned then candidates else
  SSet.add cleaned candidates.

Definition preprocessText (text : jsstring) : jsstring :=
  let processed := text in
  (* Handle hashtags *)
  let processed :=
    Cap.replace_all re_hashtag
      (fun m =>
         let tag := group 1 m in
         if Str.includes tag (chars "Alter")
         then replace_all (lit "Alter") (chars " ") tag
         else chars " " ++ splitCamel tag)
      processed in
  (* Normalize common abbreviations *)
  let processed :=
    replace_all (Seqs [WordB; liti "QC"; WordB]) (chars "Quezon City") processed in
  let processed :=
    replace_all (Seqs [WordB; liti "BGC"; WordB]) (chars "Taguig") processed in
  let processed :=
    replace_all (Seqs [WordB; liti "Gensan"; WordB]) (chars "General Santos") processed in
  let processed :=
    replace_all (Seqs [WordB; liti "CDO"; WordB]) (chars "Cagayan de Oro") processed in
  processed.

(* /\blocation\s*(?:is|=|:)\s*([a-zA-Z\s,]+)/gi: group 1 is part 1 *)
Definition locationPattern : list regex :=
  [ Seqs [WordB; liti "location"; ws_star; litis ["is"; "="; ":"]; ws_star];
    Plus true (Chr true (Union letter_or_space (One ","))) ]%string.

(* ([a-zA-Z\s]+?) *)
Definition words_lazy (ci : bool) : regex := Plus false (Chr ci letter_or_space).

(** Group 1 is part 1. *)
Definition contextPatterns : list (list regex) :=
  [ (* /\b(?:from|in|at)\s+([A-Z][a-zA-Z\s]+?)(?:\.|,|$)/g *)
    [ Seqs [WordB; lits ["from"; "in"; "at"]; ws_plus];
      Seq capital (words_lazy false);
      Alts [lit "."; lit ","; Eol] ];
    (* /\b(?:taga|nasa|sa)\s+([a-zA-Z\s]+?)(?:\.|,|$)/gi *)
    [ Seqs [WordB; litis ["taga"; "nasa"; "sa"]; ws_plus];
      words_lazy true;
      Alts [liti "."; liti ","; Eol] ];
    (* /\b(?:dito|rito)\s+(?:sa\s+)?([a-zA-Z\s]+?)(?:\.|,|$)/gi *)
    [ Seqs [WordB; litis ["dito"; "rito"]; ws_plus; Opt (Seqs [liti "sa"; ws_plus])];
      words_lazy true;
      Alts [liti "."; liti ","; Eol] ];
    (* /\b(?:here\s+in)\s+([a-zA-Z\s]+?)(?:\.|,|$)/gi *)
    [ Seqs [WordB; liti "here"; ws_plus; liti "in"; ws_plus];
      words_lazy true;
      Alts [liti "."; liti ","; Eol] ] ]%string.

(** The barangay patterns end with an optional group that holds group 2,
    [(?:\s*,\s*([a-zA-Z\s]+))?].  Nothing follows it, so the parts before
    it match as if it were absent, and it is then tried where they end: it
    is kept apart as [cityTail], whose part 1 is group 2.  In the parts
    before it, group 1 is part 1. *)
Definition cityTail : list regex := [ comma; Plus true (Chr true letter_or_space) ].

Definition barangayPatterns : list (list regex) :=
  [ (* /\b(?:brgy|barangay)\.?\s*(\d+)(?:\s*,\s*([a-zA-Z\s]+))?/gi *)
    [ Seqs [WordB; litis ["brgy"; "barangay"]; Opt (liti "."); ws_star];
      Plus true (Chr true Digit) ];
    (* /\b(?:brgy|barangay)\.?\s+([a-zA-Z\s]+?)(?:\s*,\s*([a-zA-Z\s]+))?/gi *)
    [ brgy_prefix; words_lazy true ] ]%string.

(** The loop [while ((match = regex.exec(text)) !== null)] for a barangay
    pattern: the texts of the parts before the optional group, and the
    texts of the parts of the group where it matches. *)
Fixpoint execBarangay (fuel : nat) (rs : list regex) (seen ahead : jsstring)
  : list (list jsstring * option (list jsstring)) :=
  match fuel with
  | 0 => []
  | S fuel' =>
      match Cap.search rs seen ahead with
      | None => []
      | Some (b, l) =>
          let e := Cap.end_of b l in
          let (tail, e') :=
            match Cap.match_parts cityTail e with
            | Some l' => (Some (Cap.texts e l'), Cap.end_of e l')
            | None => (None, e)
            end in
          if length (Re.ahead e') <? length (Re.ahead b)
          then (Cap.texts b l, tail) :: execBarangay fuel' rs (Re.seen e') (Re.ahead e')
          else [(Cap.texts b l, tail)]
      end
  end.

(* /\bhehe\b/gi *)
Definition re_hehe : regex := Seqs [WordB; liti "hehe"; WordB]%string.
(* /^(North|South|East|West)\s+/i *)
Definition re_direction : regex :=
  Seqs [Bol; litis ["North"; "South"; "East"; "West"]; ws_plus]%string.

(** The body of the loop over the matches of a barangay pattern. *)
Definition addBarangayMatch (candidates : SSet.t)
           (m : list jsstring * option (list jsstring)) : SSet.t :=
  let match1 := group 1 (fst m) in
  let candidates :=
    if Str.truthy match1 then
      let barangayName :=
        if test re_number match1 then chars "Barangay " ++ match1 else match1 in
      addCandidate candidates barangayName
    else candidates in
  match snd m with
  | Some tail =>
      let match2 := group 1 tail in
      if Str.truthy match2 then
        (* Clean up the city name *)
        let cityName := Str.trim (replace_all re_hehe [] match2) in
        if Str.truthy cityName then
          let cleanCity := replace re_direction [] cityName in
          let candidates := addCandidate candidates cleanCity in
          if negb (Str.eqb cleanCity cityName)
          then addCandidate candidates cityName      (* Also add full name *)
          else candidates
        else candidates
      else candidates
  | None => candidates
  end.

(* /\b([A-Z][a-zA-Z\s]+?)\s+(?:area|province|city)/gi: group 1 is part 1 *)
Definition areaPattern : list regex :=
  [ WordB;
    Seq (Chr true (Range "A" "Z")) (words_lazy true);
    Seqs [ws_plus; litis ["area"; "province"; "city"]] ]%string.

(* /\b([A-Z][a-zA-Z]+(?:\s+[A-Z][a-zA-Z]+)*\s+City)\b/g: group 1 is part 1 *)
Definition cityPattern : list regex :=
  [ WordB; Seqs [capitalized_words; ws_plus; lit "City"]; WordB ].

(* /\bcity\b/i *)
Definition re_city_word : regex := Seqs [WordB; liti "city"; WordB]%string.

Definition extractCandidates (text : jsstring) : list jsstring :=
  let candidates : SSet.t := [] in
  let processed := preprocessText text in
  (* Pattern 1: Explicit location declaration *)
  let candidates :=
    fold_left (fun candidates m => addCandidate candidates (group 1 m))
              (Cap.exec_all locationPattern processed) candidates in
  (* Pattern 2: After location indicators (from, in, at, etc.) *)
  let candidates :=
    fold_left (fun candidates pattern =>
                 fold_left (fun candidates m => addCandidate candidates (group 1 m))
                           (Cap.exec_all pattern processed) candidates)
              contextPatterns candidates in
  (* Pattern 3: Barangay patterns *)
  let candidates :=
    fold_left (fun candidates pattern =>
                 fold_left addBarangayMatch
                           (execBarangay (S (length text)) pattern [] text) candidates)
              barangayPatterns candidates in
  (* Pattern 4: City/Province with area or province *)
  let candidates :=
    fold_left (fun candidates m =>
                 let candidates := addCandidate candidates (group 1 m) in
                 if negb (Str.includes (Str.toLowerCase (group 1 m)) (chars "city"))
                 then addCandidate candidates (group 1 m ++ chars " City")
                 else candidates)
              (Cap.exec_all areaPattern processed) candidates in
  (* Pattern 5: Comma-separated locations (City, Province) *)
  let candidates :=
    fold_left (fun candidates m =>
                 let candidates := addCandidate candidates (group 1 m) in
                 let candidates := addCandidate candidates (group 3 m) in
                 if Str.includes (Str.toLowerCase (group 1 m)) (chars "city") &&
                    negb (Str.endsWith (group 1 m) (chars "City"))
                 then addCandidate candidates
                                   (replace re_city_word (chars "City") (group 1 m))
                 else candidates)
              (Cap.exec_all commaPattern text) candidates in
  (* Pattern 6: Standalone city names with "City" suffix *)
  fold_left (fun candidates m => addCandidate candidates (group 1 m))
            (Cap.exec_all cityPattern text) candidates.

(** [parseLocation(text)] for a string [text]. *)
Definition parseLocation (idx : Index) (text : jsstring) : option LocationMatch :=
  if negb (Str.truthy text) then None else
  if requireLocationContext && negb (V1.hasLocationContext text) then None else
  let candidates := extractCandidates text in
  if length candidates =? 0 then None
  else V1.findBestMatch idx candidates text.

End V1Parse.

(** ** Candidates from a hashtag (enhanced-location-matcher.js) *)

Module Hashtag.

Import Patterns.






End Hashtag.

(** * Vocabulary of the properties *)

(** ** Lookups and sample entries *)

(** [m] is the first element of [l] that satisfies [P]. *)
Definition first_such {A : Type} (P : A -> bool) (l : list A) (m : A) : Prop :=
  exists l1 l2, l = l1 ++ m :: l2 /\ P m = true /\ forallb (fun x => negb (P x)) l1 = true.



(** ** Context tests of the scorer *)



(** ** Results and the gazetteer *)

(** A result built from an entry of one of the three index tables. *)
Inductive from_index (idx : Index) : LocationMatch -> Prop :=
| from_barangay key l m :
    Obj.get key (barangayIndex idx) = Some l -> In m l ->
    from_index idx (OfEntry m)
| from_city key l c :
    Obj.get key (cityIndex idx) = Some l -> In c l ->
    from_index idx (Literal (c_region c) (c_province c) (c_city c) [])
| from_province key p :
    Obj.get key (provinceIndex idx) = Some p ->
    from_index idx (Literal (p_region p) (p_province p) [] []).

(** The dataset has the city [city] under the province [province]. *)
Definition in_gazetteer (data : Dataset) (province city : jsstring) : Prop :=
  exists code rd municipalities barangays,
    In (code, rd) data /\
    In (province, municipalities) (provinces rd) /\
    In (city, barangays) municipalities.

(** Every entry stored in the index names a city of the dataset under its
    province. *)
Definition barangays_ok (data : Dataset) (o : obj (list BarangayEntry)) : Prop :=
  Forall (fun kv => Forall (fun m => in_gazetteer data (b_province m) (b_city m)) (snd kv)) o.

Definition cities_ok (data : Dataset) (o : obj (list CityEntry)) : Prop :=
  Forall (fun kv => Forall (fun c => in_gazetteer data (c_province c) (c_city c)) (snd kv)) o.

Definition index_ok (data : Dataset) (idx : Index) : Prop :=
  barangays_ok data (barangayIndex idx) /\ cities_ok data (cityIndex idx).

(** ** What a pattern can match *)

(** [Den r c c']: the pattern [r] can match from position [c] to position [c']. *)
Inductive Den : regex -> cursor -> cursor -> Prop :=
| DEps c : Den Eps c c
| DChr ci s x sn rest :
    mem ci s x = true ->
    Den (Chr ci s) (Cursor sn (x :: rest)) (Cursor (x :: sn) rest)
| DSeq r1 r2 c c1 c2 : Den r1 c c1 -> Den r2 c1 c2 -> Den (Seq r1 r2) c c2
| DAltL r1 r2 c c' : Den r1 c c' -> Den (Alt r1 r2) c c'
| DAltR r1 r2 c c' : Den r2 c c' -> Den (Alt r1 r2) c c'
| DStar0 g r c : Den (Star g r) c c
| DStarS g r c c1 c2 :
    Den r c c1 -> length (ahead c1) < length (ahead c) ->
    Den (Star g r) c1 c2 -> Den (Star g r) c c2
| DBol c : seen c = [] -> Den Bol c c
| DEol c : ahead c = [] -> Den Eol c c
| DWordB c : at_word_boundary c = true -> Den WordB c c.

(** All characters, for facts settled by enumeration. *)
Definition all_ascii : list ascii := map ascii_of_nat (seq 0 256).

(** [x] is the literal [p] as the matcher compares characters. *)
Definition ci_match (ci : bool) (p x : jsstring) : Prop :=
  Forall2 (fun a y => mem ci (One a) y = true) p x.

(** [w] begins (ends) with one of the words of [l], in any letter case. *)
Definition starts_ci (l : list string) (w : jsstring) : Prop :=
  exists p x rest, In p l /\ w = x ++ rest /\ ci_match true (chars p) x.

Definition ends_ci (l : list string) (w : jsstring) : Prop :=
  exists p x pre, In p l /\ w = pre ++ x /\ ci_match true (chars p) x.

(** Affixes made of lower-case letters, none empty. *)
Definition affixes_ok (l : list string) : bool :=
  forallb (fun p => Str.truthy (chars p) && forallb Char.is_lower (chars p)) l.

(** The affixes of the first and third verb patterns. *)
Definition verb_prefixes : list string :=
  ["nag"; "mag"; "um"; "in"; "na"; "ma"; "i"; "ipa"; "pag"; "pang"; "ka"]%string.
Definition verb_suffixes : list string := ["in"; "an"; "han"]%string.

(** ** Tokens *)

(** The characters of [c] and [m] agree up to letter case. *)
Definition same_letters (c m : jsstring) : Prop :=
  map Char.upper c = map Char.upper m.

(** The text before (after) an occurrence ends (begins) with a boundary
    character, or is empty. *)
Definition left_bounded (pre : jsstring) : Prop :=
  match rev pre with
  | [] => True
  | y :: _ => Filter.boundary_char y = true
  end.

Definition right_bounded (post : jsstring) : Prop :=
  match post with
  | [] => True
  | y :: _ => Filter.boundary_char y = true
  end.

(** [c] occurs in [t], up to letter case, as a token with a boundary
    character or a string edge on each side. *)
Definition occurs_as_token (c t : jsstring) : Prop :=
  exists pre m post,
    t = pre ++ m ++ post /\ same_letters c m /\ left_bounded pre /\ right_bounded post.

(** ** Normal form of keys *)

(** The leading run of white space, and what follows it. *)
Fixpoint take_ws (s : jsstring) : jsstring :=
  match s with
  | c :: s' => if Char.is_space c then c :: take_ws s' else []
  | [] => []
  end.

Fixpoint drop_ws (s : jsstring) : jsstring :=
  match s with
  | c :: s' => if Char.is_space c then drop_ws s' else s
  | [] => []
  end.

(** Every run of white space becomes one space; [in_run] tells that the
    previous character was white space. *)
Fixpoint collapse (in_run : bool) (s : jsstring) : jsstring :=
  match s with
  | [] => []
  | c :: s' =>
      if Char.is_space c
      then (if in_run then collapse true s' else " "%char :: collapse true s')
      else c :: collapse false s'
  end.

(** The characters [a-z0-9]. *)
Definition keyletter (c : ascii) : bool := Char.is_lower c || Char.is_digit c.

(** Letters, digits and single spaces; [after_space] forbids a space next. *)
Fixpoint spaced_ok (after_space : bool) (s : jsstring) : bool :=
  match s with
  | [] => true
  | c :: s' =>
      if Ascii.eqb c " " then negb after_space && spaced_ok true s'
      else keyletter c && spaced_ok false s'
  end.

(** A key in normal form: words of [a-z0-9] separated by single spaces. *)
Definition clean (k : jsstring) : Prop :=
  spaced_ok true k = true /\ Str.trimEnd k = k.

(** The class [[^a-z0-9\s]]. *)
Definition special (c : ascii) : bool :=
  mem false (Not (Union (Range "a" "z") (Union (Range "0" "9") Space))) c.

(** Every character is a space or in [a-z0-9]. *)
Definition key_chars (k : jsstring) : Prop :=
  forall c, In c k -> c = " "%char \/ keyletter c = true.

(** ** Locations as the formatter reads them *)

(** The four fields of a resolver result. *)
Definition fieldsOf (r : LocationMatch) : LocationFields :=
  {| region := lm_region r; province := lm_province r;
     city := lm_city r; barangay := lm_barangay r |}.

(** ** Sheets *)

(** A column name: upper-case letters, at most eleven. *)
Definition column_name (s : jsstring) : Prop :=
  Forall (fun c => Char.is_upper c = true) s /\ length s <= 11.

Definition is_dquote (c : ascii) : bool := Ascii.eqb c Text.dquote.

(** The text begins and ends with a double quote. *)
Definition quoted_at_both_ends (t : jsstring) : bool :=
  Str.startsWith t [Text.dquote] && Str.endsWith t [Text.dquote].

(** A cell of a row of the CSV export: written as it is (the row number),
    or between double quotes (the text and the location). *)
Inductive Cell : Type :=
| Bare (t : jsstring)
| Quoted (t : jsstring).

Definition written (c : Cell) : jsstring :=
  match c with
  | Bare t => t
  | Quoted t => Sheet.quoteCell t
  end.

Definition content (c : Cell) : jsstring :=
  match c with Bare t | Quoted t => t end.

(** A bare cell holds no comma and no double quote; a quoted cell does not
    both begin and end with a double quote. *)
Definition readable (c : Cell) : Prop :=
  match c with
  | Bare t => forallb (fun x => negb (is_dquote x) && negb (Ascii.eqb x ",")) t = true
  | Quoted t => quoted_at_both_ends t = false
  end.

(** The text of a cell with its double quotes doubled. *)
Definition doubled (t : jsstring) : jsstring :=
  flat_map (fun c => if is_dquote c then [Text.dquote; Text.dquote] else [c]) t.

(** What the scan of [parseCSVLine] reads from a quoted cell, before the
    surrounding quotes are removed. *)
Definition scanned (t : jsstring) : jsstring :=
  if forallb is_dquote t then t ++ [Text.dquote] else t.

Definition scanned_cell (c : Cell) : jsstring :=
  match c with Bare t => t | Quoted t => scanned t end.

(** What can follow a cell: the end of the line or a comma. *)
Definition field_end (tail : jsstring) : Prop :=
  tail = [] \/ exists tail', tail = ","%char :: tail'.

(** ** Matches part by part *)

(** The text [x] lies between the positions [c] and [c']. *)
Definition consumes (c : cursor) (x : jsstring) (c' : cursor) : Prop :=
  ahead c = x ++ ahead c' /\ seen c' = rev x ++ seen c.

(** The parts [rs] match one after the other from [c], ending at the
    positions [ends]. *)
Inductive DenParts : list regex -> cursor -> list cursor -> Prop :=
| DP_nil c : DenParts [] c []
| DP_cons r rs c c1 ends :
    Den r c c1 -> DenParts rs c1 ends -> DenParts (r :: rs) c (c1 :: ends).

(** The column letters and the row digits of a range such as [B2:B100], of
    a size for which the arithmetic of the source is exact. *)
Definition letters (s : jsstring) : Prop :=
  s <> [] /\ forallb Char.is_alpha s = true /\ length s <= 11.

Definition digit_string (s : jsstring) : Prop :=
  s <> [] /\ forallb Char.is_digit s = true /\ length s <= 15.

(** The class [P] stops at the text [rest]: [rest] is empty or begins with a
    character outside [P]. *)
Definition stops (P : ascii -> bool) (rest : jsstring) : Prop :=
  match rest with [] => True | y :: _ => P y = false end.

Definition upperP : ascii -> bool := mem false (Range "A" "Z").
Definition digitP : ascii -> bool := mem false Digit.

(** ** The index and the dataset *)



(** The entry of the barangay index for a barangay of the dataset. *)
Definition barangay_entry (code : jsstring) (rd : RegionData)
           (provinceName cityName barangayName : jsstring) : BarangayEntry :=
  {| b_barangay := barangayName; b_city := cityName; b_province := provinceName;
     b_region := region_name rd; b_regionCode := code |}.

(** The dataset has the barangay [m], with its city, province and region. *)
Definition barangay_of (data : Dataset) (m : BarangayEntry) : Prop :=
  exists code rd municipalities barangays,
    In (code, rd) data /\
    In (b_province m, municipalities) (provinces rd) /\
    In (b_city m, barangays) municipalities /\
    In (b_barangay m) barangays /\
    b_region m = region_name rd /\ b_regionCode m = code.

(** The entries stored under a key of the barangay index. *)
Definition barangays_at (idx : Index) (key : jsstring) : list BarangayEntry :=
  or_empty (Obj.get key (barangayIndex idx)).



(** The barangay table built from a dataset: every list is non-empty, every
    entry is a barangay of the dataset stored under the key of its name, and
    the set of ambiguous keys holds the keys with two entries or more. *)
Definition barangay_table_ok (data : Dataset) (idx : Index) : Prop :=
  (forall k l, Obj.get k (barangayIndex idx) = Some l ->
     l <> [] /\
     Forall (fun m => normalizeKey (b_barangay m) = k /\ barangay_of data m) l) /\
  (forall k, SSet.has k (ambiguousBarangays idx) = true <->
             2 <= length (barangays_at idx k)).

(** The index stores the entry [e] under the key of its barangay name. *)
Definition has_barangay (idx : Index) (e : BarangayEntry) : Prop :=
  In e (barangays_at idx (normalizeKey (b_barangay e))).

(** The city table has a non-empty list under the key [k]. *)
Definition has_city_key (ci : obj (list CityEntry)) (k : jsstring) : Prop :=
  exists l, Obj.get k ci = Some l /\ l <> [].

Definition city_lists_ok (ci : obj (list CityEntry)) : Prop :=
  forall k l, Obj.get k ci = Some l -> l <> [].

(** ** Normal forms of texts *)

(** Characters of the class [P] and single spaces; [after_space] forbids a
    space next. *)
Fixpoint spaced (P : ascii -> bool) (after_space : bool) (s : jsstring) : bool :=
  match s with
  | [] => true
  | c :: s' =>
      if Ascii.eqb c " " then negb after_space && spaced P true s'
      else P c && spaced P false s'
  end.

(** Words of characters of [P] separated by single spaces, with no space at
    either end. *)
Definition tidy (P : ascii -> bool) (k : jsstring) : Prop :=
  spaced P true k = true /\ Str.trimEnd k = k.

(** The characters that [normalizeForMatching] keeps, white space apart:
    [\w], comma, full stop and hyphen. *)
Definition matching_char (c : ascii) : bool :=
  mem false (Union Word (Union (One ",") (Union (One ".") (One "-")))) c.

(** The characters that [normalize] keeps, white space apart: [A-Z0-9]. *)
Definition upper_alnum (c : ascii) : bool :=
  mem false (Union (Range "A" "Z") (Range "0" "9")) c.

(** ** Mentions and hashtags *)

(** No character [t] of the text is followed by a word character: the text
    holds no mention ([t] is [@]) or hashtag ([t] is [#]). *)
Fixpoint no_tag (t : ascii) (s : jsstring) : bool :=
  match s with
  | x :: s' =>
      match s' with
      | y :: _ => negb (Ascii.eqb x t && Char.is_word y) && no_tag t s'
      | [] => true
      end
  | [] => true
  end.

(** The pattern [t\w+] for a character [t]. *)
Definition tag_pattern (t : ascii) : regex := Seqs [Lit false [t]; Plus true wordc].

(** The leading run of characters of a class, and what follows it. *)
Fixpoint take_class (ci : bool) (cs : cset) (s : jsstring) : jsstring :=
  match s with
  | c :: s' => if mem ci cs c then c :: take_class ci cs s' else []
  | [] => []
  end.

Fixpoint drop_class (ci : bool) (cs : cset) (s : jsstring) : jsstring :=
  match s with
  | c :: s' => if mem ci cs c then drop_class ci cs s' else s
  | [] => []
  end.

(** [out] is [s] without some blocks, each of which ends where the word
    characters stop; a character [t] that is kept is not followed by a word
    character. *)
Inductive Stripped (t : ascii) : jsstring -> jsstring -> Prop :=
| St_nil : Stripped t [] []
| St_keep x s out :
    (x = t -> stops Char.is_word s) -> Stripped t s out ->
    Stripped t (x :: s) (x :: out)
| St_block B s out :
    stops Char.is_word s -> Stripped t s out -> Stripped t (B ++ s) out.

(** [out] is [s] without some blocks, each of which begins with a word
    character. *)
Inductive Cut : jsstring -> jsstring -> Prop :=
| Cut_nil : Cut [] []
| Cut_keep x s out : Cut s out -> Cut (x :: s) (x :: out)
| Cut_block b B s out : Char.is_word b = true -> Cut s out -> Cut (b :: B ++ s) out.

(** ** Cities of the dataset *)

(** The entries stored under a key of the city index. *)
Definition cities_at (idx : Index) (key : jsstring) : list CityEntry :=
  or_empty (Obj.get key (cityIndex idx)).

(** The names of the cities of a province whose key is [k]. *)
Definition cities_keyed (k : jsstring) (municipalities : municipality_list)
  : list jsstring :=
  filter (fun cityName => Str.eqb (normalizeKey cityName) k) (map fst municipalities).

(** The cities of the dataset whose name has the key [k], over all the
    provinces of all the regions. *)
Definition cities_with_key (data : Dataset) (k : jsstring) : list jsstring :=
  flat_map (fun region =>
              flat_map (fun province => cities_keyed k (snd province))
                       (provinces (snd region)))
           data.

(** The set of ambiguous cities holds the keys with two entries or more. *)
Definition ambiguous_cities_ok (idx : Index) : Prop :=
  forall k, SSet.has k (ambiguousCities idx) = true <-> 2 <= length (cities_at idx k).

(** ** Whole words of a normalized text *)

(** [w] lies in [t] between the start of [t] or a space, and a space or the
    end of [t]. *)
Definition whole_words (w t : jsstring) : Prop :=
  exists pre post,
    t = pre ++ w ++ post /\
    (pre = [] \/ exists p, pre = p ++ [" "%char]) /\
    (post = [] \/ exists q, post = " "%char :: q).

(** [escapeRegex] character by character. *)
Definition escaped (s : jsstring) : jsstring :=
  flat_map (fun c => if Filter.syntax_char c then ["\"%char; c] else [c]) s.

(** ** Candidates *)

(** A text that is not empty and has digits only: what [/^\d+$/] matches. *)
Definition is_number (s : jsstring) : bool := Str.truthy s && forallb Char.is_digit s.

(** What [addCandidate] lets into the set of the V1 parser: a trimmed text
    of three characters or more that is no service name, no stopword and no
    number. *)
Definition candidate_ok (c : jsstring) : Prop :=
  Str.trim c = c /\ 3 <= length c /\
  Str.mem (Str.toLowerCase c) V1.SERVICE_NAMES = false /\
  Str.mem (Str.toLowerCase c) V1.STOPWORDS = false /\
  is_number c = false.

Definition candidates_ok (candidates : list jsstring) : Prop :=
  NoDup candidates /\ Forall candidate_ok candidates.

(** A name that [parseCandidateString] makes a candidate of: three
    characters or more, none of them a comma or white space, and no
    stopword of the V2 parser. *)
Definition separator (c : ascii) : bool := mem false (Union (One ",") Space) c.

Definition name_ok (n : jsstring) : Prop :=
  3 <= length n /\ forallb (fun c => negb (separator c)) n = true /\
  V2Parse.isStopword n = false.


(** ** The cell range of a sheet *)

(** The range [U n : V m], and the ends of the seven parts of the cell-range
    pattern in it. *)
Definition cell_subject (U V n m : jsstring) : jsstring := U ++ n ++ chars ":" ++ V ++ m.

Definition cell_ends (U V n m : jsstring) : list cursor :=
  [ Cursor [] (cell_subject U V n m);
    Cursor (rev U) (n ++ chars ":" ++ V ++ m);
    Cursor (rev n ++ rev U) (chars ":" ++ V ++ m);
    Cursor (":"%char :: rev n ++ rev U) (V ++ m);
    Cursor (rev V ++ ":"%char :: rev n ++ rev U) m;
    Cursor (rev m ++ rev V ++ ":"%char :: rev n ++ rev U) [];
    Cursor (rev m ++ rev V ++ ":"%char :: rev n ++ rev U) [] ].

(** A value of a cell as [extractFromCSV] returns it. *)
Definition cell_value (v : jsstring) : Prop := v <> [] /\ Str.trim v = v.

(** The two properties of the city index together, as every step keeps them. *)
Definition city_table (k : jsstring) (ci : obj (list CityEntry)) : Prop :=
  city_lists_ok ci /\ has_city_key ci k.


(** Every match of [r] takes at least one character, and begins with a
    word character. *)
Definition word_led (r : regex) : Prop :=
  forall c c', Den r c c' ->
    exists x rest, ahead c = x :: rest /\ Char.is_word x = true /\
                   length (ahead c') < length (ahead c).

(** ** Words *)


(** ** The loop of the V2 parser *)




(** ** The barangay patterns of the V1 parser *)

(** The name that a match of the second barangay pattern gives to
    [addCandidate]. *)
Definition barangayName (m : list jsstring * option (list jsstring)) : jsstring :=
  if test Patterns.re_number (Patterns.group 1 (fst m))
  then chars "Barangay " ++ Patterns.group 1 (fst m)
  else Patterns.group 1 (fst m).

(** * Properties *)

Example replace_all_parentheticals :
  replace_all re_parenthetical [] (chars "a (b) (c) d") = chars "ad" /\
  replace_all re_parenthetical [] (chars "a (b (c) d) e") = chars "ad) e".
Proof. split; vm_compute; reflexivity. Qed.

Example word_boundary_search :
  match0 (Seqs [WordB; liti "area"; WordB]) (chars "Bareas, Makati AREA.")
    = Some (15, chars "AREA").
Proof. vm_compute. reflexivity. Qed.

Example lazy_and_greedy_star :
  match0 (Seqs [lit "<"; Star false (Chr false Dot); lit ">"]) (chars "a<b><c>")
    = Some (1, chars "<b>") /\
  match0 (Seqs [lit "<"; Star true (Chr false Dot); lit ">"]) (chars "a<b><c>")
    = Some (1, chars "<b><c>").
Proof. split; vm_compute; reflexivity. Qed.

Example normalizeKey_ex1 :
  normalizeKey (chars "Brgy. San Jose (Pob.) City") = chars "san josecity".
Proof. vm_compute. reflexivity. Qed.

Example normalizeKey_ex2 :
  normalizeKey (chars "  Las-Pinas   CITY") = chars "las pinas".
Proof. vm_compute. reflexivity. Qed.

Example normalizeKey_ex3 :
  normalizeKey (chars "brgy brgy x") = chars "brgy x" /\
  normalizeKey (chars "brgy x") = chars "x".
Proof. vm_compute. split; reflexivity. Qed.

Example normalizeKey_ex4 :
  normalizeKey (chars "RODRIGUEZ (MONTALBAN)") = chars "rodriguez" /\
  normalizeKey (chars "CITY OF MAKATI") = chars "city of makati" /\
  normalizeKey (chars "Quezon City") = chars "quezon".
Proof. vm_compute. repeat split; reflexivity. Qed.

Example validate_ex1 :
  Filter.validateLocationCandidate (chars "cebu") (chars "Taga Cebu ako")
  = Some (Filter.Valid (chars "Cebu")).
Proof. vm_compute. reflexivity. Qed.

Example validate_ex2 :
  Filter.validateLocationCandidate (chars "ceb") (chars "Taga Cebu ako")
  = Some (Filter.Invalid "Not a complete word").
Proof. vm_compute. reflexivity. Qed.

Example validate_ex3 :
  Filter.validateLocationCandidate (chars "c.bu") (chars "taga cebu")
  = Some (Filter.Valid (chars "cebu")).
Proof. vm_compute. reflexivity. Qed.

Example isFalsePositive_ex1 :
  Filter.isFalsePositive (chars "Makati") (chars "Location: Makati") = true.
Proof. vm_compute. reflexivity. Qed.

(** ** Lists and lookups *)

Lemma find_first_such {A : Type} (P : A -> bool) (l : list A) (m : A) :
  find P l = Some m <-> first_such P l m.
Proof.
  unfold first_such. induction l as [|x l IH]; simpl.
  - split; [discriminate|]. intros (l1 & l2 & E & _). destruct l1; discriminate.
  - destruct (P x) eqn:Px.
    + split.
      * intros [= <-]. exists [], l. auto.
      * intros (l1 & l2 & E & Pm & N). destruct l1 as [|y l1]; simpl in *.
        -- congruence.
        -- injection E as <- _. rewrite Px in N. discriminate.
    + rewrite IH. split.
      * intros (l1 & l2 & -> & Pm & N). exists (x :: l1), l2. simpl. rewrite Px. auto.
      * intros (l1 & l2 & E & Pm & N). destruct l1 as [|y l1]; simpl in *.
        -- injection E as <- _. congruence.
        -- injection E as <- ->. apply andb_true_iff in N as [_ N]. eauto.
Qed.

Lemma find_none_iff {A : Type} (P : A -> bool) (l : list A) :
  find P l = None <-> forallb (fun x => negb (P x)) l = true.
Proof.
  induction l as [|x l IH]; simpl; [tauto|].
  destruct (P x); simpl; [split; discriminate | exact IH].
Qed.

Lemma Str_eqb_eq (a b : jsstring) : Str.eqb a b = true <-> a = b.
Proof.
  revert b. induction a as [|x a IH]; intros [|y b]; simpl;
    try (split; [discriminate | congruence]); [tauto|].
  rewrite andb_true_iff, Ascii.eqb_eq, IH. split; [intros [-> ->] | intros [= -> ->]]; auto.
Qed.

Lemma Str_eqb_refl (a : jsstring) : Str.eqb a a = true.
Proof. now apply Str_eqb_eq. Qed.

Lemma Str_eqb_neq (a b : jsstring) : Str.eqb a b = false <-> a <> b.
Proof.
  rewrite <- Str_eqb_eq. destruct (Str.eqb a b); split; congruence.
Qed.

Lemma Obj_get_In {V : Type} (key : jsstring) (o : obj V) (v : V) :
  Obj.get key o = Some v -> In (key, v) o.
Proof.
  induction o as [|[k w] o IH]; simpl; [discriminate|].
  destruct (Str.eqb k key) eqn:E.
  - apply Str_eqb_eq in E. intros [= ->]. left. now subst.
  - auto.
Qed.

Lemma Obj_In_values {V : Type} (key : jsstring) (o : obj V) (v : V) :
  Obj.get key o = Some v -> In v (Obj.values o).
Proof.
  intros H. apply Obj_get_In in H. unfold Obj.values.
  change v with (snd (key, v)). now apply in_map.
Qed.

(** ** The dead [length] test of the resolvers *)

Lemma length_test_never_true {E : Type} (m : E) :
  length_is_1 (entry_length m) = false.
Proof. reflexivity. Qed.

(** C10.  In the V2 resolver a candidate of type 'area' never yields a
    barangay-level match: the test [barangayMatch.length === 1] is made on
    the entry (or null) that [findBarangay] returns and is never true, so the
    candidate resolves through [findCity] alone and every match it yields has
    an empty barangay field. *)
Theorem V2_area_candidate_resolves_by_city_only
        (idx : Index) (name fullText : jsstring) (confidence : float) :
  (match findBarangay idx name None None with
   | Some m => length_is_1 (entry_length m) = false
   | None => True
   end) /\
  V2.resolveCandidate idx (V2.Area name) =
    match findCity idx name None with
    | Some c => (Some (Literal (c_region c) (c_province c) (c_city c) []), 0.7%float)
    | None => (None, 0%float)
    end /\
  (match fst (V2.resolveCandidate idx (V2.Area name)) with
   | Some r => lm_barangay r = []
   | None => True
   end) /\
  (match V2.findBestMatch idx [V2.Area name] fullText confidence with
   | Some r => lm_barangay r = []
   | None => True
   end).
Proof.
  assert (E : V2.resolveCandidate idx (V2.Area name) =
              match findCity idx name None with
              | Some c => (Some (ofCity c), 0.7%float)
              | None => (None, 0%float)
              end).
  { unfold V2.resolveCandidate.
    destruct (findBarangay idx name None None) as [m|]; [|reflexivity].
    rewrite length_test_never_true. reflexivity. }
  split; [|split; [|split]].
  - destruct (findBarangay idx name None None); [reflexivity | exact I].
  - exact E.
  - rewrite E. destruct (findCity idx name None); simpl; trivial.
  - unfold V2.findBestMatch. simpl fold_left. unfold V2.step. rewrite E.
    destruct (findCity idx name None) as [c|]; cbn;
      repeat match goal with
             | |- context [if ?b then _ else _] => destruct b; cbn
             end; trivial.
Qed.

Example V2_area_barangay_name :
  V2.findBestMatch sampleIndex [V2.Area (chars "Tayud")] (chars "Tayud area") 0.5%float = None
  /\ findBarangay sampleIndex (chars "Tayud") None None <> None.
Proof. split; [vm_compute; reflexivity | vm_compute; discriminate]. Qed.

(** C8.  [extractContexts] never sets a city context: its test
    [cityMatch.length === 1] is made on the entry that [findCity] returns,
    so no candidate is ever taken as the city anchor, whatever the index
    resolves. *)
Theorem V1_extractContexts_city_never_set
        (idx : Index) (candidates : list jsstring) (text : jsstring) :
  V1.ctx_city (V1.extractContexts idx candidates text) = None.
Proof.
  assert (A : V1.cityAnchor idx candidates = None).
  { induction candidates as [|c l IH]; simpl; [reflexivity|].
    destruct (findCity idx c None); exact IH. }
  unfold V1.extractContexts. rewrite A.
  destruct (V1.provinceAnchor idx candidates); reflexivity.
Qed.

(** The failing input of C8: "Consolacion" resolves to a city, yet it is not
    passed as the hint, and the ambiguous barangay next to it is not resolved,
    although [findBarangay] resolves it under that hint. *)
Example V1_extractContexts_misses_city :
  let candidates := [chars "Poblacion"; chars "Consolacion"] in
  let text := chars "Poblacion, Consolacion area" in
  findCity sampleIndex (chars "Consolacion") None <> None /\
  V1.extractContexts sampleIndex candidates text
    = {| V1.ctx_city := None; V1.ctx_province := None |} /\
  V1.findBestMatch sampleIndex candidates text = None /\
  option_map b_city (findBarangay sampleIndex (chars "Poblacion")
                                  (Some (chars "Consolacion")) None)
    = Some (chars "CONSOLACION").
Proof.
  cbv zeta. split; [vm_compute; discriminate|].
  repeat split; vm_compute; reflexivity.
Qed.

(** ** Lookups in the index *)

(** C2, as the code has it.  When the normalized city name maps to two or
    more entries, no province hint is given (null or the empty string) and
    the key is not in the priority table, [findCity] returns the first entry
    of the list: it does not return null. *)
Theorem findCity_no_hint_returns_first
        (idx : Index) (cityName : jsstring) (provinceContext : option jsstring)
        (first second : CityEntry) (others : list CityEntry) :
  Obj.get (normalizeKey cityName) (cityIndex idx) = Some (first :: second :: others) ->
  hint_given provinceContext = None ->
  Obj.get (normalizeKey cityName) priorityCities = None ->
  findCity idx cityName provinceContext = Some first.
Proof.
  intros Hget Hhint Hprio. unfold findCity. rewrite Hget, Hhint, Hprio. reflexivity.
Qed.

Lemma findCity_no_hint_returns_first_witness :
  findCity sampleIndex (chars "San Isidro") None = Some sanIsidroLeyte.
Proof.
  apply (@findCity_no_hint_returns_first
           sampleIndex (chars "San Isidro") None sanIsidroLeyte sanIsidroSamar []).
  - vm_compute. reflexivity.
  - reflexivity.
  - vm_compute. reflexivity.
Defined.

(** C2 fails as stated: "San Isidro" maps to two entries of the city index,
    it is not in the priority table and no hint is given, and the lookup
    answers with the Leyte entry instead of null. *)
Lemma findCity_ambiguous_no_hint_not_null :
  (exists units,
      Obj.get (normalizeKey (chars "San Isidro")) (cityIndex sampleIndex) = Some units /\
      2 <= length units) /\
  Obj.get (normalizeKey (chars "San Isidro")) priorityCities = None /\
  findCity sampleIndex (chars "San Isidro") None <> None /\
  option_map c_province (findCity sampleIndex (chars "San Isidro") None)
    = Some (chars "LEYTE").
Proof.
  split; [|split; [|split]].
  - eexists. split; [vm_compute; reflexivity | simpl; lia].
  - vm_compute. reflexivity.
  - vm_compute. discriminate.
  - vm_compute. reflexivity.
Qed.

(** C3, as the code has it.  With the entries [matches] stored under the
    normalized barangay name:
    - a single entry is returned whatever the hints;
    - with two or more entries, the result is the first entry that passes the
      city test (its city key equals the hint key, contains it, or is
      contained in it), when a truthy city hint is given and some entry
      passes;
    - otherwise it is the first entry that passes the province test (its
      province key equals or contains the hint key) when a truthy province
      hint is given and some entry passes;
    - otherwise the result is null. *)
Theorem findBarangay_by_hints
        (idx : Index) (barangayName : jsstring)
        (cityHint provinceHint : option jsstring) (matches : list BarangayEntry) :
  Obj.get (normalizeKey barangayName) (barangayIndex idx) = Some matches ->
  let result := findBarangay idx barangayName cityHint provinceHint in
  let by_city (m : BarangayEntry) :=
    exists h, hint_given cityHint = Some h /\
              first_such (fun x =>
                            Str.eqb (normalizeKey (b_city x)) (normalizeKey h) ||
                            Str.includes (normalizeKey (b_city x)) (normalizeKey h) ||
                            Str.includes (normalizeKey h) (normalizeKey (b_city x)))
                         matches m in
  let by_province (m : BarangayEntry) :=
    exists p, hint_given provinceHint = Some p /\
              first_such (fun x =>
                            Str.eqb (normalizeKey (b_province x)) (normalizeKey p) ||
                            Str.includes (normalizeKey (b_province x)) (normalizeKey p))
                         matches m in
  (forall m, matches = [m] -> result = Some m) /\
  (2 <= length matches ->
   forall m, result = Some m <->
             (by_city m \/ ((forall m', ~ by_city m') /\ by_province m))).
Proof.
  intros Hget result by_city by_province. subst result.
  unfold findBarangay. rewrite Hget. split.
  - intros m ->. reflexivity.
  - intros Hlen m.
    destruct matches as [|m1 [|m2 rest]]; simpl in Hlen; try lia.
    set (l := m1 :: m2 :: rest) in *.
    assert (Hc : forall m', by_city m' <->
              match hint_given cityHint with
              | Some h => find (city_hint_matches (normalizeKey h)) l = Some m'
              | None => False
              end).
    { intros m'. unfold by_city. destruct (hint_given cityHint) as [h|].
      - rewrite find_first_such. split.
        + intros (h' & [= <-] & F). exact F.
        + intros F. exists h. auto.
      - split; [intros (? & ? & _); discriminate | tauto]. }
    assert (Hp : by_province m <->
              match hint_given provinceHint with
              | Some p => find (fun x => province_hint_matches (normalizeKey p)
                                                               (b_province x)) l = Some m
              | None => False
              end).
    { unfold by_province. destruct (hint_given provinceHint) as [p|].
      - rewrite find_first_such. split.
        + intros (p' & [= <-] & F). exact F.
        + intros F. exists p. auto.
      - split; [intros (? & ? & _); discriminate | tauto]. }
    rewrite Hp. clear Hp.
    destruct (hint_given cityHint) as [h|].
    + destruct (find (city_hint_matches (normalizeKey h)) l) as [mc|] eqn:Fc.
      * split.
        -- intros [= <-]. left. apply Hc. reflexivity.
        -- intros [H | [H _]].
           ++ apply Hc in H. congruence.
           ++ exfalso. apply (H mc). apply Hc. reflexivity.
      * split.
        -- intros H. right. split.
           ++ intros m' Hm'. apply Hc in Hm'. discriminate.
           ++ destruct (hint_given provinceHint); [exact H | discriminate].
        -- intros [H | [_ H]].
           ++ apply Hc in H. discriminate.
           ++ destruct (hint_given provinceHint); [exact H | contradiction].
    + split.
      * intros H. right. split.
        -- intros m' Hm'. apply Hc in Hm'. exact Hm'.
        -- destruct (hint_given provinceHint); [exact H | discriminate].
      * intros [H | [_ H]].
        -- apply Hc in H. contradiction.
        -- destruct (hint_given provinceHint); [exact H | contradiction].
Qed.

Lemma findBarangay_unknown_name idx barangayName cityHint provinceHint :
  Obj.get (normalizeKey barangayName) (barangayIndex idx) = None ->
  findBarangay idx barangayName cityHint provinceHint = None.
Proof. intros H. unfold findBarangay. now rewrite H. Qed.

Lemma findBarangay_by_hints_witness :
  findBarangay sampleIndex (chars "Tayud") None None = Some tayudConsolacion /\
  findBarangay sampleIndex (chars "Poblacion") (Some (chars "Consolacion")) None
    = Some poblacionConsolacion.
Proof.
  split.
  - apply (proj1 (@findBarangay_by_hints sampleIndex (chars "Tayud") None None
                    [tayudConsolacion] eq_refl)).
    reflexivity.
  - apply (proj2 (@findBarangay_by_hints sampleIndex (chars "Poblacion")
                    (Some (chars "Consolacion")) None
                    [poblacionConsolacion; poblacionLeyte; poblacionSamar] eq_refl)).
    + simpl. lia.
    + left. exists (chars "Consolacion"). split; [reflexivity|].
      exists [], [poblacionLeyte; poblacionSamar].
      split; [reflexivity|]. split; vm_compute; reflexivity.
Defined.

(** C3 fails as stated: "poblacion" is stored for three cities, none of
    which has the key of the hint "Isidro", and the lookup still answers,
    with the first entry whose city key contains the hint key (two do). *)
Lemma findBarangay_hint_matches_by_containment :
  (exists matches,
      Obj.get (normalizeKey (chars "Poblacion")) (barangayIndex sampleIndex)
        = Some matches /\
      2 <= length matches /\
      forallb (fun m => negb (Str.eqb (normalizeKey (b_city m))
                                       (normalizeKey (chars "Isidro")))) matches = true) /\
  findBarangay sampleIndex (chars "Poblacion") (Some (chars "Isidro")) None <> None /\
  findBarangay sampleIndex (chars "Poblacion") (Some (chars "Isidro")) None
    = Some poblacionLeyte.
Proof.
  split; [|split].
  - eexists. split; [vm_compute; reflexivity|]. split; [simpl; lia | vm_compute; reflexivity].
  - vm_compute. discriminate.
  - vm_compute. reflexivity.
Qed.

(** ** Scores of the V1 resolver *)





(** ** What the V2 resolver returns *)

Lemma findBarangay_from_index idx name ch ph m :
  findBarangay idx name ch ph = Some m ->
  exists l, Obj.get (normalizeKey name) (barangayIndex idx) = Some l /\ In m l.
Proof.
  unfold findBarangay.
  destruct (Obj.get (normalizeKey name) (barangayIndex idx)) as [l|]; [|discriminate].
  intros H. exists l. split; [reflexivity|].
  destruct l as [|m1 [|m2 rest]]; [discriminate | injection H as <-; now left |].
  destruct (hint_given ch) as [c|].
  - destruct (find _ _) as [mc|] eqn:F.
    + injection H as <-. now apply find_some in F.
    + destruct (hint_given ph); [|discriminate]. now apply find_some in H.
  - destruct (hint_given ph); [|discriminate]. now apply find_some in H.
Qed.

Lemma findCity_from_index idx name ph c :
  findCity idx name ph = Some c ->
  exists key l, Obj.get key (cityIndex idx) = Some l /\ In c l.
Proof.
  unfold findCity.
  set (k1 := Obj.get (normalizeKey name) (cityIndex idx)).
  set (k2 := match k1 with
             | Some _ => k1
             | None => if negb _ then Obj.get _ (cityIndex idx) else None
             end).
  set (k3 := match k2 with
             | Some _ => k2
             | None => if Str.includes _ _ then Obj.get _ (cityIndex idx) else None
             end).
  assert (H3 : forall l, k3 = Some l -> exists key, Obj.get key (cityIndex idx) = Some l).
  { intros l. subst k3 k2 k1.
    destruct (Obj.get (normalizeKey name) (cityIndex idx)) eqn:E1.
    - intros [= <-]. eauto.
    - destruct (negb _).
      + destruct (Obj.get (normalizeKey (name ++ _)) _) eqn:E2.
        * intros [= <-]. eauto.
        * destruct (Str.includes _ _); [|discriminate]. eauto.
      + destruct (Str.includes _ _); [|discriminate]. eauto. }
  destruct k3 as [l|]; [|discriminate].
  destruct (H3 l eq_refl) as (key & Hk). intros H. exists key, l. split; [exact Hk|].
  destruct l as [|m1 [|m2 rest]]; [discriminate | injection H as <-; now left |].
  set (l := m1 :: m2 :: rest) in *.
  destruct (hint_given ph) as [p|].
  - destruct (find _ l) as [mp|] eqn:F1 in H.
    + injection H as <-. apply find_some in F1 as [F1 _]. exact F1.
    + destruct (Obj.get _ priorityCities) as [q|].
      * destruct (find _ l) as [mq|] eqn:F2 in H.
        -- injection H as <-. apply find_some in F2 as [F2 _]. exact F2.
        -- injection H as <-. now left.
      * injection H as <-. now left.
  - destruct (Obj.get _ priorityCities) as [q|].
    + destruct (find _ l) as [mq|] eqn:F2 in H.
      * injection H as <-. apply find_some in F2 as [F2 _]. exact F2.
      * injection H as <-. now left.
    + injection H as <-. now left.
Qed.

Lemma resolveGeneric_from_index idx name r s :
  V2.resolveGeneric idx name = (Some r, s) -> from_index idx r.
Proof.
  unfold V2.resolveGeneric.
  destruct (findProvince idx name) as [p|] eqn:Fp.
  - intros [= <- _]. eapply from_province. exact Fp.
  - destruct (findCity idx name None) as [c|] eqn:Fc.
    + intros [= <- _]. apply findCity_from_index in Fc as (key & l & G & I).
      eapply from_city; eauto.
    + destruct (findBarangay idx name None None) as [m|] eqn:Fb; [|discriminate].
      destruct (negb _); [|discriminate].
      intros [= <- _]. apply findBarangay_from_index in Fb as (l & G & I).
      eapply from_barangay; eauto.
Qed.

Lemma resolveCandidate_from_index idx candidate r s :
  V2.resolveCandidate idx candidate = (Some r, s) -> from_index idx r.
Proof.
  destruct candidate as [name context | name | name | name | first second third]; simpl.
  - destruct (findBarangay idx name context None) as [m|] eqn:Fb; [|discriminate].
    intros [= <- _]. apply findBarangay_from_index in Fb as (l & G & I).
    eapply from_barangay; eauto.
  - apply resolveGeneric_from_index.
  - apply resolveGeneric_from_index.
  - intros H.
    assert (H' : match findCity idx name None with
                 | Some c => (Some (ofCity c), 0.7%float)
                 | None => (None, 0%float)
                 end = (Some r, s)).
    { destruct (findBarangay idx name None None); exact H. }
    destruct (findCity idx name None) as [c|] eqn:Fc; [|discriminate].
    injection H' as <- _. apply findCity_from_index in Fc as (key & l & G & I).
    eapply from_city; eauto.
  - destruct (findBarangay idx first (Some second) None) as [m|] eqn:Fb; [|discriminate].
    intros [= <- _]. apply findBarangay_from_index in Fb as (l & G & I).
    eapply from_barangay; eauto.
Qed.

(** The loop of [findBestMatch] only ever holds results built from the index. *)
Lemma V2_loop_from_index idx confidence candidates best :
  (forall r, fst best = Some r -> from_index idx r) ->
  forall r, fst (fold_left (V2.step idx confidence) candidates best) = Some r ->
            from_index idx r.
Proof.
  revert best. induction candidates as [|c l IH]; intros best Hb; simpl; [exact Hb|].
  apply IH. unfold V2.step.
  destruct (V2.resolveCandidate idx c) as [[lm|] s] eqn:E; [|exact Hb].
  destruct (PrimFloat.ltb _ _); [|exact Hb].
  simpl. intros r [= <-]. eapply resolveCandidate_from_index; eauto.
Qed.

Lemma V2_findBestMatch_from_index idx candidates fullText confidence r :
  V2.findBestMatch idx candidates fullText confidence = Some r -> from_index idx r.
Proof.
  unfold V2.findBestMatch.
  destruct (fold_left _ _ _) as [bestMatch bestScore] eqn:E.
  destruct (PrimFloat.ltb _ _); [discriminate|]. intros ->.
  apply (@V2_loop_from_index idx confidence candidates (None, 0%float)).
  - simpl. discriminate.
  - rewrite E. reflexivity.
Qed.






Example calculateConfidence_examples :
  V2.calculateConfidence (chars "Taga Davao City ako") = 0.4%float /\
  V2.calculateConfidence (chars "Location: Quezon City") = 0.8%float /\
  V2.calculateConfidence (chars "sarado AF malolos") = 0%float /\
  V2.calculateConfidence (chars "here in my area near sa area namin sa Cebu") = 1%float.
Proof. repeat split; vm_compute; reflexivity. Qed.

Example findCity_with_hint :
  findCity sampleIndex (chars "San Isidro") (Some (chars "Samar")) = Some sanIsidroSamar /\
  findCity sampleIndex (chars "San Isidro") (Some (chars "Leyte")) = Some sanIsidroLeyte /\
  findCity sampleIndex (chars "San Isidro City") (Some (chars "Cebu")) = Some sanIsidroLeyte.
Proof. repeat split; vm_compute; reflexivity. Qed.

(** ** The index holds only units of the gazetteer *)

Section BuildInvariant.

Variable data : Dataset.

Lemma Forall_set {V : Type} (P : jsstring * V -> Prop) key v (o : obj V) :
  Forall P o -> (forall k, P (k, v)) -> Forall P (Obj.set key v o).
Proof.
  intros Ho Hv. induction Ho as [|[k w] o Hk Ho IH]; simpl.
  - constructor; [apply Hv | constructor].
  - destruct (Str.eqb k key); constructor; auto.
Qed.

Lemma Forall_get {V : Type} (P : jsstring * V -> Prop) key v (o : obj V) :
  Forall P o -> Obj.get key o = Some v -> P (key, v).
Proof.
  intros Ho Hg. apply Obj_get_In in Hg. rewrite Forall_forall in Ho. now apply Ho.
Qed.

Lemma fold_left_invariant {A B : Type} (P : A -> Prop) (f : A -> B -> A) (l : list B) :
  (forall a x, In x l -> P a -> P (f a x)) ->
  forall a, P a -> P (fold_left f l a).
Proof.
  induction l as [|x l IH]; intros Hf a Ha; simpl; [exact Ha|].
  apply IH.
  - intros a' x' Hx'. apply Hf. now right.
  - apply Hf; [now left | exact Ha].
Qed.

Lemma or_empty_ok {A : Type} (P : A -> Prop) key (o : obj (list A)) :
  Forall (fun kv => Forall P (snd kv)) o -> Forall P (or_empty (Obj.get key o)).
Proof.
  intros Ho. destruct (Obj.get key o) as [l|] eqn:G; simpl; [|constructor].
  apply (@Forall_get _ (fun kv => Forall P (snd kv)) key l o Ho G).
Qed.

Lemma addBarangay_ok regionName regionCode provinceName cityName idx barangayName :
  in_gazetteer data provinceName cityName ->
  index_ok data idx ->
  index_ok data (addBarangay regionName regionCode provinceName cityName idx barangayName).
Proof.
  intros Hin [Hb Hc]. split; simpl; [|exact Hc].
  apply Forall_set; [exact Hb|]. intros k. simpl.
  apply Forall_app. split.
  - now apply or_empty_ok.
  - constructor; [exact Hin | constructor].
Qed.

Lemma addCity_ok regionName regionCode provinceName idx city :
  in_gazetteer data provinceName (fst city) ->
  index_ok data idx ->
  index_ok data (addCity regionName regionCode provinceName idx city).
Proof.
  destruct city as [cityName barangay_list]. simpl. intros Hin [Hb Hc].
  apply fold_left_invariant.
  - intros a x _. now apply addBarangay_ok.
  - split; simpl; [exact Hb|].
    apply Forall_set; [exact Hc|]. intros k. simpl.
    apply Forall_app. split.
    + now apply or_empty_ok.
    + constructor; [exact Hin | constructor].
Qed.

Lemma addProvince_ok regionCode rd idx province :
  In (regionCode, rd) data ->
  In province (provinces rd) ->
  index_ok data idx ->
  index_ok data (addProvince (region_name rd) regionCode idx province).
Proof.
  destruct province as [provinceName municipalities]. simpl. intros Hr Hp Hidx.
  apply fold_left_invariant.
  - intros a [cityName bl] Hx. apply addCity_ok. simpl.
    exists regionCode, rd, municipalities, bl. auto.
  - destruct Hidx as [Hb Hc]. split; assumption.
Qed.

Lemma addRegion_ok idx region :
  In region data -> index_ok data idx -> index_ok data (addRegion idx region).
Proof.
  destruct region as [regionCode rd]. simpl. intros Hr.
  apply fold_left_invariant. intros a p Hp. now apply addProvince_ok.
Qed.

Lemma applyAlias_ok ci a : cities_ok data ci -> cities_ok data (applyAlias ci a).
Proof.
  destruct a as [alias target]. unfold applyAlias. intros H.
  destruct (Obj.get alias ci); [exact H|].
  destruct (Obj.get target ci) as [l|] eqn:G; [|exact H].
  apply Forall_set; [exact H|]. intros k.
  apply (@Forall_get _ (fun kv => Forall _ (snd kv)) target l ci H G).
Qed.

Lemma applyCommonAlias_ok ci a : cities_ok data ci -> cities_ok data (applyCommonAlias ci a).
Proof.
  destruct a as [alias canonical]. unfold applyCommonAlias. intros H.
  destruct (Obj.get (normalizeKey canonical) ci) as [l|] eqn:G; [|exact H].
  apply Forall_set; [exact H|]. intros k.
  apply (@Forall_get _ (fun kv => Forall _ (snd kv)) _ l ci H G).
Qed.

Lemma addCityAliases_ok idx : index_ok data idx -> index_ok data (addCityAliases idx).
Proof.
  intros [Hb Hc]. split; [exact Hb|].
  unfold addCityAliases. cbn [cityIndex].
  apply fold_left_invariant; [intros; now apply applyCommonAlias_ok|].
  apply fold_left_invariant; [intros; now apply applyAlias_ok | exact Hc].
Qed.

Lemma buildIndexes_ok : index_ok data (buildIndexes data).
Proof.
  unfold buildIndexes. apply addCityAliases_ok.
  apply fold_left_invariant.
  - intros a x Hx. now apply addRegion_ok.
  - split; constructor.
Qed.

End BuildInvariant.

(** C1.  Every non-null result of the V2 resolver over the index built from
    a dataset names, when its city is set, a city that the dataset has under
    the province the result names. *)
Theorem V2_result_city_in_province
        (data : Dataset) (candidates : list V2.Candidate)
        (fullText : jsstring) (confidence : float) (r : LocationMatch) :
  V2.findBestMatch (buildIndexes data) candidates fullText confidence = Some r ->
  lm_city r <> [] ->
  in_gazetteer data (lm_province r) (lm_city r).
Proof.
  intros H Hc. apply V2_findBestMatch_from_index in H.
  destruct (buildIndexes_ok data) as [Hb Hci].
  remember (buildIndexes data) as idx eqn:Eidx. clear Eidx.
  destruct H as [key l m G I | key l c G I | key p G].
  - pose proof (@Forall_get _ (fun kv => Forall _ (snd kv)) key l _ Hb G) as F.
    cbv beta in F. rewrite Forall_forall in F. now apply F.
  - pose proof (@Forall_get _ (fun kv => Forall _ (snd kv)) key l _ Hci G) as F.
    cbv beta in F. rewrite Forall_forall in F. now apply F.
  - exfalso. now apply Hc.
Qed.

Lemma V2_result_city_in_province_witness :
  in_gazetteer sampleData (chars "CEBU") (chars "CONSOLACION").
Proof.
  apply (@V2_result_city_in_province sampleData
           [V2.Barangay (chars "Barangay Tayud") (Some (chars "Consolacion"));
            V2.City (chars "Consolacion")]
           (chars "Brgy. Tayud, Consolacion") 0.7%float (OfEntry tayudConsolacion)).
  - vm_compute. reflexivity.
  - simpl. discriminate.
Defined.

(** ** A declarative reading of the matcher *)

Lemma orelse_some a b res :
  orelse a b = Some res -> a = Some res \/ (a = None /\ b tt = Some res).
Proof.
  destruct a as [x|]; simpl; intros H.
  - left. exact H.
  - right. split; [reflexivity | exact H].
Qed.

Lemma orelse_none a b : orelse a b = None <-> a = None /\ b tt = None.
Proof.
  destruct a as [x|]; simpl; split.
  - discriminate.
  - intros [H _]. discriminate H.
  - auto.
  - intros [_ H]. exact H.
Qed.

Section StarLoop.

Variables (g : bool) (r : regex) (m : matcher).

Hypothesis m_sound :
  forall c k res, m c k = Some res -> exists c', Den r c c' /\ k c' = Some res.

Lemma star_loop_sound fuel c k res :
  star_loop g m fuel c k = Some res ->
  exists c', Den (Star g r) c c' /\ k c' = Some res.
Proof.
  revert c. induction fuel as [|fuel IH]; intros c; simpl.
  - intros H. exists c. split; [constructor | exact H].
  - assert (A : m c (fun c' => if length (ahead c') <? length (ahead c)
                               then star_loop g m fuel c' k else None) = Some res ->
                exists c', Den (Star g r) c c' /\ k c' = Some res).
    { intros H. apply m_sound in H as (c1 & D1 & H).
      destruct (Nat.ltb_spec (length (ahead c1)) (length (ahead c))) as [L|L];
        [|discriminate].
      apply IH in H as (c2 & D2 & H). exists c2. split; [|exact H].
      eapply DStarS; eauto. }
    assert (B : k c = Some res -> exists c', Den (Star g r) c c' /\ k c' = Some res).
    { intros H. exists c. split; [constructor | exact H]. }
    destruct g; intros H; apply orelse_some in H as [H | [_ H]]; auto.
Qed.

Hypothesis m_complete :
  forall c c' k, Den r c c' -> k c' <> None -> m c k <> None.

Lemma star_loop_complete fuel c c' k :
  length (ahead c) <= fuel ->
  Den (Star g r) c c' -> k c' <> None ->
  star_loop g m fuel c k <> None.
Proof.
  revert c. induction fuel as [|fuel IH]; intros c Hf D Hk.
  - simpl. inversion D; subst; [exact Hk | lia].
  - simpl.
    set (k' := fun c1 => if length (ahead c1) <? length (ahead c)
                         then star_loop g m fuel c1 k else None).
    assert (A : m c k' = None -> k c = None -> False).
    { intros Hm Hkc. inversion D; subst; [now apply Hk|].
      apply (m_complete c c1 k'); [assumption | | exact Hm].
      unfold k'. destruct (Nat.ltb_spec (length (ahead c1)) (length (ahead c))); [|lia].
      apply IH; [lia | assumption | assumption]. }
    destruct g; intros H; apply orelse_none in H as [H1 H2]; auto.
Qed.

End StarLoop.

Lemma rmatch_sound r : forall c k res,
  rmatch r c k = Some res -> exists c', Den r c c' /\ k c' = Some res.
Proof.
  induction r as [|ci s|r1 IH1 r2 IH2|r1 IH1 r2 IH2|g r IH| | |]; intros c k res; simpl.
  - intros H. exists c. split; [constructor | exact H].
  - destruct c as [sn [|x rest]]; simpl; [discriminate|].
    destruct (mem ci s x) eqn:M; [|discriminate].
    intros H. eexists. split; [constructor; exact M | exact H].
  - intros H. apply IH1 in H as (c1 & D1 & H). apply IH2 in H as (c2 & D2 & H).
    exists c2. split; [econstructor; eauto | exact H].
  - intros H. apply orelse_some in H as [H | [_ H]].
    + apply IH1 in H as (c' & D & H). exists c'. split; [now apply DAltL | exact H].
    + apply IH2 in H as (c' & D & H). exists c'. split; [now apply DAltR | exact H].
  - apply star_loop_sound. exact IH.
  - destruct (seen c) eqn:E; [|discriminate]. intros H.
    exists c. split; [now constructor | exact H].
  - destruct (ahead c) eqn:E; [|discriminate]. intros H.
    exists c. split; [now constructor | exact H].
  - destruct (at_word_boundary c) eqn:E; [|discriminate]. intros H.
    exists c. split; [now constructor | exact H].
Qed.

Lemma rmatch_complete r : forall c c' k,
  Den r c c' -> k c' <> None -> rmatch r c k <> None.
Proof.
  induction r as [|ci s|r1 IH1 r2 IH2|r1 IH1 r2 IH2|g r IH| | |]; intros c c' k D Hk; simpl.
  - inversion D; subst. exact Hk.
  - inversion D; subst. simpl. rewrite H3. exact Hk.
  - inversion D; subst. eapply IH1; eauto.
  - intros H. apply orelse_none in H as [H1 H2].
    inversion D; subst; [eapply IH1 | eapply IH2]; eauto.
  - eapply star_loop_complete; eauto.
  - inversion D; subst. rewrite H. exact Hk.
  - inversion D; subst. rewrite H. exact Hk.
  - inversion D; subst. rewrite H. exact Hk.
Qed.

(** A match only moves forward inside one subject. *)
Lemma Den_span r c c' :
  Den r c c' ->
  exists mid, ahead c = mid ++ ahead c' /\ seen c' = rev mid ++ seen c.
Proof.
  induction 1; try (exists []; split; reflexivity).
  - exists [x]. split; reflexivity.
  - destruct IHDen1 as (m1 & A1 & S1), IHDen2 as (m2 & A2 & S2).
    exists (m1 ++ m2). rewrite A1, A2, S2, S1, rev_app_distr, !app_assoc. auto.
  - assumption.
  - assumption.
  - destruct IHDen1 as (m1 & A1 & S1), IHDen2 as (m2 & A2 & S2).
    exists (m1 ++ m2). rewrite A1, A2, S2, S1, rev_app_distr, !app_assoc. auto.
Qed.

Lemma match_at_sound r c e : match_at r c = Some e -> Den r c e.
Proof.
  unfold match_at. intros H. apply rmatch_sound in H as (c' & D & [= <-]). exact D.
Qed.

Lemma match_at_complete r c e : Den r c e -> match_at r c <> None.
Proof.
  intros D. unfold match_at. eapply rmatch_complete; eauto. discriminate.
Qed.

(** [search] returns a match at the first position that has one. *)
Lemma search_sound r : forall ah sn b e,
  search r sn ah = Some (b, e) ->
  Den r b e /\
  exists skipped, ah = skipped ++ ahead b /\ seen b = rev skipped ++ sn /\
    forall s1 s2 e', skipped = s1 ++ s2 -> s2 <> [] ->
                     ~ Den r (Cursor (rev s1 ++ sn) (s2 ++ ahead b)) e'.
Proof.
  induction ah as [|x ah IH]; intros sn b e; simpl.
  - destruct (match_at r (Cursor sn [])) eqn:M; [|discriminate].
    intros [= <- <-]. split; [now apply match_at_sound|].
    exists []. repeat split. intros s1 s2 e' E N. destruct s1, s2; simpl in E; congruence.
  - destruct (match_at r (Cursor sn (x :: ah))) eqn:M.
    + intros [= <- <-]. split; [now apply match_at_sound|].
      exists []. repeat split. intros s1 s2 e' E N. destruct s1, s2; simpl in E; congruence.
    + intros H. apply IH in H as (D & skipped & A & S & N). split; [exact D|].
      exists (x :: skipped). simpl. rewrite A, S, <- app_assoc. repeat split.
      intros s1 s2 e' E Hs2. destruct s1 as [|y s1]; simpl in E.
      * subst s2. simpl. rewrite <- A. intros D'.
        apply match_at_complete in D'. congruence.
      * injection E as <- ->. simpl. rewrite <- app_assoc. simpl.
        now apply N.
Qed.

Lemma search_complete r : forall skipped sn rest e,
  Den r (Cursor (rev skipped ++ sn) rest) e ->
  search r sn (skipped ++ rest) <> None.
Proof.
  induction skipped as [|x skipped IH]; intros sn rest e D; simpl in *.
  - destruct rest as [|y rest]; simpl;
      destruct (match_at r _) eqn:M; try discriminate;
      apply match_at_complete in D; congruence.
  - destruct (match_at r _) eqn:M; [discriminate|].
    rewrite <- app_assoc in D. simpl in D. eapply IH; eauto.
Qed.

Lemma test_true_iff r s :
  test r s = true <->
  exists pre post e, s = pre ++ post /\ Den r (Cursor (rev pre) post) e.
Proof.
  unfold test, exec. split.
  - destruct (search r [] s) as [[b e]|] eqn:S; [|discriminate]. intros _.
    apply search_sound in S as (D & skipped & A & Sn & _).
    exists skipped, (ahead b), e. split; [exact A|].
    rewrite app_nil_r in Sn. rewrite <- Sn. destruct b. exact D.
  - intros (pre & post & e & -> & D).
    destruct (search r [] (pre ++ post)) eqn:S; [reflexivity|].
    exfalso. eapply search_complete; [|exact S]. rewrite app_nil_r. exact D.
Qed.

(** ** Characters *)

Lemma In_all_ascii (c : ascii) : In c all_ascii.
Proof.
  unfold all_ascii. rewrite <- (ascii_nat_embedding c).
  apply in_map, in_seq. pose proof (nat_ascii_bounded c). lia.
Qed.

Lemma forall_ascii (P : ascii -> bool) :
  forallb P all_ascii = true -> forall c, P c = true.
Proof. intros H c. rewrite forallb_forall in H. apply H, In_all_ascii. Qed.

Lemma forall_ascii2 (P : ascii -> ascii -> bool) :
  forallb (fun a => forallb (P a) all_ascii) all_ascii = true ->
  forall a c, P a c = true.
Proof. intros H a. apply forall_ascii. revert a. now apply forall_ascii. Qed.

(** Under the [i] flag a lower-case pattern letter matches exactly the
    characters whose lower case it is. *)
Lemma ci_lower (a y : ascii) :
  Char.is_lower a = true -> mem true (One a) y = true -> Char.lower y = a.
Proof.
  intros La M.
  pose proof (@forall_ascii2
                (fun a y => implb (Char.is_lower a && mem true (One a) y)
                                  (Ascii.eqb (Char.lower y) a))) as H.
  specialize (H ltac:(vm_compute; reflexivity) a y). cbv beta in H.
  rewrite La, M in H. simpl in H. now apply Ascii.eqb_eq.
Qed.

Lemma ci_refl (a : ascii) : mem true (One a) a = true.
Proof. simpl. apply Ascii.eqb_refl. Qed.

Lemma lower_not_space (a : ascii) : Char.is_lower a = true -> Char.is_space a = false.
Proof.
  intros La.
  pose proof (@forall_ascii (fun a => implb (Char.is_lower a) (negb (Char.is_space a)))) as H.
  specialize (H ltac:(vm_compute; reflexivity) a). cbv beta in H. rewrite La in H. simpl in H.
  now apply negb_true_iff.
Qed.

(** ** Literal words *)

Lemma Den_Lit ci p : forall c c',
  Den (Lit ci p) c c' <->
  exists x, ahead c = x ++ ahead c' /\ seen c' = rev x ++ seen c /\ ci_match ci p x.
Proof.
  induction p as [|a p IH]; intros c c'; simpl.
  - split.
    + intros D. inversion D; subst. exists []. repeat split. constructor.
    + intros (x & A & S & F). inversion F; subst. simpl in *.
      destruct c, c'; simpl in *; subst. constructor.
  - split.
    + intros D. inversion D as [| |r1 r2 c0 c1 c2 D1 D2| | | | | | |]; subst.
      inversion D1; subst. apply IH in D2 as (x' & A & S & F). simpl in *.
      exists (x :: x'). simpl. rewrite A, S, <- app_assoc. repeat split.
      constructor; assumption.
    + intros (x & A & S & F). inversion F as [|a' y p' x' M F']; subst.
      destruct c as [sn ah]. simpl in *. subst ah.
      apply DSeq with (c1 := Cursor (y :: sn) (x' ++ ahead c')).
      * now constructor.
      * apply IH. exists x'. simpl. rewrite S, <- app_assoc. repeat split. exact F'.
Qed.

Lemma ci_match_length ci p x : ci_match ci p x -> length x = length p.
Proof. induction 1; simpl; congruence. Qed.

Lemma ci_match_lower p x :
  forallb Char.is_lower p = true -> ci_match true p x -> Str.toLowerCase x = p.
Proof.
  intros L F. induction F as [|a y p x M F IH]; simpl in *; [reflexivity|].
  apply andb_true_iff in L as [La L]. f_equal; [now apply ci_lower | now apply IH].
Qed.

Lemma ci_match_refl p : ci_match true p p.
Proof. induction p; constructor; [apply ci_refl | assumption]. Qed.

(** ** Alternatives *)

Lemma Den_Alts_inv l : forall c c',
  l <> [] -> Den (Alts l) c c' -> exists r, In r l /\ Den r c c'.
Proof.
  induction l as [|r l IH]; intros c c' N D; [congruence|].
  destruct l as [|r' l].
  - simpl in D. exists r. split; [now left | exact D].
  - change (Alts (r :: r' :: l)) with (Alt r (Alts (r' :: l))) in D.
    inversion D; subst.
    + exists r. split; [now left | assumption].
    + apply IH in H3 as (r0 & I & D0); [|discriminate].
      exists r0. split; [now right | exact D0].
Qed.

Lemma Den_Alts_intro l : forall r c c',
  In r l -> Den r c c' -> Den (Alts l) c c'.
Proof.
  induction l as [|r0 l IH]; intros r c c' I D; [contradiction|].
  destruct l as [|r' l].
  - destruct I as [<-|[]]. exact D.
  - change (Alts (r0 :: r' :: l)) with (Alt r0 (Alts (r' :: l))).
    destruct I as [<-|I]; [now apply DAltL | apply DAltR; eapply IH; eauto].
Qed.

(** One of the words of [l], in any letter case, is at position [c]. *)
Lemma Den_litis l c c' :
  l <> [] ->
  (Den (litis l) c c' <->
   exists p x, In p l /\ ahead c = x ++ ahead c' /\ seen c' = rev x ++ seen c /\
               ci_match true (chars p) x).
Proof.
  intros N. unfold litis. split.
  - intros D. apply Den_Alts_inv in D as (r & I & D); [|now destruct l].
    apply in_map_iff in I as (p & <- & I). apply Den_Lit in D as (x & A & S & F).
    exists p, x. auto.
  - intros (p & x & I & A & S & F). apply Den_Alts_intro with (r := liti p).
    + now apply in_map.
    + apply Den_Lit. exists x. auto.
Qed.

(** ** Trimming *)

Lemma trimStart_app a b :
  Str.trimStart (a ++ b) =
  if forallb Char.is_space a then Str.trimStart b else Str.trimStart a ++ b.
Proof.
  induction a as [|x a IH]; simpl; [reflexivity|].
  destruct (Char.is_space x); simpl; [exact IH | reflexivity].
Qed.

Lemma trimStart_nonspace x s :
  Char.is_space x = false -> Str.trimStart (x :: s) = x :: s.
Proof. intros H. simpl. now rewrite H. Qed.

(** A word of lower-case letters survives trimming at the front. *)
Lemma trim_keeps_prefix p r :
  p <> [] -> forallb Char.is_lower p = true ->
  exists r', Str.trim (p ++ r) = p ++ r'.
Proof.
  intros N L. destruct p as [|a p]; [congruence|]. simpl in L.
  apply andb_true_iff in L as [La L].
  unfold Str.trim. simpl app. rewrite trimStart_nonspace by now apply lower_not_space.
  unfold Str.trimEnd. change (a :: p ++ r) with ((a :: p) ++ r).
  rewrite rev_app_distr, trimStart_app.
  destruct (rev (a :: p)) as [|z q] eqn:E.
  { apply (f_equal (@length _)) in E. rewrite length_rev in E. discriminate. }
  assert (Lz : Char.is_lower z = true).
  { assert (I : In z (a :: p)). { apply in_rev. rewrite E. now left. }
    destruct I as [<-|I]; [exact La|]. rewrite forallb_forall in L. now apply L. }
  destruct (forallb Char.is_space (rev r)).
  - rewrite trimStart_nonspace by now apply lower_not_space.
    exists []. rewrite <- E, rev_involutive, app_nil_r. reflexivity.
  - exists (rev (Str.trimStart (rev r))).
    rewrite rev_app_distr, <- E, rev_involutive. reflexivity.
Qed.

(** A word of lower-case letters survives trimming at the end. *)
Lemma trim_keeps_suffix p r :
  p <> [] -> forallb Char.is_lower p = true ->
  exists r', Str.trim (r ++ p) = r' ++ p.
Proof.
  intros N L.
  assert (E : Str.trimEnd (Str.trimStart (r ++ p)) = Str.trimStart (r ++ p)).
  { rewrite trimStart_app.
    assert (T : forall q, Str.trimEnd (q ++ p) = q ++ p).
    { intros q. unfold Str.trimEnd. rewrite rev_app_distr.
      destruct (rev p) as [|z t] eqn:Ep.
      { apply (f_equal (@length _)) in Ep. rewrite length_rev in Ep.
        destruct p; [congruence | discriminate]. }
      assert (Lz : Char.is_lower z = true).
      { rewrite forallb_forall in L. apply L, in_rev. rewrite Ep. now left. }
      simpl app. rewrite trimStart_nonspace by now apply lower_not_space.
      change (z :: t ++ rev q) with ((z :: t) ++ rev q).
      rewrite <- Ep, <- rev_app_distr, rev_involutive. reflexivity. }
    destruct (forallb Char.is_space r).
    - destruct p as [|a p]; [congruence|]. simpl in L.
      apply andb_true_iff in L as [La L'].
      rewrite trimStart_nonspace by now apply lower_not_space.
      apply (T []).
    - apply T. }
  unfold Str.trim. rewrite E, trimStart_app.
  destruct (forallb Char.is_space r).
  - destruct p as [|a p]; [congruence|]. simpl in L.
    apply andb_true_iff in L as [La L'].
    rewrite trimStart_nonspace by now apply lower_not_space. now exists [].
  - now exists (Str.trimStart r).
Qed.

(** ** Words that begin or end with one of a list of affixes *)

Lemma test_prefix l w :
  l <> [] -> (test (Seq Bol (litis l)) w = true <-> starts_ci l w).
Proof.
  intros N. rewrite test_true_iff. split.
  - intros (pre & post & e & -> & D).
    inversion D as [| |r1 r2 c0 c1 c2 D1 D2| | | | | | |]; subst.
    inversion D1; subst. simpl in H.
    assert (pre = []) as ->.
    { destruct pre as [|y pre]; [reflexivity|]. simpl in H.
      apply (f_equal (@length _)) in H. rewrite length_app in H. simpl in H. lia. }
    apply Den_litis in D2 as (p & x & I & A & S & F); [|exact N].
    simpl in A. exists p, x, (ahead e). auto.
  - intros (p & x & rest & I & -> & F).
    exists [], (x ++ rest), (Cursor (rev x) rest). split; [reflexivity|].
    apply DSeq with (c1 := Cursor [] (x ++ rest)); [now constructor|].
    apply Den_litis; [exact N|]. exists p, x. simpl. rewrite app_nil_r. auto.
Qed.

Lemma test_suffix l w :
  l <> [] -> (test (Seq (litis l) Eol) w = true <-> ends_ci l w).
Proof.
  intros N. rewrite test_true_iff. split.
  - intros (pre & post & e & -> & D).
    inversion D as [| |r1 r2 c0 c1 c2 D1 D2| | | | | | |]; subst.
    inversion D2; subst.
    apply Den_litis in D1 as (p & x & I & A & S & F); [|exact N].
    simpl in A. rewrite H, app_nil_r in A. subst post.
    exists p, x, pre. auto.
  - intros (p & x & pre & I & -> & F).
    exists pre, x, (Cursor (rev x ++ rev pre) []). split; [reflexivity|].
    apply DSeq with (c1 := Cursor (rev x ++ rev pre) []); [|now constructor].
    apply Den_litis; [exact N|]. exists p, x. simpl. rewrite app_nil_r. auto.
Qed.

Lemma affix_ok l p :
  affixes_ok l = true -> In p l ->
  chars p <> [] /\ forallb Char.is_lower (chars p) = true.
Proof.
  unfold affixes_ok. rewrite forallb_forall. intros H I.
  specialize (H p I). apply andb_true_iff in H as [T L]. split; [|exact L].
  destruct (chars p); [discriminate | discriminate].
Qed.

Lemma toLowerCase_app a b :
  Str.toLowerCase (a ++ b) = Str.toLowerCase a ++ Str.toLowerCase b.
Proof. apply map_app. Qed.

(** Lower-casing and trimming keep a leading affix. *)
Lemma starts_ci_normalized l w :
  affixes_ok l = true -> starts_ci l w -> starts_ci l (Str.trim (Str.toLowerCase w)).
Proof.
  intros Ok (p & x & rest & I & -> & F).
  destruct (affix_ok l p Ok I) as [Np Lp].
  rewrite toLowerCase_app, (ci_match_lower _ _ Lp F).
  destruct (trim_keeps_prefix (chars p) (Str.toLowerCase rest) Np Lp) as (r' & ->).
  exists p, (chars p), r'. split; [exact I|]. split; [reflexivity | apply ci_match_refl].
Qed.

(** Lower-casing and trimming keep a trailing affix. *)
Lemma ends_ci_normalized l w :
  affixes_ok l = true -> ends_ci l w -> ends_ci l (Str.trim (Str.toLowerCase w)).
Proof.
  intros Ok (p & x & pre & I & -> & F).
  destruct (affix_ok l p Ok I) as [Np Lp].
  rewrite toLowerCase_app, (ci_match_lower _ _ Lp F).
  destruct (trim_keeps_suffix (chars p) (Str.toLowerCase pre) Np Lp) as (r' & ->).
  exists p, (chars p), r'. split; [exact I|]. split; [reflexivity | apply ci_match_refl].
Qed.

Lemma starts_ci_incl l l' w : incl l l' -> starts_ci l w -> starts_ci l' w.
Proof. intros H (p & x & rest & I & E & F). exists p, x, rest. auto. Qed.

Lemma ends_ci_incl l l' w : incl l l' -> ends_ci l w -> ends_ci l' w.
Proof. intros H (p & x & pre & I & E & F). exists p, x, pre. auto. Qed.

(** ** The verb patterns *)

Lemma verb_pattern_1 w :
  test (nth 0 Filter.TAGALOG_VERB_PATTERNS Eps) w = true <-> starts_ci verb_prefixes w.
Proof. apply test_prefix. discriminate. Qed.

Lemma verb_pattern_3 w :
  test (nth 2 Filter.TAGALOG_VERB_PATTERNS Eps) w = true <-> ends_ci verb_suffixes w.
Proof. apply test_suffix. discriminate. Qed.

(** The combined-prefix pattern begins with one of the prefixes. *)
Lemma verb_pattern_2 w :
  test (nth 1 Filter.TAGALOG_VERB_PATTERNS Eps) w = true -> starts_ci verb_prefixes w.
Proof.
  intros T. apply (@starts_ci_incl ["nag"; "mag"]%string).
  { intros p [<-|[<-|[]]]; simpl; auto. }
  apply test_true_iff in T as (pre & post & e & -> & D).
  change (nth 1 Filter.TAGALOG_VERB_PATTERNS Eps)
    with (Seq Bol (Seq (litis ["nag"; "mag"]%string) (litis ["ka"; "pa"; "si"]%string))) in D.
  inversion D as [| |r1 r2 c0 c1 c2 D1 D2| | | | | | |]; subst.
  inversion D1; subst. simpl in H.
  assert (pre = []) as ->.
  { destruct pre as [|y pre]; [reflexivity|]. simpl in H.
    apply (f_equal (@length _)) in H. rewrite length_app in H. simpl in H. lia. }
  inversion D2 as [| |r1 r2 c0 c1 c2 D3 D4| | | | | | |]; subst.
  apply Den_litis in D3 as (p & x & I & A & S & F); [|discriminate].
  simpl in A. exists p, x, (ahead c1). auto.
Qed.

(** The circumfix pattern ends with one of the suffixes. *)
Lemma verb_pattern_4 w :
  test (nth 3 Filter.TAGALOG_VERB_PATTERNS Eps) w = true -> ends_ci verb_suffixes w.
Proof.
  intros T. apply (@ends_ci_incl ["in"; "an"]%string).
  { intros p [<-|[<-|[]]]; simpl; auto. }
  apply test_true_iff in T as (pre & post & e & -> & D).
  change (nth 3 Filter.TAGALOG_VERB_PATTERNS Eps)
    with (Seq (litis ["um"; "in"]%string)
              (Seq (Star false (Chr true Dot))
                   (Seq (litis ["in"; "an"]%string) Eol))) in D.
  inversion D as [| |r1 r2 c0 c1 c2 D1 D2| | | | | | |]; subst.
  inversion D2 as [| |r1 r2 c0 c3 c4 D3 D4| | | | | | |]; subst.
  inversion D4 as [| |r1 r2 c0 c5 c6 D5 D6| | | | | | |]; subst.
  inversion D6; subst.
  apply Den_span in D1 as (m1 & A1 & S1). apply Den_span in D3 as (m3 & A3 & S3).
  apply Den_litis in D5 as (p & x & I & A & S & F); [|discriminate].
  simpl in A1. rewrite H, app_nil_r in A. rewrite A in A3. rewrite A3 in A1.
  exists p, x, (pre ++ m1 ++ m3). split; [exact I|]. split; [|exact F].
  rewrite A1, <- !app_assoc. reflexivity.
Qed.

Lemma verb_affixes_ok :
  affixes_ok verb_prefixes = true /\ affixes_ok verb_suffixes = true.
Proof. split; vm_compute; reflexivity. Qed.

Lemma verb_pattern_normalized pattern word :
  In pattern Filter.TAGALOG_VERB_PATTERNS ->
  test pattern word = true ->
  existsb (fun p => test p (Str.trim (Str.toLowerCase word)))
          Filter.TAGALOG_VERB_PATTERNS = true.
Proof.
  intros I T. destruct verb_affixes_ok as [Okp Oks].
  assert (S : starts_ci verb_prefixes word \/ ends_ci verb_suffixes word).
  { destruct I as [<-|[<-|[<-|[<-|[]]]]].
    - left. now apply verb_pattern_1.
    - left. now apply verb_pattern_2.
    - right. now apply verb_pattern_3.
    - right. now apply verb_pattern_4. }
  apply existsb_exists. destruct S as [S|S].
  - exists (nth 0 Filter.TAGALOG_VERB_PATTERNS Eps). split; [now left|].
    apply verb_pattern_1. now apply starts_ci_normalized.
  - exists (nth 2 Filter.TAGALOG_VERB_PATTERNS Eps). split; [right; right; now left|].
    apply verb_pattern_3. now apply ends_ci_normalized.
Qed.

(** C7.  A word that matches one of the Tagalog verb patterns is a false
    positive, whatever the full text. *)
Theorem verb_shaped_word_is_false_positive
        (word fullText : jsstring) (pattern : regex) :
  In pattern Filter.TAGALOG_VERB_PATTERNS ->
  test pattern word = true ->
  Filter.isFalsePositive word fullText = true.
Proof.
  intros I T. unfold Filter.isFalsePositive.
  destruct (negb (Str.truthy word)); [reflexivity|].
  destruct (Str.mem _ Filter.FILIPINO_FUNCTION_WORDS); [reflexivity|].
  destruct (Str.mem _ Filter.ENGLISH_FALSE_POSITIVES); [reflexivity|].
  now rewrite (verb_pattern_normalized pattern word I T).
Qed.

Lemma verb_shaped_word_is_false_positive_witness :
  Filter.isFalsePositive (chars " Pangasinan") (chars "Location: Pangasinan") = true.
Proof.
  apply (@verb_shaped_word_is_false_positive
           (chars " Pangasinan") (chars "Location: Pangasinan")
           (nth 2 Filter.TAGALOG_VERB_PATTERNS Eps)).
  - simpl. auto.
  - vm_compute. reflexivity.
Defined.

(** ** Word boundaries *)

Lemma ci_match_same_letters c m : ci_match true c m -> same_letters c m.
Proof.
  unfold same_letters. induction 1 as [|a y c m M F IH]; simpl; [reflexivity|].
  simpl in M. apply Ascii.eqb_eq in M. congruence.
Qed.

Lemma wordPattern_plain word :
  forallb (fun c => negb (Filter.syntax_char c)) word = true ->
  Filter.wordPattern word = Some (Lit true word).
Proof.
  induction word as [|c w IH]; simpl; [reflexivity|].
  intros H. apply andb_true_iff in H as [Hc Hw]. rewrite (IH Hw).
  apply negb_true_iff in Hc.
  destruct (Ascii.eqb c ".") eqn:E.
  - apply Ascii.eqb_eq in E. subst c. discriminate Hc.
  - rewrite Hc. reflexivity.
Qed.

Lemma extractWordWithBoundaries_sound text word m :
  forallb (fun c => negb (Filter.syntax_char c)) word = true ->
  Filter.extractWordWithBoundaries text word = Some (Some m) ->
  exists pre post,
    text = pre ++ m ++ post /\ ci_match true word m /\
    left_bounded pre /\ right_bounded post.
Proof.
  intros P. unfold Filter.extractWordWithBoundaries. rewrite (wordPattern_plain _ P).
  destruct (exec _ text) as [[b e]|] eqn:X; [|discriminate].
  unfold exec in X. apply search_sound in X as (D & skipped & A & S & _).
  change (Seqs [WordB; Lit true word; WordB])
    with (Seq WordB (Seq (Lit true word) WordB)) in D.
  inversion D as [| |r1 r2 c0 c1 c2 D1 D2| | | | | | |]; subst.
  inversion D1; subst.
  inversion D2 as [| |r1 r2 c0 c3 c4 D3 D4| | | | | | |]; subst.
  inversion D4; subst.
  apply Den_Lit in D3 as (x & Ax & Sx & F).
  rewrite app_nil_r in S.
  assert (Sl : slice c1 e = x).
  { unfold slice. rewrite Sx, Ax, length_app, length_rev.
    replace (length x + length (seen c1) - length (seen c1)) with (length x) by lia.
    rewrite firstn_app, firstn_all, Nat.sub_diag. simpl. apply app_nil_r. }
  rewrite Sl.
  destruct (Filter.boundary_char _ && Filter.boundary_char _) eqn:B; [|discriminate].
  intros [= <-]. apply andb_true_iff in B as [B1 B2].
  exists skipped, (ahead e). split; [now rewrite Ax|]. split; [exact F|].
  split.
  - unfold left_bounded. rewrite <- S. destruct (seen c1); [exact I | exact B1].
  - unfold right_bounded. destruct (ahead e); [exact I | exact B2].
Qed.

(** C6, as the code has it.  For a candidate without pattern syntax, a
    valid verdict means that the candidate occurs in the text, up to letter
    case, as a complete token: the returned text is that occurrence, and the
    character on each side of it is white space, one of [, . - ! ? ; :], or
    a string edge. *)
Theorem valid_candidate_occurs_as_token
        (candidate fullText : jsstring) (v : Filter.Validation) :
  forallb (fun c => negb (Filter.syntax_char c)) candidate = true ->
  Filter.validateLocationCandidate candidate fullText = Some v ->
  Filter.isValid v = true ->
  occurs_as_token candidate fullText /\
  exists pre m post,
    v = Filter.Valid m /\ fullText = pre ++ m ++ post /\ same_letters candidate m /\
    left_bounded pre /\ right_bounded post.
Proof.
  intros P H V. unfold Filter.validateLocationCandidate in H.
  destruct (negb (Str.truthy candidate) || _); [injection H as <-; discriminate|].
  destruct (Filter.isFalsePositive _ _); [injection H as <-; discriminate|].
  destruct (negb (Filter.hasLocationContext _)); [injection H as <-; discriminate|].
  destruct (Filter.extractWordWithBoundaries _ _) as [[m|]|] eqn:X;
    [|injection H as <-; discriminate | discriminate].
  injection H as <-.
  apply extractWordWithBoundaries_sound in X as (pre & post & E & F & L & R); [|exact P].
  apply ci_match_same_letters in F.
  split; exists pre, m, post; auto.
Qed.

Lemma valid_candidate_occurs_as_token_witness :
  occurs_as_token (chars "cebu") (chars "Taga Cebu ako").
Proof.
  apply (@valid_candidate_occurs_as_token
           (chars "cebu") (chars "Taga Cebu ako") (Filter.Valid (chars "Cebu"))).
  - vm_compute. reflexivity.
  - vm_compute. reflexivity.
  - reflexivity.
Defined.

(** Letter case is ignored on purpose: an upper-case index key is found in
    lower-case text, and the text's spelling is what is returned. *)
Example valid_candidate_in_another_case :
  Filter.validateLocationCandidate (chars "CEBU") (chars "taga cebu")
    = Some (Filter.Valid (chars "cebu")) /\
  Str.includes (chars "taga cebu") (chars "CEBU") = false.
Proof. split; vm_compute; reflexivity. Qed.

Lemma upper_dot (y : ascii) : Char.upper y = "."%char -> y = "."%char.
Proof.
  intros H.
  pose proof (@forall_ascii
                (fun y => implb (Ascii.eqb (Char.upper y) ".") (Ascii.eqb y "."))) as A.
  specialize (A ltac:(vm_compute; reflexivity) y). cbv beta in A.
  rewrite H in A. simpl in A. now apply Ascii.eqb_eq.
Qed.

(** C6 fails as stated: the candidate "c.bu" is declared valid in a text
    that does not contain it, in any letter case; the [.] of the candidate
    was read as pattern syntax and matched the "e" of "cebu". *)
Lemma valid_candidate_absent_from_text :
  Filter.validateLocationCandidate (chars "c.bu") (chars "taga cebu")
    = Some (Filter.Valid (chars "cebu")) /\
  ~ occurs_as_token (chars "c.bu") (chars "taga cebu").
Proof.
  split; [vm_compute; reflexivity|].
  intros (pre & m & post & E & S & _).
  unfold same_letters in S.
  destruct m as [|y1 [|y2 m]]; try discriminate S.
  simpl in S. injection S as _ S2 _. symmetry in S2. apply upper_dot in S2. subst y2.
  assert (I : In "."%char (chars "taga cebu")).
  { rewrite E. apply in_or_app. right. simpl. auto. }
  vm_compute in I. repeat (destruct I as [I|I]; [discriminate I|]). exact I.
Qed.

(** ** Replacing when nothing matches *)

Lemma search_none r : forall ah sn,
  (forall pre post e, ah = pre ++ post -> ~ Den r (Cursor (rev pre ++ sn) post) e) ->
  search r sn ah = None.
Proof.
  intros ah sn H. destruct (search r sn ah) as [[b e]|] eqn:S; [|reflexivity].
  exfalso. apply search_sound in S as (D & skipped & A & Sn & _).
  apply (H skipped (ahead b) e A). rewrite <- Sn. destruct b. exact D.
Qed.

Lemma replace_all_no_match r repl s :
  search r [] s = None -> replace_all r repl s = s.
Proof. intros H. unfold replace_all. simpl. now rewrite H. Qed.

Lemma replace_no_match r repl s :
  search r [] s = None -> replace r repl s = s.
Proof. intros H. unfold replace, exec. now rewrite H. Qed.

(** ** Splitting a string at the first character of a class *)

Lemma first_split (P : ascii -> bool) (l : jsstring) :
  forallb (fun c => negb (P c)) l = true \/
  exists pre x rest, l = pre ++ x :: rest /\
                     forallb (fun c => negb (P c)) pre = true /\ P x = true.
Proof.
  induction l as [|c l IH]; [now left|].
  destruct (P c) eqn:Pc.
  - right. exists [], c, l. auto.
  - destruct IH as [IH | (pre & x & rest & -> & N & Px)].
    + left. simpl. now rewrite Pc.
    + right. exists (c :: pre), x, rest. simpl. rewrite Pc. auto.
Qed.

Lemma slice_skipped sn pre rest c :
  slice (Cursor sn (pre ++ rest)) (Cursor (rev pre ++ sn) c) = pre.
Proof.
  unfold slice. simpl. rewrite length_app, length_rev.
  replace (length pre + length sn - length sn) with (length pre) by lia.
  rewrite firstn_app, firstn_all, Nat.sub_diag. simpl. apply app_nil_r.
Qed.

(** ** A single character class, replaced everywhere *)

Section ReplaceClass.

Variables (ci : bool) (cs : cset).

Lemma search_Chr_none : forall ah sn,
  forallb (fun c => negb (mem ci cs c)) ah = true ->
  search (Chr ci cs) sn ah = None.
Proof.
  induction ah as [|x ah IH]; intros sn H; simpl; [reflexivity|].
  simpl in H. apply andb_true_iff in H as [Hx H]. apply negb_true_iff in Hx.
  unfold match_at. simpl. rewrite Hx. now apply IH.
Qed.

Lemma search_Chr_some : forall pre sn x rest,
  forallb (fun c => negb (mem ci cs c)) pre = true -> mem ci cs x = true ->
  search (Chr ci cs) sn (pre ++ x :: rest)
  = Some (Cursor (rev pre ++ sn) (x :: rest), Cursor (x :: rev pre ++ sn) rest).
Proof.
  induction pre as [|y pre IH]; intros sn x rest H Hx; simpl.
  - unfold match_at. simpl. now rewrite Hx.
  - simpl in H. apply andb_true_iff in H as [Hy H]. apply negb_true_iff in Hy.
    unfold match_at. simpl. rewrite Hy. rewrite (IH (y :: sn) x rest H Hx).
    now rewrite <- !app_assoc.
Qed.

Lemma map_unmatched (y : ascii) l :
  forallb (fun c => negb (mem ci cs c)) l = true ->
  map (fun c => if mem ci cs c then y else c) l = l.
Proof.
  induction l as [|c l IH]; simpl; [reflexivity|]. intros H.
  apply andb_true_iff in H as [Hc H]. apply negb_true_iff in Hc.
  now rewrite Hc, IH.
Qed.

Lemma replace_from_Chr (y : ascii) : forall fuel ah sn,
  length ah < fuel ->
  replace_from fuel (Chr ci cs) [y] sn ah
  = map (fun c => if mem ci cs c then y else c) ah.
Proof.
  induction fuel as [|fuel IH]; intros ah sn L; [lia|]. simpl.
  destruct (first_split (mem ci cs) ah) as [N | (pre & x & rest & -> & N & Px)].
  - rewrite (search_Chr_none _ _ N). now rewrite map_unmatched.
  - rewrite (search_Chr_some _ _ _ _ N Px). simpl ahead. simpl seen.
    rewrite slice_skipped.
    destruct (Nat.ltb_spec (length rest) (length (x :: rest))) as [_|B]; [|simpl in B; lia].
    rewrite IH by (rewrite length_app in L; simpl in L; lia).
    rewrite map_app. simpl. rewrite Px, (map_unmatched y pre N). reflexivity.
Qed.

Lemma replace_all_Chr (y : ascii) s :
  replace_all (Chr ci cs) [y] s = map (fun c => if mem ci cs c then y else c) s.
Proof. unfold replace_all. apply replace_from_Chr. lia. Qed.

End ReplaceClass.

(** ** Runs of white space, replaced by one space *)

Lemma drop_ws_length s : length (drop_ws s) <= length s.
Proof.
  induction s as [|c s IH]; simpl; [lia|]. destruct (Char.is_space c); simpl; lia.
Qed.

(** The greedy star over [\s] takes the whole run. *)
Lemma star_ws_greedy : forall fuel ah sn,
  length ah <= fuel ->
  star_loop true (rmatch ws) fuel (Cursor sn ah) (fun c => Some c)
  = Some (Cursor (rev (take_ws ah) ++ sn) (drop_ws ah)).
Proof.
  induction fuel as [|fuel IH]; intros ah sn L.
  - destruct ah; [reflexivity | simpl in L; lia].
  - destruct ah as [|x ah]; [reflexivity|]. simpl in L.
    cbn [star_loop]. unfold ws at 1. cbn [rmatch ahead seen mem].
    destruct (Char.is_space x) eqn:Sx; cbn [take_ws drop_ws]; rewrite Sx.
    + cbn [ahead].
      destruct (Nat.ltb_spec (length ah) (length (x :: ah))) as [_|B]; [|simpl in B; lia].
      rewrite IH by lia. simpl. now rewrite <- app_assoc.
    + reflexivity.
Qed.

Lemma match_at_ws_plus sn ah :
  match_at ws_plus (Cursor sn ah) =
  match ah with
  | x :: rest =>
      if Char.is_space x
      then Some (Cursor (rev (take_ws rest) ++ x :: sn) (drop_ws rest))
      else None
  | [] => None
  end.
Proof.
  unfold match_at, ws_plus, Plus. cbn [rmatch]. unfold ws at 1. cbn [rmatch ahead seen mem].
  destruct ah as [|x rest]; [reflexivity|].
  destruct (Char.is_space x); [|reflexivity].
  cbn [ahead]. now rewrite star_ws_greedy.
Qed.

Lemma search_ws_plus_none : forall ah sn,
  forallb (fun c => negb (Char.is_space c)) ah = true ->
  search ws_plus sn ah = None.
Proof.
  induction ah as [|x ah IH]; intros sn H; cbn [search]; rewrite match_at_ws_plus;
    [reflexivity|].
  simpl in H. apply andb_true_iff in H as [Hx H]. apply negb_true_iff in Hx.
  rewrite Hx. now apply IH.
Qed.

Lemma search_ws_plus_some : forall pre sn x rest,
  forallb (fun c => negb (Char.is_space c)) pre = true -> Char.is_space x = true ->
  search ws_plus sn (pre ++ x :: rest)
  = Some (Cursor (rev pre ++ sn) (x :: rest),
          Cursor (rev (take_ws rest) ++ x :: rev pre ++ sn) (drop_ws rest)).
Proof.
  induction pre as [|y pre IH]; intros sn x rest H Hx.
  - cbn [app search]. rewrite match_at_ws_plus, Hx. reflexivity.
  - simpl in H. apply andb_true_iff in H as [Hy H]. apply negb_true_iff in Hy.
    cbn [app search]. rewrite match_at_ws_plus, Hy.
    rewrite (IH (y :: sn) x rest H Hx). simpl. now rewrite <- !app_assoc.
Qed.

Lemma collapse_in_run s : collapse true s = collapse false (drop_ws s).
Proof.
  induction s as [|c s IH]; [reflexivity|]. simpl.
  destruct (Char.is_space c) eqn:E; [exact IH|]. simpl. now rewrite E.
Qed.

Lemma collapse_unspaced b pre rest :
  forallb (fun c => negb (Char.is_space c)) pre = true ->
  collapse b (pre ++ rest) = pre ++ collapse (match pre with [] => b | _ => false end) rest.
Proof.
  revert b. induction pre as [|c pre IH]; intros b H; [reflexivity|].
  simpl in H. apply andb_true_iff in H as [Hc H]. apply negb_true_iff in Hc.
  simpl. rewrite Hc, (IH false H). destruct pre; reflexivity.
Qed.

Lemma replace_from_ws_plus : forall fuel ah sn,
  length ah < fuel ->
  replace_from fuel ws_plus [" "%char] sn ah = collapse false ah.
Proof.
  induction fuel as [|fuel IH]; intros ah sn L; [lia|]. cbn [replace_from].
  destruct (first_split Char.is_space ah) as [N | (pre & x & rest & -> & N & Px)].
  - rewrite (search_ws_plus_none _ _ N).
    rewrite <- (app_nil_r ah) at 2. rewrite collapse_unspaced by exact N.
    simpl. now rewrite app_nil_r.
  - rewrite (search_ws_plus_some _ _ _ _ N Px). cbn [ahead seen].
    rewrite slice_skipped.
    pose proof (drop_ws_length rest) as Ld.
    destruct (Nat.ltb_spec (length (drop_ws rest)) (length (x :: rest))) as [_|B];
      [|simpl in B; lia].
    rewrite IH by (rewrite length_app in L; simpl in L; lia).
    rewrite collapse_unspaced by exact N.
    assert (E : forall b, collapse b (x :: rest) =
                          (if b then [] else [" "%char]) ++ collapse false (drop_ws rest)).
    { intros b. simpl. rewrite Px, collapse_in_run. now destruct b. }
    rewrite E. destruct pre; reflexivity.
Qed.

Lemma replace_all_ws_plus s :
  replace_all ws_plus [" "%char] s = collapse false s.
Proof. unfold replace_all. apply replace_from_ws_plus. lia. Qed.

(** ** Keys *)

Ltac by_cases_on_char P c :=
  let A := fresh "A" in
  pose proof (@forall_ascii P) as A;
  specialize (A ltac:(vm_compute; reflexivity) c); cbv beta in A.

Lemma keyletter_not_space c : keyletter c = true -> Char.is_space c = false.
Proof.
  intros K. by_cases_on_char (fun c => implb (keyletter c) (negb (Char.is_space c))) c.
  rewrite K in A. now apply negb_true_iff.
Qed.

Lemma keyletter_lower c : keyletter c = true -> Char.lower c = c.
Proof.
  intros K. by_cases_on_char (fun c => implb (keyletter c) (Ascii.eqb (Char.lower c) c)) c.
  rewrite K in A. now apply Ascii.eqb_eq.
Qed.

Lemma keyletter_not_special c : keyletter c = true -> special c = false.
Proof.
  intros K. by_cases_on_char (fun c => implb (keyletter c) (negb (special c))) c.
  rewrite K in A. now apply negb_true_iff.
Qed.

Lemma unspecial_is_key_or_space c :
  let c' := if special c then " "%char else c in
  keyletter c' || Char.is_space c' = true.
Proof.
  by_cases_on_char (fun c => let c' := if special c then " "%char else c in
                             keyletter c' || Char.is_space c') c.
  exact A.
Qed.

Lemma space_not_keyletter c : Char.is_space c = true -> keyletter c = false.
Proof.
  intros S. destruct (keyletter c) eqn:K; [|reflexivity].
  apply keyletter_not_space in K. congruence.
Qed.

(** Every character of a well-spaced string is a space or a key letter. *)
Lemma spaced_ok_chars : forall s b c,
  spaced_ok b s = true -> In c s -> c = " "%char \/ keyletter c = true.
Proof.
  induction s as [|x s IH]; intros b c H I; [contradiction|].
  simpl in H. destruct (Ascii.eqb x " ") eqn:E.
  - apply andb_true_iff in H as [_ H]. destruct I as [<-|I].
    + left. now apply Ascii.eqb_eq.
    + eapply IH; eauto.
  - apply andb_true_iff in H as [K H]. destruct I as [<-|I].
    + now right.
    + eapply IH; eauto.
Qed.

Lemma spaced_ok_weaken s : spaced_ok true s = true -> spaced_ok false s = true.
Proof.
  destruct s as [|c s]; simpl; [auto|]. destruct (Ascii.eqb c " "); [discriminate | auto].
Qed.

Lemma spaced_ok_prefix : forall l1 l2 b,
  spaced_ok b (l1 ++ l2) = true -> spaced_ok b l1 = true.
Proof.
  induction l1 as [|c l1 IH]; intros l2 b H; [reflexivity|]. simpl in *.
  destruct (Ascii.eqb c " "); apply andb_true_iff in H as [H1 H2];
    apply andb_true_iff; split; eauto.
Qed.

Lemma spaced_ok_trimStart_id s : spaced_ok true s = true -> Str.trimStart s = s.
Proof.
  destruct s as [|c s]; [reflexivity|]. simpl.
  destruct (Ascii.eqb c " "); [discriminate|]. intros H.
  apply andb_true_iff in H as [K _]. now rewrite (keyletter_not_space _ K).
Qed.

Lemma spaced_ok_trimStart s :
  spaced_ok false s = true -> spaced_ok true (Str.trimStart s) = true.
Proof.
  destruct s as [|c s]; [reflexivity|]. simpl.
  destruct (Ascii.eqb c " ") eqn:E.
  - apply Ascii.eqb_eq in E. subst c. simpl. intros H.
    now rewrite (spaced_ok_trimStart_id _ H).
  - intros H. pose proof H as H'. apply andb_true_iff in H as [K _].
    rewrite (keyletter_not_space _ K). simpl. now rewrite E.
Qed.

Lemma trimStart_suffix s : exists d, s = d ++ Str.trimStart s.
Proof.
  induction s as [|c s [d IH]]; [now exists []|]. simpl.
  destruct (Char.is_space c); [|now exists []].
  exists (c :: d). simpl. now rewrite <- IH.
Qed.

Lemma trimEnd_prefix s : exists t, s = Str.trimEnd s ++ t.
Proof.
  unfold Str.trimEnd. destruct (trimStart_suffix (rev s)) as [d E].
  exists (rev d). rewrite <- rev_app_distr, <- E. now rewrite rev_involutive.
Qed.

Lemma trimStart_idem s : Str.trimStart (Str.trimStart s) = Str.trimStart s.
Proof.
  induction s as [|c s IH]; [reflexivity|]. simpl.
  destruct (Char.is_space c) eqn:E; [exact IH|]. simpl. now rewrite E.
Qed.

Lemma trimEnd_idem s : Str.trimEnd (Str.trimEnd s) = Str.trimEnd s.
Proof. unfold Str.trimEnd. now rewrite rev_involutive, trimStart_idem. Qed.

Lemma collapse_spaced : forall s b,
  Forall (fun c => keyletter c || Char.is_space c = true) s ->
  spaced_ok b (collapse b s) = true.
Proof.
  induction s as [|c s IH]; intros b F; [reflexivity|].
  inversion F as [|c' s' Hc Fs]; subst. simpl.
  destruct (Char.is_space c) eqn:S.
  - destruct b; [now apply IH|]. simpl. now apply IH.
  - rewrite ?S, orb_false_r in Hc. simpl.
    destruct (Ascii.eqb c " ") eqn:E.
    + apply Ascii.eqb_eq in E. subst c. discriminate S.
    + rewrite Hc. simpl. now apply IH.
Qed.

Lemma collapse_id : forall s b, spaced_ok b s = true -> collapse b s = s.
Proof.
  induction s as [|c s IH]; intros b H; [reflexivity|]. simpl in *.
  destruct (Ascii.eqb c " ") eqn:E.
  - apply Ascii.eqb_eq in E. subst c. simpl.
    apply andb_true_iff in H as [B H]. apply negb_true_iff in B. subst b.
    now rewrite (IH true H).
  - apply andb_true_iff in H as [K H]. rewrite (keyletter_not_space _ K).
    now rewrite (IH false H).
Qed.

(** The output of [normalizeKey] is a key in normal form. *)
Lemma normalizeKey_clean (text : jsstring) : clean (normalizeKey text).
Proof.
  unfold normalizeKey. destruct (negb (Str.truthy text)).
  { split; reflexivity. }
  cbv zeta. set (s4 := replace re_city_suffix [] _).
  change (chars " ") with [" "%char]. unfold re_spaces, re_special.
  rewrite replace_all_ws_plus, replace_all_Chr.
  set (s5 := map _ s4).
  assert (F : Forall (fun c => keyletter c || Char.is_space c = true) s5).
  { subst s5. apply Forall_forall. intros c I. apply in_map_iff in I as (c0 & <- & _).
    apply (unspecial_is_key_or_space c0). }
  pose proof (collapse_spaced s5 false F) as H6.
  apply spaced_ok_trimStart in H6.
  unfold Str.trim. split.
  - destruct (trimEnd_prefix (Str.trimStart (collapse false s5))) as [t E].
    rewrite E in H6. now apply spaced_ok_prefix in H6.
  - apply trimEnd_idem.
Qed.

(** ** A key in normal form is left alone, unless an affix rule applies *)

Lemma startsWith_app p r : Str.startsWith (p ++ r) p = true.
Proof.
  induction p as [|c p IH]; simpl; [now destruct r|].
  now rewrite Ascii.eqb_refl.
Qed.

Lemma endsWith_app a p : Str.endsWith (a ++ p) p = true.
Proof. unfold Str.endsWith. rewrite rev_app_distr. apply startsWith_app. Qed.

Lemma toLowerCase_id k :
  (forall c, In c k -> c = " "%char \/ keyletter c = true) -> Str.toLowerCase k = k.
Proof.
  intros H. unfold Str.toLowerCase. rewrite <- (map_id k) at 2.
  apply map_ext_in. intros c I. destruct (H c I) as [->|K]; [reflexivity|].
  now apply keyletter_lower.
Qed.

Lemma map_app_id {A : Type} (f : A -> A) (a b : list A) :
  map f (a ++ b) = a ++ b -> map f a = a /\ map f b = b.
Proof.
  rewrite map_app. intros H. apply app_inj_tail_iff || idtac.
  assert (L : length (map f a) = length a) by apply length_map.
  revert H L. generalize (map f a) (map f b). intros a' b'. revert a'.
  induction a as [|x a IH]; intros [|y a'] H L; simpl in *; try discriminate.
  - auto.
  - injection H as -> H. injection L as L. destruct (IH _ H L) as [-> ->]. auto.
Qed.

(** No parenthetical note in a key. *)
Lemma no_parenthetical k : key_chars k -> search re_parenthetical [] k = None.
Proof.
  intros Kc. apply search_none. intros pre post e E D.
  change re_parenthetical
    with (Seq ws_star (Seq (Seq (Chr false (One "(")) Eps)
                           (Seqs [Star false (Chr false Dot); lit ")"; ws_star]))) in D.
  inversion D as [| |r1 r2 c0 c1 c2 D1 D2| | | | | | |]; subst.
  inversion D2 as [| |r1 r2 c0 c3 c4 D3 D4| | | | | | |]; subst.
  inversion D3 as [| |r1 r2 c0 c5 c6 D5 D6| | | | | | |]; subst.
  inversion D5; subst.
  apply Den_span in D1 as (mid & A & _). simpl in A.
  change (Ascii.eqb "(" x = true) in H3. apply Ascii.eqb_eq in H3. subst x.
  destruct (Kc "("%char) as [C|C]; [|discriminate C|discriminate C].
  rewrite A. apply in_or_app. right. apply in_or_app. right. now left.
Qed.

(** A lower-case prefix that the key does not have is not found. *)
Lemma no_prefix k (p : string) (tail : regex) :
  key_chars k ->
  forallb Char.is_lower (chars p) = true ->
  Str.startsWith k (chars p) = false ->
  search (Seq Bol (Seq (liti p) tail)) [] k = None.
Proof.
  intros Kc L N. apply search_none. intros pre post e E D.
  inversion D as [| |r1 r2 c0 c1 c2 D1 D2| | | | | | |]; subst.
  inversion D1; subst. simpl in H.
  assert (pre = []) as ->.
  { destruct pre as [|y pre]; [reflexivity|]. rewrite app_nil_r in H. simpl in H.
    apply (f_equal (@length _)) in H. rewrite length_app in H. simpl in H. lia. }
  inversion D2 as [| |r1 r2 c0 c3 c4 D3 D4| | | | | | |]; subst.
  apply Den_Lit in D3 as (x & A & _ & F). simpl in A.
  pose proof (toLowerCase_id _ Kc) as Lk. unfold Str.toLowerCase in Lk.
  simpl in Lk. rewrite A in Lk.
  apply map_app_id in Lk as [Lx _].
  pose proof (ci_match_lower _ _ L F) as Lp. unfold Str.toLowerCase in Lp.
  rewrite Lx in Lp. subst x. simpl in N. rewrite A, startsWith_app in N. discriminate.
Qed.

Lemma Den_star_ws g c c' :
  Den (Star g ws) c c' ->
  exists mid, ahead c = mid ++ ahead c' /\ forallb Char.is_space mid = true.
Proof.
  remember (Star g ws) as r eqn:R. induction 1; try discriminate.
  - now exists [].
  - injection R as -> ->. inversion H; subst.
    destruct (IHDen2 eq_refl) as (mid & A & S). simpl in *.
    exists (x :: mid). rewrite A. simpl. now rewrite H6, S.
Qed.

(** No [" city"] suffix rule for a key that does not end so. *)
Lemma no_city_suffix k :
  key_chars k ->
  Str.endsWith k (chars " city") = false -> search re_city_suffix [] k = None.
Proof.
  intros Kc N. apply search_none. intros pre post e E D.
  change re_city_suffix with (Seq (Seq ws (Star true ws)) (Seq (liti "city") Eol)) in D.
  inversion D as [| |r1 r2 c0 c1 c2 D1 D2| | | | | | |]; subst.
  inversion D1 as [| |r1 r2 c0 c3 c4 D3 D4| | | | | | |]; subst.
  inversion D3; subst.
  apply Den_star_ws in D4 as (mid & A & S). simpl in A.
  inversion D2 as [| |r1 r2 c0 c5 c6 D5 D6| | | | | | |]; subst.
  inversion D6; subst.
  apply Den_Lit in D5 as (y & Ay & _ & F). rewrite H, app_nil_r in Ay.
  rewrite Ay in *. clear Ay.
  (* the key is pre ++ x :: mid ++ y, with y = "city" up to case *)
  pose proof (toLowerCase_id _ Kc) as Lk. unfold Str.toLowerCase in Lk.
  change (x :: mid ++ y) with ((x :: mid) ++ y) in Lk.
  rewrite app_assoc in Lk. apply map_app_id in Lk as [_ Ly].
  pose proof (@ci_match_lower (chars "city") y eq_refl F) as Lc.
  unfold Str.toLowerCase in Lc. rewrite Ly in Lc. subst y.
  (* the last white-space character before it is a space *)
  assert (W : exists q w, x :: mid = q ++ [w] /\ Char.is_space w = true).
  { destruct (@exists_last _ (x :: mid)) as (q & w & Eq); [discriminate|].
    exists q, w. split; [exact Eq|].
    assert (I : In w (x :: mid)). { rewrite Eq. apply in_or_app. right. now left. }
    destruct I as [<-|I]; [exact H4|]. rewrite forallb_forall in S. now apply S. }
  destruct W as (q & w & Eq & Sw).
  assert (w = " "%char) as ->.
  { destruct (Kc w) as [C|C]; [|exact C|].
    - apply in_or_app. right. change (x :: mid ++ chars "city") with ((x :: mid) ++ chars "city").
      rewrite Eq. apply in_or_app. left. apply in_or_app. right. now left.
    - apply space_not_keyletter in Sw. congruence. }
  change (x :: mid ++ chars "city") with ((x :: mid) ++ chars "city") in N.
  rewrite Eq in N. rewrite <- app_assoc in N. simpl in N.
  rewrite app_assoc in N.
  change (" "%char :: chars "city") with (chars " city") in N.
  rewrite endsWith_app in N. discriminate.
Qed.

Lemma unspecial_id k :
  key_chars k ->
  map (fun c => if mem false (Not (Union (Range "a" "z") (Union (Range "0" "9") Space))) c
                then " "%char else c) k = k.
Proof.
  intros Kc. rewrite <- (map_id k) at 2. apply map_ext_in. intros c I.
  destruct (Kc c I) as [->|K]; [reflexivity|].
  apply keyletter_not_special in K. unfold special in K. now rewrite K.
Qed.

Lemma normalizeKey_fixed (k : jsstring) :
  clean k ->
  Str.startsWith k (chars "brgy") = false ->
  Str.startsWith k (chars "barangay") = false ->
  Str.endsWith k (chars " city") = false ->
  normalizeKey k = k.
Proof.
  intros [Sp Te] N1 N2 N3.
  assert (Kc : forall c, In c k -> c = " "%char \/ keyletter c = true).
  { intros c. now apply spaced_ok_chars with (b := true). }
  unfold normalizeKey. destruct (negb (Str.truthy k)) eqn:T.
  { destruct k; [reflexivity | discriminate]. }
  cbv zeta. rewrite (toLowerCase_id k Kc).
  rewrite (replace_all_no_match _ _ _ (no_parenthetical k Kc)).
  rewrite (replace_no_match _ _ _
             (no_prefix k "brgy" (Seq (Opt (Chr true (One "."%char))) ws_star) Kc eq_refl N1)).
  rewrite (replace_no_match _ _ _ (no_prefix k "barangay" ws_star Kc eq_refl N2)).
  rewrite (replace_no_match _ _ _ (no_city_suffix k Kc N3)).
  change (chars " ") with [" "%char]. unfold re_spaces, re_special.
  rewrite replace_all_Chr, (unspecial_id k Kc), replace_all_ws_plus.
  rewrite (collapse_id k false (spaced_ok_weaken k Sp)).
  unfold Str.trim. now rewrite (spaced_ok_trimStart_id k Sp).
Qed.

(** ** A key that carries an affix is not a fixed point *)

Lemma startsWith_split : forall p s,
  Str.startsWith s p = true -> exists r, s = p ++ r.
Proof.
  induction p as [|c p IH]; intros s H; [now exists s|].
  destruct s as [|y s]; [discriminate|]. simpl in H.
  apply andb_true_iff in H as [E H]. apply Ascii.eqb_eq in E. subst y.
  destruct (IH s H) as [r ->]. now exists r.
Qed.

Lemma endsWith_split p s :
  Str.endsWith s p = true -> exists r, s = r ++ p.
Proof.
  unfold Str.endsWith. intros H. apply startsWith_split in H as [r E].
  exists (rev r). apply (f_equal (@rev _)) in E.
  now rewrite rev_involutive, rev_app_distr, rev_involutive in E.
Qed.

(** Deleting a match never lengthens the string, and shortens it by the
    length of the match. *)
Lemma replace_delete_length r s :
  match exec r s with
  | Some (b, e) =>
      length (replace r [] s) + (length (ahead b) - length (ahead e)) = length s /\
      length (ahead e) <= length (ahead b) /\ Den r b e
  | None => replace r [] s = s
  end.
Proof.
  unfold replace. destruct (exec r s) as [[b e]|] eqn:X; [|reflexivity].
  unfold exec in X. apply search_sound in X as (D & skipped & A & S & _).
  destruct (Den_span _ _ _ D) as (mid & Am & _).
  rewrite app_nil_r in S. simpl. rewrite length_app, S, !length_rev, A, Am, !length_app.
  repeat split; [lia | lia | exact D].
Qed.

Lemma replace_delete_le r s : length (replace r [] s) <= length s.
Proof.
  pose proof (replace_delete_length r s) as H.
  destruct (exec r s) as [[b e]|]; [lia | now rewrite H].
Qed.

Lemma collapse_length : forall s b, length (collapse b s) <= length s.
Proof.
  induction s as [|c s IH]; intros b; simpl; [lia|].
  destruct (Char.is_space c); [destruct b|]; simpl;
    [pose proof (IH true) | pose proof (IH true) | pose proof (IH false)]; lia.
Qed.

Lemma trim_length s : length (Str.trim s) <= length s.
Proof.
  unfold Str.trim.
  destruct (trimStart_suffix s) as [d E].
  destruct (trimEnd_prefix (Str.trimStart s)) as [t E'].
  apply (f_equal (@length _)) in E, E'. rewrite length_app in E, E'. lia.
Qed.

(** What the last three steps and the two optional deletions leave is no
    longer than what they receive. *)
Lemma normalizeKey_tail_length s :
  length (Str.trim (replace_all re_spaces (chars " ")
                      (replace_all re_special (chars " ") s))) <= length s.
Proof.
  change (chars " ") with [" "%char]. unfold re_spaces, re_special.
  rewrite replace_all_ws_plus, replace_all_Chr.
  etransitivity; [apply trim_length|].
  etransitivity; [apply collapse_length|]. now rewrite length_map.
Qed.

(** A literal prefix is matched and deleted. *)
Lemma delete_prefix_length (p : string) (tail : regex) k c' :
  Str.startsWith k (chars p) = true ->
  Den tail (Cursor (rev (chars p)) (skipn (length (chars p)) k)) c' ->
  length (replace (Seq Bol (Seq (liti p) tail)) [] k) + length (chars p) <= length k.
Proof.
  intros Sw Dt. apply startsWith_split in Sw as [r ->].
  rewrite skipn_app, skipn_all, Nat.sub_diag in Dt. simpl in Dt.
  pose proof (replace_delete_length (Seq Bol (Seq (liti p) tail)) (chars p ++ r)) as H.
  destruct (exec _ _) as [[b e]|] eqn:X.
  - destruct H as (L & Le & D).
    inversion D as [| |r1 r2 c0 c1 c2 D1 D2| | | | | | |]; subst.
    inversion D1; subst.
    inversion D2 as [| |r1 r2 c0 c3 c4 D3 D4| | | | | | |]; subst.
    apply Den_Lit in D3 as (x & A & _ & F).
    destruct (Den_span _ _ _ D4) as (mid & Am & _).
    apply ci_match_length in F.
    rewrite A, Am, !length_app in L. rewrite A, Am, !length_app in Le.
    rewrite length_app. lia.
  - exfalso. unfold exec in X.
    apply (@search_complete (Seq Bol (Seq (liti p) tail)) [] [] (chars p ++ r) c');
      [|exact X].
    simpl. apply DSeq with (c1 := Cursor [] (chars p ++ r)); [now constructor|].
    apply DSeq with (c1 := Cursor (rev (chars p)) r); [|exact Dt].
    apply Den_Lit. exists (chars p). simpl. rewrite app_nil_r.
    repeat split. apply ci_match_refl.
Qed.

Lemma delete_city_suffix_length k :
  Str.endsWith k (chars " city") = true ->
  length (replace re_city_suffix [] k) + 5 <= length k.
Proof.
  intros Ew. apply endsWith_split in Ew as [r ->].
  pose proof (replace_delete_length re_city_suffix (r ++ chars " city")) as H.
  destruct (exec _ _) as [[b e]|] eqn:X.
  - destruct H as (L & Le & D).
    change re_city_suffix with (Seq (Seq ws (Star true ws)) (Seq (liti "city") Eol)) in D.
    inversion D as [| |r1 r2 c0 c1 c2 D1 D2| | | | | | |]; subst.
    inversion D1 as [| |r1 r2 c0 c3 c4 D3 D4| | | | | | |]; subst.
    inversion D3; subst.
    inversion D2 as [| |r1 r2 c0 c5 c6 D5 D6| | | | | | |]; subst.
    apply Den_Lit in D5 as (x' & A & _ & F). apply ci_match_length in F.
    destruct (Den_span _ _ _ D4) as (mid & Am & _). destruct (Den_span _ _ _ D6) as (m6 & A6 & _).
    cbn [ahead] in *. rewrite Am, A, A6 in L, Le. cbn [length] in L, Le.
    rewrite !length_app in L, Le. rewrite length_app.
    change (length (chars "city")) with 4 in F.
    rewrite (length_app r (chars " city")) in L.
    change (length (chars " city")) with 5 in *. lia.
  - exfalso. unfold exec in X.
    apply (@search_complete re_city_suffix r [] (chars " city")
             (Cursor (rev (chars " city") ++ rev r) [])); [|exact X].
    rewrite app_nil_r.
    change re_city_suffix with (Seq (Seq ws (Star true ws)) (Seq (liti "city") Eol)).
    apply DSeq with (c1 := Cursor (" "%char :: rev r) (chars "city")).
    + apply DSeq with (c1 := Cursor (" "%char :: rev r) (chars "city")).
      * now constructor.
      * constructor.
    + apply DSeq with (c1 := Cursor (rev (chars " city") ++ rev r) []).
      * apply Den_Lit. exists (chars "city"). repeat split. apply ci_match_refl.
      * now constructor.
Qed.

(** A key in normal form with one of the three affixes gets shorter. *)
Lemma normalizeKey_affixed_shrinks (k : jsstring) :
  clean k ->
  Str.startsWith k (chars "brgy") = true \/
  Str.startsWith k (chars "barangay") = true \/
  Str.endsWith k (chars " city") = true ->
  length (normalizeKey k) < length k.
Proof.
  intros [Sp Te] Aff.
  assert (Kc : key_chars k).
  { intros c. now apply spaced_ok_chars with (b := true). }
  assert (Ne : Str.truthy k = true).
  { destruct Aff as [H|[H|H]]; destruct k; try reflexivity; discriminate H. }
  unfold normalizeKey. rewrite Ne. cbv zeta. simpl negb. cbv iota.
  rewrite (toLowerCase_id k Kc).
  rewrite (replace_all_no_match _ _ _ (no_parenthetical k Kc)).
  set (s2 := replace re_brgy_prefix [] k).
  set (s3 := replace re_barangay_prefix [] s2).
  set (s4 := replace re_city_suffix [] s3).
  pose proof (normalizeKey_tail_length s4) as L5.
  assert (L4 : length s4 <= length s3) by apply replace_delete_le.
  assert (L3 : length s3 <= length s2) by apply replace_delete_le.
  assert (L2 : length s2 <= length k) by apply replace_delete_le.
  destruct (Str.startsWith k (chars "brgy")) eqn:P1.
  { assert (L : length s2 + 4 <= length k).
    { subst s2.
      apply (@delete_prefix_length "brgy" (Seq (Opt (Chr true (One "."%char))) ws_star) k
               (Cursor (rev (chars "brgy")) (skipn 4 k)) P1).
      apply DSeq with (c1 := Cursor (rev (chars "brgy")) (skipn 4 k)).
      - apply DAltR. constructor.
      - constructor. }
    lia. }
  assert (E2 : s2 = k).
  { subst s2. apply replace_no_match.
    now apply (@no_prefix k "brgy" (Seq (Opt (Chr true (One "."%char))) ws_star) Kc). }
  destruct (Str.startsWith k (chars "barangay")) eqn:P2.
  { assert (L : length s3 + 8 <= length k).
    { subst s3. rewrite E2.
      apply (@delete_prefix_length "barangay" ws_star k
               (Cursor (rev (chars "barangay")) (skipn 8 k)) P2).
      constructor. }
    lia. }
  assert (E3 : s3 = k).
  { subst s3. rewrite E2. apply replace_no_match.
    now apply (@no_prefix k "barangay" ws_star Kc). }
  destruct Aff as [H|[H|H]]; try discriminate H.
  assert (L : length s4 + 5 <= length k).
  { subst s4. rewrite E3. now apply delete_city_suffix_length. }
  lia.
Qed.

(** C5, as the code has it.  The result of [normalizeKey] is a key of
    lower-case letters and digits in words separated by single spaces, and
    normalizing it again returns it unchanged exactly when it neither begins
    with "brgy" or "barangay" nor ends with " city": the prefix and suffix
    rules apply once per call. *)
Theorem normalizeKey_idempotent_unless_affixed (text : jsstring) :
  clean (normalizeKey text) /\
  (normalizeKey (normalizeKey text) = normalizeKey text <->
   Str.startsWith (normalizeKey text) (chars "brgy") = false /\
   Str.startsWith (normalizeKey text) (chars "barangay") = false /\
   Str.endsWith (normalizeKey text) (chars " city") = false).
Proof.
  pose proof (normalizeKey_clean text) as C. split; [exact C|]. split.
  - intros E.
    destruct (Str.startsWith (normalizeKey text) (chars "brgy")) eqn:P1;
      [|destruct (Str.startsWith (normalizeKey text) (chars "barangay")) eqn:P2;
        [|destruct (Str.endsWith (normalizeKey text) (chars " city")) eqn:P3;
          [|auto]]];
      exfalso;
      assert (L : length (normalizeKey (normalizeKey text)) < length (normalizeKey text))
        by (apply normalizeKey_affixed_shrinks; auto);
      rewrite E in L; lia.
  - intros (P1 & P2 & P3). now apply normalizeKey_fixed.
Qed.

Lemma normalizeKey_idempotent_unless_affixed_witness :
  normalizeKey (normalizeKey (chars "Brgy. San-Jose  (Pob.)"))
  = normalizeKey (chars "Brgy. San-Jose  (Pob.)").
Proof.
  apply (proj2 (proj2 (normalizeKey_idempotent_unless_affixed
                         (chars "Brgy. San-Jose  (Pob.)")))).
  repeat split; vm_compute; reflexivity.
Defined.

(** C5 fails as stated: normalizing "brgy brgy x" gives "brgy x", and
    normalizing that gives "x"; likewise for a doubled " city". *)
Lemma normalizeKey_not_idempotent :
  normalizeKey (chars "brgy brgy x") = chars "brgy x" /\
  normalizeKey (normalizeKey (chars "brgy brgy x")) = chars "x" /\
  normalizeKey (normalizeKey (chars "brgy brgy x")) <> normalizeKey (chars "brgy brgy x") /\
  normalizeKey (normalizeKey (chars "Quezon-City City")) <> normalizeKey (chars "Quezon-City City").
Proof.
  repeat split; try (vm_compute; reflexivity); vm_compute; discriminate.
Qed.

(** ** Matches part by part *)

Lemma match_parts_sound rs : forall c ends,
  Cap.match_parts rs c = Some ends -> DenParts rs c ends.
Proof.
  induction rs as [|r rs IH]; intros c ends; cbn [Cap.match_parts].
  - intros [= <-]. constructor.
  - destruct (rmatch r c _) as [c1|] eqn:M; [|discriminate].
    apply rmatch_sound in M as (c' & D & K).
    destruct (Cap.match_parts rs c') as [l'|] eqn:M'; [|discriminate].
    injection K as <-. rewrite M'. intros [= <-].
    constructor; [exact D | now apply IH].
Qed.

Lemma match_parts_complete rs : forall c ends,
  DenParts rs c ends -> Cap.match_parts rs c <> None.
Proof.
  induction rs as [|r rs IH]; intros c ends D; cbn [Cap.match_parts].
  - discriminate.
  - inversion D as [|? ? ? c1 l D1 D2]; subst.
    pose proof (IH _ _ D2) as N.
    destruct (rmatch r c _) as [c1'|] eqn:M.
    + apply rmatch_sound in M as (c' & _ & K).
      destruct (Cap.match_parts rs c') as [l'|] eqn:M'; [|discriminate].
      injection K as <-. rewrite M'. discriminate.
    + exfalso. revert M. eapply rmatch_complete; [exact D1|].
      destruct (Cap.match_parts rs c1); [discriminate | congruence].
Qed.

(** When the parts can match in one way only, that is the match found. *)
Lemma match_parts_unique rs c ends :
  DenParts rs c ends ->
  (forall ends', DenParts rs c ends' -> ends' = ends) ->
  Cap.match_parts rs c = Some ends.
Proof.
  intros D U. destruct (Cap.match_parts rs c) as [l|] eqn:M.
  - f_equal. apply U. now apply match_parts_sound.
  - exfalso. revert M. eapply match_parts_complete; eauto.
Qed.

Lemma match_parts_none rs c :
  (forall ends, ~ DenParts rs c ends) -> Cap.match_parts rs c = None.
Proof.
  intros H. destruct (Cap.match_parts rs c) as [l|] eqn:M; [|reflexivity].
  exfalso. apply (H l). now apply match_parts_sound.
Qed.

(** A pattern that begins with [^] matches at the start or nowhere. *)
Lemma search_anchored_later rs : forall ah sn,
  sn <> [] -> Cap.search (Bol :: rs) sn ah = None.
Proof.
  induction ah as [|x ah IH]; intros sn N; cbn [Cap.search Cap.match_parts rmatch seen];
    destruct sn as [|y sn]; try congruence.
  apply IH. discriminate.
Qed.

Lemma search_anchored rs s :
  Cap.search (Bol :: rs) [] s =
  match Cap.match_parts (Bol :: rs) (Cursor [] s) with
  | Some ends => Some (Cursor [] s, ends)
  | None => None
  end.
Proof.
  destruct s as [|x s]; cbn [Cap.search].
  - destruct (Cap.match_parts _ _); reflexivity.
  - destruct (Cap.match_parts _ _); [reflexivity|].
    apply search_anchored_later. discriminate.
Qed.

(** ** Positions and the text between them *)

Lemma consumes_nil c : consumes c [] c.
Proof. split; reflexivity. Qed.

Lemma consumes_app c x c1 y c2 :
  consumes c x c1 -> consumes c1 y c2 -> consumes c (x ++ y) c2.
Proof.
  intros [A1 S1] [A2 S2]. split.
  - now rewrite A1, A2, app_assoc.
  - now rewrite S2, S1, rev_app_distr, app_assoc.
Qed.

Lemma consumes_cursor sn x rest c' :
  consumes (Cursor sn (x ++ rest)) x c' <-> c' = Cursor (rev x ++ sn) rest.
Proof.
  split.
  - intros [A S]. destruct c' as [sn' ah']. cbn [ahead seen] in *.
    apply app_inv_head in A. now subst.
  - intros ->. split; reflexivity.
Qed.

Lemma consumes_slice c x c' : consumes c x c' -> slice c c' = x.
Proof.
  intros [A S]. unfold slice. rewrite S, A, length_app, length_rev.
  replace (length x + length (seen c) - length (seen c)) with (length x) by lia.
  rewrite firstn_app, firstn_all, Nat.sub_diag. simpl. apply app_nil_r.
Qed.

Lemma Den_consumes r c c' : Den r c c' -> exists x, consumes c x c'.
Proof. intros D. apply Den_span in D as (x & A & S). now exists x. Qed.

(** ** Runs of characters of one class *)

Lemma Den_star_class g ci s c c' :
  Den (Star g (Chr ci s)) c c' <->
  exists x, consumes c x c' /\ forallb (mem ci s) x = true.
Proof.
  split.
  - remember (Star g (Chr ci s)) as r eqn:R. intros D. revert R.
    induction D; intros R; try discriminate.
    + exists []. split; [apply consumes_nil | reflexivity].
    + injection R as -> ->. inversion D1 as [|? ? x sn rest M| | | | | | | |]; subst.
      destruct (IHD2 eq_refl) as (x' & C & F).
      exists (x :: x'). split.
      * apply (consumes_app _ [x] (Cursor (x :: sn) rest)); [split; reflexivity | exact C].
      * cbn [forallb]. now rewrite M, F.
  - intros (x & C & F). revert c C F. induction x as [|a x IH]; intros c [A S] F.
    + destruct c, c'; cbn in *; subst. constructor.
    + cbn [forallb] in F. apply andb_true_iff in F as [Fa F].
      destruct c as [sn ah]. cbn [ahead seen] in *. subst ah.
      apply DStarS with (c1 := Cursor (a :: sn) (x ++ ahead c')).
      * now constructor.
      * cbn. lia.
      * apply IH; [|exact F]. split; [reflexivity|].
        cbn [seen]. rewrite S. cbn [rev]. now rewrite <- app_assoc.
Qed.

Lemma Den_plus_class g ci s c c' :
  Den (Plus g (Chr ci s)) c c' <->
  exists x, consumes c x c' /\ x <> [] /\ forallb (mem ci s) x = true.
Proof.
  unfold Plus. split.
  - intros D. inversion D as [| |r1 r2 c0 c1 c2 D1 D2| | | | | | |]; subst.
    inversion D1 as [|? ? x sn rest M| | | | | | | |]; subst.
    apply Den_star_class in D2 as (x' & C & F).
    exists (x :: x'). repeat split.
    + destruct C as [A _]. cbn. now rewrite <- A.
    + destruct C as [_ S]. cbn [seen rev] in *. now rewrite S, <- app_assoc.
    + discriminate.
    + cbn [forallb]. now rewrite M, F.
  - intros (x & [A S] & N & F). destruct x as [|a x]; [congruence|].
    cbn [forallb] in F. apply andb_true_iff in F as [Fa F].
    destruct c as [sn ah]. cbn [ahead seen] in *. subst ah.
    apply DSeq with (c1 := Cursor (a :: sn) (x ++ ahead c')).
    + now constructor.
    + apply Den_star_class. exists x. split; [|exact F]. split; [reflexivity|].
      cbn [seen]. rewrite S. cbn [rev]. now rewrite <- app_assoc.
Qed.

(** A run of a class is determined by where the class stops. *)
Lemma run_unique (P : ascii -> bool) : forall l1 l2 r1 r2,
  forallb P l1 = true -> forallb P l2 = true ->
  match r1 with [] => True | x :: _ => P x = false end ->
  match r2 with [] => True | x :: _ => P x = false end ->
  l1 ++ r1 = l2 ++ r2 -> l1 = l2 /\ r1 = r2.
Proof.
  induction l1 as [|a l1 IH]; intros l2 r1 r2 F1 F2 H1 H2 E.
  - destruct l2 as [|b l2]; [now split|]. exfalso. cbn in E. subst r1.
    cbn in F2. apply andb_true_iff in F2 as [Fb _]. congruence.
  - destruct l2 as [|b l2].
    + exfalso. cbn in E. subst r2. cbn in F1. apply andb_true_iff in F1 as [Fa _].
      congruence.
    + cbn in E. injection E as <- E. cbn in F1, F2.
      apply andb_true_iff in F1 as [_ F1], F2 as [_ F2].
      destruct (IH l2 r1 r2 F1 F2 H1 H2 E) as [-> ->]. now split.
Qed.

(** ** Display of a location *)

Lemma has_value_or_None x : has_value (or_None x) = has_value x.
Proof. destruct x as [|c x]; reflexivity. Qed.

Lemma or_None_value x : has_value x = true -> or_None x = x.
Proof. destruct x as [|c x]; [discriminate | reflexivity]. Qed.

Lemma push_if_or_None cond label x parts :
  (cond = true -> has_value x = true) ->
  push_if cond label (or_None x) parts = push_if cond label x parts.
Proof.
  intros H. destruct cond; [|reflexivity]. unfold push_if.
  now rewrite (or_None_value x (H eq_refl)).
Qed.

(** X1.  formatLocation reports no location exactly when hasLocationData is false. *)
Theorem formatLocation_none_iff_no_data (location : option LocationFields) :
  formatLocation location = chars "No location identified" <->
  hasLocationData location = false.
Proof.
  destruct location as [l|]; [|split; reflexivity].
  unfold formatLocation. destruct (hasLocationData (Some l)) eqn:H; simpl negb; cbv iota.
  - split; [|discriminate]. simpl in H. unfold push_if.
    destruct (has_value (barangay l)), (has_value (city l)),
             (has_value (province l)), (has_value (region l));
      try discriminate H; simpl; discriminate.
  - split; reflexivity.
Qed.

(** X2.  normalizing the fields of a result changes neither hasLocationData nor the display. *)
Theorem normalizeLocationFields_keeps_display (r : LocationMatch) :
  hasLocationData (Some (normalizeLocationFields (Some r))) =
    hasLocationData (Some (fieldsOf r)) /\
  formatLocation (Some (normalizeLocationFields (Some r))) =
    formatLocation (Some (fieldsOf r)).
Proof.
  assert (A : hasLocationData (Some (normalizeLocationFields (Some r))) =
              hasLocationData (Some (fieldsOf r))).
  { simpl. now rewrite !has_value_or_None. }
  split; [exact A|].
  unfold formatLocation. rewrite A.
  destruct (hasLocationData (Some (fieldsOf r))); [|reflexivity].
  simpl negb. cbv iota. cbn [normalizeLocationFields fieldsOf region province city barangay].
  rewrite !has_value_or_None.
  rewrite !push_if_or_None by auto. reflexivity.
Qed.

(** ** Column names *)

Lemma columnLetterToIndex_snoc s c :
  Sheet.columnLetterToIndex (s ++ [c]) =
  (26 * (Sheet.columnLetterToIndex s + 1) + (Z.of_nat (Char.code c) - 65))%Z.
Proof. unfold Sheet.columnLetterToIndex. rewrite fold_left_app. cbn [fold_left]. lia. Qed.

Lemma is_upper_code c : Char.is_upper c = true -> 65 <= Char.code c <= 90.
Proof.
  unfold Char.is_upper, Char.between. intros H. apply andb_true_iff in H as [H1 H2].
  apply Nat.leb_le in H1, H2.
  assert (A : Char.code "A" = 65) by reflexivity.
  assert (Z : Char.code "Z" = 90) by reflexivity. lia.
Qed.

Lemma code_inj a b : Char.code a = Char.code b -> a = b.
Proof.
  unfold Char.code. intros H.
  rewrite <- (ascii_nat_embedding a), <- (ascii_nat_embedding b). now rewrite H.
Qed.

Lemma columnLetterToIndex_nonneg s :
  Forall (fun c => Char.is_upper c = true) s -> s <> [] ->
  (0 <= Sheet.columnLetterToIndex s)%Z.
Proof.
  induction s as [|c s IH] using rev_ind; intros F N; [congruence|].
  apply Forall_app in F as [F Fc]. inversion Fc as [|? ? U _]; subst.
  apply is_upper_code in U. rewrite columnLetterToIndex_snoc.
  destruct s as [|d s].
  - change (Sheet.columnLetterToIndex []) with (-1)%Z. lia.
  - specialize (IH F ltac:(discriminate)). lia.
Qed.

Lemma columnLetterToIndex_inj a : forall b,
  Forall (fun c => Char.is_upper c = true) a ->
  Forall (fun c => Char.is_upper c = true) b ->
  Sheet.columnLetterToIndex a = Sheet.columnLetterToIndex b -> a = b.
Proof.
  induction a as [|c a IH] using rev_ind; intros b Fa Fb E.
  - destruct b as [|d b]; [reflexivity|]. exfalso.
    pose proof (columnLetterToIndex_nonneg (d :: b) Fb ltac:(discriminate)) as P.
    rewrite <- E in P. change (Sheet.columnLetterToIndex []) with (-1)%Z in P. lia.
  - destruct b as [|d b _] using rev_ind.
    + exfalso.
      pose proof (columnLetterToIndex_nonneg (a ++ [c]) Fa
                    ltac:(destruct a; discriminate)) as P.
      rewrite E in P. change (Sheet.columnLetterToIndex []) with (-1)%Z in P. lia.
    + apply Forall_app in Fa as [Fa Fc], Fb as [Fb Fd].
      inversion Fc as [|? ? Uc _]; inversion Fd as [|? ? Ud _]; subst.
      apply is_upper_code in Uc, Ud.
      rewrite !columnLetterToIndex_snoc in E.
      assert (Ec : Char.code c = Char.code d) by lia.
      assert (Ea : Sheet.columnLetterToIndex a = Sheet.columnLetterToIndex b) by lia.
      rewrite (IH b Fa Fb Ea), (code_inj _ _ Ec). reflexivity.
Qed.

(** X3.  columnLetterToIndex gives different columns different indexes, from 0 on. *)
Theorem columnLetterToIndex_injective (a b : jsstring) :
  column_name a -> column_name b ->
  Sheet.columnLetterToIndex a = Sheet.columnLetterToIndex b ->
  a = b /\ (a <> [] -> (0 <= Sheet.columnLetterToIndex a)%Z).
Proof.
  intros [Fa _] [Fb _] E. split.
  - now apply columnLetterToIndex_inj.
  - now apply columnLetterToIndex_nonneg.
Qed.

Lemma columnLetterToIndex_injective_witness :
  column_name (chars "AB") /\ column_name (chars "AB") /\
  (chars "AB" = chars "AB" /\
   (chars "AB" <> [] -> (0 <= Sheet.columnLetterToIndex (chars "AB"))%Z)).
Proof.
  assert (C : column_name (chars "AB")).
  { split; [repeat constructor | simpl; lia]. }
  split; [exact C|]. split; [exact C|].
  apply (columnLetterToIndex_injective (chars "AB") (chars "AB") C C). reflexivity.
Defined.

(** ** A single character class, replaced everywhere by a string *)

Lemma replace_from_Chr_str ci cs (repl : jsstring) : forall fuel ah sn,
  length ah < fuel ->
  replace_from fuel (Chr ci cs) repl sn ah
  = flat_map (fun c => if mem ci cs c then repl else [c]) ah.
Proof.
  induction fuel as [|fuel IH]; intros ah sn L; [lia|]. simpl.
  assert (U : forall l, forallb (fun c => negb (mem ci cs c)) l = true ->
                        flat_map (fun c => if mem ci cs c then repl else [c]) l = l).
  { induction l as [|c l IHl]; simpl; [reflexivity|]. intros H.
    apply andb_true_iff in H as [Hc H]. apply negb_true_iff in Hc.
    now rewrite Hc, IHl. }
  destruct (first_split (mem ci cs) ah) as [N | (pre & x & rest & -> & N & Px)].
  - rewrite (search_Chr_none _ _ _ _ N). now rewrite U.
  - rewrite (search_Chr_some _ _ _ _ _ _ N Px). simpl ahead. simpl seen.
    rewrite slice_skipped.
    destruct (Nat.ltb_spec (length rest) (length (x :: rest))) as [_|B]; [|simpl in B; lia].
    rewrite IH by (rewrite length_app in L; simpl in L; lia).
    rewrite flat_map_app. simpl. rewrite Px, (U pre N). reflexivity.
Qed.

Lemma replace_all_Chr_str ci cs (repl : jsstring) s :
  replace_all (Chr ci cs) repl s
  = flat_map (fun c => if mem ci cs c then repl else [c]) s.
Proof. unfold replace_all. apply replace_from_Chr_str. lia. Qed.

(** ** Lines of a CSV file *)


Lemma quoteCell_doubled t :
  Sheet.quoteCell t = Text.dquote :: doubled t ++ [Text.dquote].
Proof.
  unfold Sheet.quoteCell. rewrite replace_all_Chr_str. cbn [app].
  replace (flat_map _ t) with (doubled t); [reflexivity|].
  unfold doubled. apply flat_map_ext. intros c. unfold is_dquote. cbn [mem].
  now rewrite Ascii.eqb_sym.
Qed.


Lemma field_end_not_dquote tail :
  field_end tail ->
  match tail with
  | nextChar :: _ => Ascii.eqb nextChar Text.dquote = false
  | [] => True
  end.
Proof. intros [-> | [tail' ->]]; [exact I | reflexivity]. Qed.

Lemma scan_escaped rest current b :
  Sheet.scanCSV (Text.dquote :: Text.dquote :: rest) current b
  = Sheet.scanCSV rest (current ++ [Text.dquote]) b.
Proof. reflexivity. Qed.

Lemma scan_toggle tail current b :
  field_end tail ->
  Sheet.scanCSV (Text.dquote :: tail) current b = Sheet.scanCSV tail current (negb b).
Proof.
  intros T. apply field_end_not_dquote in T. destruct tail as [|x tail]; [reflexivity|].
  cbn [Sheet.scanCSV]. now rewrite Ascii.eqb_refl, T.
Qed.

Lemma scan_open x rest current b :
  Ascii.eqb x Text.dquote = false ->
  Sheet.scanCSV (Text.dquote :: x :: rest) current b
  = Sheet.scanCSV (x :: rest) current (negb b).
Proof. intros E. cbn [Sheet.scanCSV]. now rewrite Ascii.eqb_refl, E. Qed.

Lemma scan_char_in_quotes c rest current :
  Ascii.eqb c Text.dquote = false ->
  Sheet.scanCSV (c :: rest) current true = Sheet.scanCSV rest (current ++ [c]) true.
Proof. intros E. cbn [Sheet.scanCSV]. rewrite E. cbn [negb]. now rewrite andb_false_r. Qed.

Lemma scan_char c rest current b :
  Ascii.eqb c Text.dquote = false -> Ascii.eqb c "," = false ->
  Sheet.scanCSV (c :: rest) current b = Sheet.scanCSV rest (current ++ [c]) b.
Proof. intros E1 E2. cbn [Sheet.scanCSV]. now rewrite E1, E2. Qed.

Lemma scan_comma rest current :
  Sheet.scanCSV (","%char :: rest) current false = current :: Sheet.scanCSV rest [] false.
Proof. reflexivity. Qed.

Lemma doubled_cons c t :
  doubled (c :: t) =
  (if Ascii.eqb c Text.dquote then [Text.dquote; Text.dquote] else [c]) ++ doubled t.
Proof. reflexivity. Qed.

Lemma scanCSV_in_quotes t : forall current tail,
  field_end tail ->
  Sheet.scanCSV (doubled t ++ Text.dquote :: tail) current true
  = Sheet.scanCSV tail (current ++ t) false.
Proof.
  induction t as [|c t IH]; intros current tail T.
  - cbn [doubled flat_map app]. rewrite app_nil_r. now apply scan_toggle.
  - rewrite doubled_cons. destruct (Ascii.eqb c Text.dquote) eqn:E.
    + apply Ascii.eqb_eq in E. subst c. cbn [app]. rewrite scan_escaped.
      rewrite IH by exact T. now rewrite <- app_assoc.
    + cbn [app]. rewrite scan_char_in_quotes by exact E.
      rewrite IH by exact T. now rewrite <- app_assoc.
Qed.

Lemma scanCSV_quoted t : forall current tail,
  field_end tail ->
  Sheet.scanCSV (Text.dquote :: doubled t ++ Text.dquote :: tail) current false
  = Sheet.scanCSV tail (current ++ scanned t) false.
Proof.
  induction t as [|c t IH]; intros current tail T.
  - cbn [doubled flat_map app]. now rewrite scan_escaped.
  - rewrite doubled_cons. unfold scanned. cbn [forallb]. unfold is_dquote at 1.
    destruct (Ascii.eqb c Text.dquote) eqn:E.
    + apply Ascii.eqb_eq in E. subst c. cbn [app andb]. rewrite scan_escaped.
      rewrite IH by exact T. unfold scanned.
      destruct (forallb is_dquote t); now rewrite <- app_assoc.
    + cbn [app andb]. rewrite scan_open by exact E. cbn [negb].
      pose proof (scanCSV_in_quotes (c :: t) current tail T) as S.
      rewrite doubled_cons, E in S. exact S.
Qed.

Lemma all_dquote_quoted t :
  forallb is_dquote t = true -> t <> [] -> quoted_at_both_ends t = true.
Proof.
  intros A N. rewrite forallb_forall in A.
  assert (H : forall s, s <> [] -> (forall x, In x s -> is_dquote x = true) ->
                        Str.startsWith s [Text.dquote] = true).
  { intros [|y s] Ns Hs; [congruence|]. cbn [Str.startsWith].
    specialize (Hs y (or_introl eq_refl)). unfold is_dquote in Hs.
    rewrite Ascii.eqb_sym, Hs. now destruct s. }
  unfold quoted_at_both_ends, Str.endsWith. rewrite (H t N A). cbn [andb rev].
  apply H.
  - intros E. apply N. apply (f_equal (@rev _)) in E. now rewrite rev_involutive in E.
  - intros x Hx. apply A. now apply in_rev.
Qed.

Lemma unquote_scanned t :
  quoted_at_both_ends t = false -> Sheet.unquote (scanned t) = t.
Proof.
  intros Q. unfold scanned. destruct (forallb is_dquote t) eqn:A.
  - destruct t as [|c t]; [reflexivity|].
    rewrite all_dquote_quoted in Q; [discriminate | exact A | discriminate].
  - unfold Sheet.unquote. unfold quoted_at_both_ends in Q. now rewrite Q.
Qed.

Lemma scanCSV_bare t : forall current tail,
  forallb (fun x => negb (is_dquote x) && negb (Ascii.eqb x ",")) t = true ->
  Sheet.scanCSV (t ++ tail) current false = Sheet.scanCSV tail (current ++ t) false.
Proof.
  induction t as [|c t IH]; intros current tail B.
  - now rewrite app_nil_r.
  - cbn [forallb] in B. apply andb_true_iff in B as [Bc B].
    apply andb_true_iff in Bc as [B1 B2]. apply negb_true_iff in B1, B2.
    cbn [app]. rewrite scan_char by assumption. rewrite IH by exact B.
    now rewrite <- app_assoc.
Qed.

Lemma unquote_bare t :
  forallb (fun x => negb (is_dquote x) && negb (Ascii.eqb x ",")) t = true ->
  Sheet.unquote t = t.
Proof.
  intros B. unfold Sheet.unquote. destruct t as [|c t]; [reflexivity|].
  cbn [forallb] in B. apply andb_true_iff in B as [Bc _].
  apply andb_true_iff in Bc as [B1 _]. apply negb_true_iff in B1.
  cbn [Str.startsWith]. unfold is_dquote in B1. now rewrite Ascii.eqb_sym, B1.
Qed.


Lemma scanCSV_cell c tail :
  readable c -> field_end tail ->
  Sheet.scanCSV (written c ++ tail) [] false = Sheet.scanCSV tail (scanned_cell c) false.
Proof.
  intros R T. destruct c as [t|t]; cbn [written scanned_cell].
  - now apply scanCSV_bare.
  - rewrite quoteCell_doubled. cbn [app]. rewrite <- app_assoc. cbn [app].
    now rewrite scanCSV_quoted.
Qed.

Lemma scanCSV_row cells : cells <> [] -> Forall readable cells ->
  Sheet.scanCSV (Text.join (chars ",") (map written cells)) [] false
  = map scanned_cell cells.
Proof.
  induction cells as [|c cells IH]; intros N F; [congruence|].
  inversion F as [|? ? Rc F']; subst.
  destruct cells as [|c' cells].
  - cbn [map Text.join]. rewrite <- (app_nil_r (written c)).
    rewrite scanCSV_cell; [reflexivity | exact Rc | now left].
  - change (map written (c :: c' :: cells))
      with (written c :: map written (c' :: cells)).
    set (rest := map written (c' :: cells)) in *.
    assert (J : Text.join (chars ",") (written c :: rest)
                = written c ++ chars "," ++ Text.join (chars ",") rest).
    { unfold rest. reflexivity. }
    rewrite J. cbn [app chars list_ascii_of_string].
    rewrite scanCSV_cell; [|exact Rc | right; eexists; reflexivity].
    rewrite scan_comma. cbn [map]. f_equal. apply IH; [discriminate | exact F'].
Qed.

(** X4.  a row written by the CSV export is read back by parseCSVLine. *)
Theorem parseCSVLine_reads_exported_row (cells : list Cell) :
  cells <> [] -> Forall readable cells ->
  Sheet.parseCSVLine (Text.join (chars ",") (map written cells)) = map content cells.
Proof.
  intros N F. unfold Sheet.parseCSVLine. rewrite scanCSV_row by assumption.
  rewrite map_map. clear N. induction F as [|c cells R F IH]; [reflexivity|].
  cbn [map]. rewrite IH. f_equal.
  destruct c as [t|t]; cbn [scanned_cell content].
  - now apply unquote_bare.
  - now apply unquote_scanned.
Qed.

Lemma parseCSVLine_reads_exported_row_witness :
  Sheet.parseCSVLine
    (Text.join (chars ",")
       (map written [Bare (chars "12"); Quoted (chars "Brgy. 171, Caloocan");
                     Quoted []; Quoted [Text.dquote; "a"%char]]))
  = [chars "12"; chars "Brgy. 171, Caloocan"; []; [Text.dquote; "a"%char]].
Proof.
  apply (parseCSVLine_reads_exported_row
           [Bare (chars "12"); Quoted (chars "Brgy. 171, Caloocan");
            Quoted []; Quoted [Text.dquote; "a"%char]]).
  - discriminate.
  - repeat constructor.
Defined.

(** ** Ranges of a sheet *)

Lemma trimStart_id s :
  match s with [] => True | x :: _ => Char.is_space x = false end ->
  Str.trimStart s = s.
Proof. destruct s as [|x s]; [reflexivity|]. cbn. now intros ->. Qed.

Lemma trim_id s :
  match s with [] => True | x :: _ => Char.is_space x = false end ->
  match rev s with [] => True | x :: _ => Char.is_space x = false end ->
  Str.trim s = s.
Proof.
  intros H1 H2. unfold Str.trim, Str.trimEnd. rewrite (trimStart_id s H1).
  rewrite (trimStart_id (rev s) H2). apply rev_involutive.
Qed.

Lemma alpha_facts (c : ascii) :
  Char.is_alpha c = true ->
  Char.is_space c = false /\ Char.is_upper (Char.upper c) = true /\ Char.is_digit c = false.
Proof.
  intros A.
  pose proof (@forall_ascii
                (fun c => implb (Char.is_alpha c)
                                (negb (Char.is_space c) && Char.is_upper (Char.upper c)
                                 && negb (Char.is_digit c)))) as H.
  specialize (H ltac:(vm_compute; reflexivity) c). cbv beta in H. rewrite A in H.
  cbn [implb] in H. apply andb_true_iff in H as [H H3]. apply andb_true_iff in H as [H1 H2].
  apply negb_true_iff in H1, H3. auto.
Qed.

Lemma digit_facts (c : ascii) :
  Char.is_digit c = true ->
  Char.is_space c = false /\ Char.upper c = c /\ Char.is_upper c = false /\
  Ascii.eqb ":" c = false.
Proof.
  intros A.
  pose proof (@forall_ascii
                (fun c => implb (Char.is_digit c)
                                (negb (Char.is_space c) && Ascii.eqb (Char.upper c) c
                                 && negb (Char.is_upper c) && negb (Ascii.eqb ":" c)))) as H.
  specialize (H ltac:(vm_compute; reflexivity) c). cbv beta in H. rewrite A in H.
  cbn [implb] in H. apply andb_true_iff in H as [H H4]. apply andb_true_iff in H as [H H3].
  apply andb_true_iff in H as [H1 H2].
  apply negb_true_iff in H1, H3, H4. apply Ascii.eqb_eq in H2. auto.
Qed.

Lemma upper_letters_upper L :
  forallb Char.is_alpha L = true ->
  forallb (mem false (Range "A" "Z")) (Text.toUpperCase L) = true.
Proof.
  induction L as [|c L IH]; [reflexivity|]. cbn [forallb Text.toUpperCase map].
  intros H. apply andb_true_iff in H as [Hc H]. apply alpha_facts in Hc as (_ & U & _).
  change (mem false (Range "A" "Z") (Char.upper c)) with
    (Char.between "A" "Z" (Char.upper c) || false).
  rewrite orb_false_r. fold (Char.is_upper (Char.upper c)). rewrite U. now apply IH.
Qed.

Lemma upper_digits n :
  forallb Char.is_digit n = true -> Text.toUpperCase n = n.
Proof.
  induction n as [|c n IH]; [reflexivity|]. cbn [forallb Text.toUpperCase map].
  intros H. apply andb_true_iff in H as [Hc H]. apply digit_facts in Hc as (_ & U & _).
  rewrite U. f_equal. now apply IH.
Qed.

Lemma digits_mem n :
  forallb Char.is_digit n = true -> forallb (mem false Digit) n = true.
Proof. intros H. exact H. Qed.

Lemma toUpperCase_app a b :
  Text.toUpperCase (a ++ b) = Text.toUpperCase a ++ Text.toUpperCase b.
Proof. apply map_app. Qed.

Lemma Den_colon c c' : Den (lit ":") c c' <-> consumes c [":"%char] c'.
Proof.
  unfold lit. rewrite Den_Lit. split.
  - intros (x & A & S & F). inversion F as [|a y p x' M F']; subst.
    inversion F'; subst. cbn [mem] in M. apply Ascii.eqb_eq in M. subst y. now split.
  - intros [A S]. exists [":"%char]. repeat split; try assumption.
    repeat constructor.
Qed.

Lemma Den_Bol_inv c c' : Den Bol c c' -> c' = c /\ seen c = [].
Proof. intros D. inversion D; subst. auto. Qed.

Lemma Den_Eol_inv c c' : Den Eol c c' -> c' = c /\ ahead c = [].
Proof. intros D. inversion D; subst. auto. Qed.

Lemma head_not s (P : ascii -> bool) (Q : ascii -> bool) rest :
  s <> [] -> forallb Q s = true -> (forall c, Q c = true -> P c = false) ->
  match s ++ rest with [] => True | x :: _ => P x = false end.
Proof.
  intros N F H. destruct s as [|c s]; [congruence|]. cbn in *.
  apply andb_true_iff in F as [Fc _]. now apply H.
Qed.

Lemma class_run_step (P : ascii -> bool) x rest sn y c' :
  consumes (Cursor sn (x ++ rest)) y c' ->
  forallb P y = true -> forallb P x = true ->
  stops P rest -> stops P (ahead c') ->
  y = x /\ c' = Cursor (rev x ++ sn) rest.
Proof.
  intros [A S] Fy Fx Hr Hc. cbn [ahead seen] in *.
  destruct (run_unique P y x (ahead c') rest Fy Fx Hc Hr (eq_sym A)) as [-> E].
  split; [reflexivity|]. destruct c'. cbn in *. now subst.
Qed.

Lemma digit_not_upper c : digitP c = true -> upperP c = false.
Proof.
  intros D. apply digit_facts in D as (_ & _ & N & _). unfold upperP. cbn [mem].
  rewrite orb_false_r. exact N.
Qed.

Lemma colon_not_class : upperP ":" = false /\ digitP ":" = false.
Proof. split; reflexivity. Qed.

Lemma slice_same c : slice c c = [].
Proof. unfold slice. now rewrite Nat.sub_diag. Qed.

Lemma slice_run sn x rest sn' :
  sn' = rev x ++ sn -> slice (Cursor sn (x ++ rest)) (Cursor sn' rest) = x.
Proof. intros ->. apply slice_skipped. Qed.

(** What the four patterns of [parseColumnRange] find in [U n : V m]. *)
Section CellRange.

Variables U V n m : jsstring.
Hypothesis HU : U <> [] /\ forallb upperP U = true.
Hypothesis HV : V <> [] /\ forallb upperP V = true.
Hypothesis Hn : n <> [] /\ forallb digitP n = true.
Hypothesis Hm : m <> [] /\ forallb digitP m = true.


Lemma stops_n rest : stops upperP (n ++ rest).
Proof.
  destruct Hn as [N F]. destruct n as [|a n']; [congruence|]. cbn in *.
  apply andb_true_iff in F as [Fa _]. now apply digit_not_upper.
Qed.

Lemma stops_m rest : stops upperP (m ++ rest).
Proof.
  destruct Hm as [N F]. destruct m as [|a m']; [congruence|]. cbn in *.
  apply andb_true_iff in F as [Fa _]. now apply digit_not_upper.
Qed.

(** The letters at the start: any match of [[A-Z]+] that is followed by a
    digit or a colon ends after [U]. *)
Lemma first_letters g c' :
  Den (Plus g (Chr false (Range "A" "Z"))) (Cursor [] (cell_subject U V n m)) c' ->
  stops upperP (ahead c') ->
  c' = Cursor (rev U) (n ++ chars ":" ++ V ++ m).
Proof.
  intros D S. apply Den_plus_class in D as (y & C & _ & F).
  destruct HU as [_ FU].
  destruct (class_run_step upperP U _ [] y c' C F FU (stops_n _) S) as [_ ->].
  now rewrite app_nil_r.
Qed.

Lemma simple_column_fails : Cap.exec Sheet.re_simple_column (cell_subject U V n m) = None.
Proof.
  unfold Cap.exec, Sheet.re_simple_column. rewrite search_anchored.
  rewrite match_parts_none; [reflexivity|]. intros ends D.
  inversion D as [|? ? ? e0 l0 D0 D']; subst. apply Den_Bol_inv in D0 as [-> _].
  inversion D' as [|? ? ? e1 l1 D1 D'']; subst.
  inversion D'' as [|? ? ? e2 l2 D2 _]; subst. apply Den_Eol_inv in D2 as [-> E].
  apply first_letters in D1; [|now rewrite E]. rewrite D1 in E. cbn in E.
  destruct Hn as [N _]. destruct n; [congruence | discriminate].
Qed.

Lemma single_cell_fails : Cap.exec Sheet.re_single_cell (cell_subject U V n m) = None.
Proof.
  unfold Cap.exec, Sheet.re_single_cell. rewrite search_anchored.
  rewrite match_parts_none; [reflexivity|]. intros ends D.
  inversion D as [|? ? ? e0 l0 D0 D']; subst. apply Den_Bol_inv in D0 as [-> _].
  inversion D' as [|? ? ? e1 l1 D1 D'']; subst.
  inversion D'' as [|? ? ? e2 l2 D2 D3]; subst.
  inversion D3 as [|? ? ? e3 l3 D4 _]; subst. apply Den_Eol_inv in D4 as [-> E].
  pose proof D2 as D2'. apply Den_plus_class in D2' as (y & [A _] & Ny & Fy).
  apply first_letters in D1.
  2:{ rewrite A. destruct y as [|a y]; [congruence|]. cbn in *.
      apply andb_true_iff in Fy as [Fa _]. now apply digit_not_upper. }
  subst e1. apply Den_plus_class in D2 as (y' & C & _ & Fy').
  destruct Hn as [_ Fn].
  destruct (class_run_step digitP n _ _ y' e2 C Fy' Fn) as [_ E2].
  - reflexivity.
  - now rewrite E.
  - rewrite E2 in E. cbn in E. discriminate E.
Qed.

Lemma column_range_fails : Cap.exec Sheet.re_column_range (cell_subject U V n m) = None.
Proof.
  unfold Cap.exec, Sheet.re_column_range. rewrite search_anchored.
  rewrite match_parts_none; [reflexivity|]. intros ends D.
  inversion D as [|? ? ? e0 l0 D0 D']; subst. apply Den_Bol_inv in D0 as [-> _].
  inversion D' as [|? ? ? e1 l1 D1 D'']; subst.
  inversion D'' as [|? ? ? e2 l2 D2 _]; subst.
  apply Den_colon in D2 as [A _].
  apply first_letters in D1; [|now rewrite A]. subst e1. cbn [ahead] in A.
  destruct Hn as [N F]. destruct n as [|a n']; [congruence|]. cbn [app] in A.
  injection A as -> _. cbn [forallb] in F. apply andb_true_iff in F as [Fa _].
  vm_compute in Fa. discriminate Fa.
Qed.

Lemma cell_range_matches :
  DenParts Sheet.re_cell_range (Cursor [] (cell_subject U V n m)) (cell_ends U V n m).
Proof.
  destruct HU as [NU FU], HV as [NV FV], Hn as [Nn Fn], Hm as [Nm Fm].
  unfold Sheet.re_cell_range, cell_ends.
  repeat (apply DP_cons); try apply DP_nil.
  - now constructor.
  - apply Den_plus_class. exists U. repeat split; try assumption.
    cbn. now rewrite app_nil_r.
  - apply Den_plus_class. exists n. repeat split; assumption.
  - apply Den_colon. split; reflexivity.
  - apply Den_plus_class. exists V. repeat split; assumption.
  - apply Den_plus_class. exists m. repeat split; try assumption.
    cbn. now rewrite app_nil_r.
  - now constructor.
Qed.

Lemma cell_range_unique ends :
  DenParts Sheet.re_cell_range (Cursor [] (cell_subject U V n m)) ends -> ends = (cell_ends U V n m).
Proof.
  intros D.
  inversion D as [|? ? ? e0 l0 D0 D1']; subst. apply Den_Bol_inv in D0 as [-> _].
  inversion D1' as [|? ? ? e1 l1 D1 D2']; subst.
  inversion D2' as [|? ? ? e2 l2 D2 D3']; subst.
  inversion D3' as [|? ? ? e3 l3 D3 D4']; subst.
  inversion D4' as [|? ? ? e4 l4 D4 D5']; subst.
  inversion D5' as [|? ? ? e5 l5 D5 D6']; subst.
  inversion D6' as [|? ? ? e6 l6 D6 D7']; subst.
  inversion D7'; subst.
  apply Den_Eol_inv in D6 as [-> E5].
  apply Den_colon in D3 as [A3 S3].
  apply Den_plus_class in D2 as (y2 & C2 & N2 & F2).
  apply Den_plus_class in D5 as (y5 & C5 & N5 & F5).
  apply first_letters in D1.
  2:{ destruct C2 as [A _]. rewrite A. destruct y2 as [|a y]; [congruence|]. cbn in *.
      apply andb_true_iff in F2 as [Fa _]. now apply digit_not_upper. }
  subst e1.
  destruct Hn as [_ Fn], Hm as [_ Fm], HV as [_ FV].
  destruct (class_run_step digitP n _ _ y2 e2 C2 F2 Fn) as [_ ->];
    [reflexivity | now rewrite A3 |].
  cbn [ahead seen] in A3, S3. injection A3 as A3.
  assert (E3 : e3 = Cursor (":"%char :: rev n ++ rev U) (V ++ m)).
  { destruct e3. cbn in *. now subst. }
  subst e3.
  apply Den_plus_class in D4 as (y4 & C4 & _ & F4).
  destruct (class_run_step upperP V _ _ y4 e4 C4 F4 FV) as [_ ->].
  { rewrite <- (app_nil_r m). apply stops_m. }
  { destruct C5 as [A _]. rewrite A. destruct y5 as [|a y]; [congruence|]. cbn in *.
    apply andb_true_iff in F5 as [Fa _]. now apply digit_not_upper. }
  rewrite <- (app_nil_r m) in C5.
  destruct (class_run_step digitP m _ _ y5 e5 C5 F5 Fm) as [_ ->];
    [exact I | now rewrite E5 |].
  unfold cell_ends. rewrite ?app_nil_r. reflexivity.
Qed.

Lemma cell_range_found :
  Cap.exec Sheet.re_cell_range (cell_subject U V n m)
  = Some [[]; U; n; chars ":"; V; m; []].
Proof.
  unfold Cap.exec, Sheet.re_cell_range. rewrite search_anchored.
  fold Sheet.re_cell_range.
  rewrite (match_parts_unique _ _ (cell_ends U V n m) cell_range_matches cell_range_unique).
  unfold cell_ends, cell_subject. cbn [Cap.texts].
  rewrite !slice_same.
  rewrite (slice_run [] U), (slice_run (rev U) n), (slice_run (rev n ++ rev U) (chars ":")),
    (slice_run (":"%char :: rev n ++ rev U) V);
    try (rewrite ?app_nil_r; reflexivity).
  rewrite <- (app_nil_r m) at 1. rewrite (slice_run _ m); reflexivity.
Qed.

End CellRange.

Lemma range_normalized L M n m :
  letters L -> letters M -> digit_string n -> digit_string m ->
  Str.truthy (L ++ n ++ chars ":" ++ M ++ m) = true /\
  Str.trim (L ++ n ++ chars ":" ++ M ++ m) = L ++ n ++ chars ":" ++ M ++ m /\
  Text.toUpperCase (L ++ n ++ chars ":" ++ M ++ m)
  = cell_subject (Text.toUpperCase L) (Text.toUpperCase M) n m.
Proof.
  intros (NL & FL & _) (NM & FM & _) (Nn & Fn & _) (Nm & Fm & _).
  repeat split.
  - destruct L; [congruence | reflexivity].
  - apply trim_id.
    + destruct L as [|c L']; [congruence|]. cbn in *.
      apply andb_true_iff in FL as [Fc _]. now apply alpha_facts in Fc as (S & _).
    + rewrite !rev_app_distr.
      destruct (rev m) as [|c r] eqn:R.
      * apply (f_equal (@rev _)) in R. rewrite rev_involutive in R. now subst m.
      * cbn. assert (I : In c m) by (apply in_rev; rewrite R; now left).
        rewrite forallb_forall in Fm. now apply Fm, digit_facts in I as (S & _).
  - unfold cell_subject. rewrite !toUpperCase_app.
    now rewrite (upper_digits n Fn), (upper_digits m Fm).
Qed.

Lemma toUpperCase_nonempty L : L <> [] -> Text.toUpperCase L <> [].
Proof. destruct L; [congruence | discriminate]. Qed.

(** X5.  a cell range [Ln:Mm] is read as the column of [L], from row [n] to
    row [m]; the letters [M] of its end are not used. *)
Theorem parseColumnRange_cell_range (L M n m : jsstring) :
  letters L -> letters M -> digit_string n -> digit_string m ->
  Sheet.parseColumnRange (Some (L ++ n ++ chars ":" ++ M ++ m)) =
  {| Sheet.column := Sheet.columnLetterToIndex (Text.toUpperCase L);
     Sheet.startRow := Text.parseInt n;
     Sheet.endRow := Some (Text.parseInt m) |}.
Proof.
  intros HL HM Hn Hm.
  destruct (range_normalized L M n m HL HM Hn Hm) as (T & Tr & Up).
  destruct HL as (NL & FL & _), HM as (NM & FM & _),
           Hn as (Nn & Fn & _), Hm as (Nm & Fm & _).
  assert (HU : Text.toUpperCase L <> [] /\ forallb upperP (Text.toUpperCase L) = true).
  { split; [now apply toUpperCase_nonempty | now apply upper_letters_upper]. }
  assert (HV : Text.toUpperCase M <> [] /\ forallb upperP (Text.toUpperCase M) = true).
  { split; [now apply toUpperCase_nonempty | now apply upper_letters_upper]. }
  assert (Hn' : n <> [] /\ forallb digitP n = true) by (split; assumption).
  assert (Hm' : m <> [] /\ forallb digitP m = true) by (split; assumption).
  unfold Sheet.parseColumnRange. rewrite T, Tr, Up.
  assert (E : Str.eqb (L ++ n ++ chars ":" ++ M ++ m) [] = false).
  { destruct L; [congruence | reflexivity]. }
  rewrite E. cbn [negb orb].
  rewrite (simple_column_fails _ _ _ _ HU Hn').
  rewrite (single_cell_fails _ _ _ _ HU Hn').
  rewrite (column_range_fails _ _ _ _ HU Hn').
  rewrite (cell_range_found _ _ _ _ HU HV Hn' Hm').
  reflexivity.
Qed.

Lemma parseColumnRange_cell_range_witness :
  Sheet.parseColumnRange (Some (chars "b2:Zz100")) =
  {| Sheet.column := 1; Sheet.startRow := 2; Sheet.endRow := Some 100%Z |}.
Proof.
  apply (parseColumnRange_cell_range (chars "b") (chars "Zz") (chars "2") (chars "100"));
    (split; [discriminate | split; [reflexivity | simpl; lia]]).
Defined.

(** ** Cells of a sheet *)

Lemma trimStart_head s :
  match Str.trimStart s with [] => True | x :: _ => Char.is_space x = false end.
Proof.
  induction s as [|c s IH]; [exact I|]. cbn [Str.trimStart].
  destruct (Char.is_space c) eqn:E; [exact IH | exact E].
Qed.

Lemma trim_idem s : Str.trim (Str.trim s) = Str.trim s.
Proof.
  unfold Str.trim at 2. set (y := Str.trimStart s).
  assert (T : Str.trimStart (Str.trimEnd y) = Str.trimEnd y).
  { destruct (trimEnd_prefix y) as [t E].
    pose proof (trimStart_head s) as H. fold y in H.
    destruct (Str.trimEnd y) as [|x r] eqn:Ty; [reflexivity|].
    rewrite E in H. cbn in H. apply trimStart_nonspace. exact H. }
  unfold Str.trim. rewrite T. apply trimEnd_idem.
Qed.

Lemma extractRow_values range results row :
  Forall cell_value results -> Forall cell_value (Sheet.extractRow range results row).
Proof.
  intros F. destruct row as [index line]. unfold Sheet.extractRow.
  repeat match goal with
         | |- Forall _ (if ?b then _ else _) => destruct b eqn:?
         | |- Forall _ (match ?o with Some _ => _ | None => _ end) => destruct o eqn:?
         end; try exact F.
  apply Forall_app. split; [exact F|]. constructor; [|constructor].
  split.
  - apply andb_true_iff in Heqb2 as [H _]. apply andb_true_iff in H as [_ H].
    destruct (Str.trim j); [discriminate | discriminate].
  - apply trim_idem.
Qed.

(** X6.  the values extractFromCSV returns are trimmed and not empty. *)
Theorem extractFromCSV_values (csvText : jsstring) (columnRange : option jsstring) :
  Forall (fun v => v <> [] /\ Str.trim v = v) (Sheet.extractFromCSV csvText columnRange).
Proof.
  unfold Sheet.extractFromCSV.
  set (rows := combine _ _). generalize rows. clear rows. intros rows.
  assert (G : forall results, Forall cell_value results ->
                Forall cell_value (fold_left (Sheet.extractRow (Sheet.parseColumnRange columnRange))
                                             rows results)).
  { induction rows as [|row rows IH]; intros results F; [exact F|].
    cbn [fold_left]. apply IH. now apply extractRow_values. }
  apply (G [] (Forall_nil _)).
Qed.

(** ** Objects and sets *)

Lemma get_set_same {V : Type} key (v : V) o : Obj.get key (Obj.set key v o) = Some v.
Proof.
  induction o as [|[k w] o IH]; simpl.
  - now rewrite Str_eqb_refl.
  - destruct (Str.eqb k key) eqn:E; simpl; now rewrite E.
Qed.

Lemma get_set_other {V : Type} key key' (v : V) o :
  key <> key' -> Obj.get key' (Obj.set key v o) = Obj.get key' o.
Proof.
  intros N. induction o as [|[k w] o IH]; simpl.
  - destruct (Str.eqb key key') eqn:E; [|reflexivity].
    apply Str_eqb_eq in E. congruence.
  - destruct (Str.eqb k key) eqn:E; simpl.
    + apply Str_eqb_eq in E. subst k.
      destruct (Str.eqb key key') eqn:E'; [|reflexivity].
      apply Str_eqb_eq in E'. congruence.
    + now rewrite IH.
Qed.

Lemma get_set {V : Type} key key' (v : V) o :
  Obj.get key' (Obj.set key v o) = if Str.eqb key key' then Some v else Obj.get key' o.
Proof.
  destruct (Str.eqb key key') eqn:E.
  - apply Str_eqb_eq in E. subst. apply get_set_same.
  - apply get_set_other. now apply Str_eqb_neq.
Qed.

Lemma Str_eqb_sym a b : Str.eqb a b = Str.eqb b a.
Proof.
  destruct (Str.eqb a b) eqn:E, (Str.eqb b a) eqn:E'; try reflexivity.
  - apply Str_eqb_eq in E. subst. now rewrite Str_eqb_refl in E'.
  - apply Str_eqb_eq in E'. subst. now rewrite Str_eqb_refl in E.
Qed.

Lemma SSet_has_add k k' s :
  SSet.has k (SSet.add k' s) = SSet.has k s || Str.eqb k k'.
Proof.
  unfold SSet.add. destruct (SSet.has k' s) eqn:H.
  - destruct (Str.eqb k k') eqn:E; [|now rewrite orb_false_r].
    apply Str_eqb_eq in E. subst. now rewrite H.
  - unfold SSet.has, Str.mem. rewrite existsb_app. simpl. now rewrite orb_false_r.
Qed.

Lemma fold_left_establish {A B : Type} (Q : A -> Prop) (f : A -> B -> A) (l : list B) x0 :
  (forall a x, Q a -> Q (f a x)) -> (forall a, Q (f a x0)) -> In x0 l ->
  forall a, Q (fold_left f l a).
Proof.
  intros Keep Make. induction l as [|x l IH]; intros I a; [contradiction|].
  cbn [fold_left]. destruct I as [->|I].
  - clear IH. generalize (Make a). generalize (f a x0). clear a.
    induction l as [|y l IH]; intros a Ha; [exact Ha|]. cbn. apply IH. now apply Keep.
  - now apply IH.
Qed.

(** ** The province table *)







Section ProvinceTable.

Variable data : Dataset.







End ProvinceTable.


(** ** The barangay table *)

Lemma barangayIndex_addBarangay rn rc pn cn idx bn k :
  Obj.get k (barangayIndex (addBarangay rn rc pn cn idx bn)) =
  if Str.eqb (normalizeKey bn) k
  then Some (barangays_at idx (normalizeKey bn) ++
             [{| b_barangay := bn; b_city := cn; b_province := pn;
                 b_region := rn; b_regionCode := rc |}])
  else Obj.get k (barangayIndex idx).
Proof. unfold addBarangay. cbn [barangayIndex]. now rewrite get_set. Qed.

Lemma barangays_at_addBarangay rn rc pn cn idx bn k :
  barangays_at (addBarangay rn rc pn cn idx bn) k =
  if Str.eqb (normalizeKey bn) k
  then barangays_at idx k ++
       [{| b_barangay := bn; b_city := cn; b_province := pn;
           b_region := rn; b_regionCode := rc |}]
  else barangays_at idx k.
Proof.
  unfold barangays_at at 1. rewrite barangayIndex_addBarangay.
  destruct (Str.eqb (normalizeKey bn) k) eqn:E; [|reflexivity].
  apply Str_eqb_eq in E. now subst k.
Qed.

Lemma ambiguous_addBarangay rn rc pn cn idx bn k :
  SSet.has k (ambiguousBarangays (addBarangay rn rc pn cn idx bn)) =
  SSet.has k (ambiguousBarangays idx) ||
  (Str.eqb k (normalizeKey bn) && (1 <=? length (barangays_at idx (normalizeKey bn)))).
Proof.
  unfold addBarangay. cbn [ambiguousBarangays]. fold (barangays_at idx (normalizeKey bn)).
  rewrite length_app. cbn [length].
  destruct (Nat.ltb_spec 1 (length (barangays_at idx (normalizeKey bn)) + 1));
    destruct (Nat.leb_spec 1 (length (barangays_at idx (normalizeKey bn)))); try lia.
  - rewrite SSet_has_add. now rewrite andb_true_r.
  - now rewrite andb_false_r, orb_false_r.
Qed.

Lemma addBarangay_table_ok data rn rc pn cn idx bn :
  barangay_of data {| b_barangay := bn; b_city := cn; b_province := pn;
                      b_region := rn; b_regionCode := rc |} ->
  barangay_table_ok data idx ->
  barangay_table_ok data (addBarangay rn rc pn cn idx bn).
Proof.
  intros He [H1 H2]. split.
  - intros k l. rewrite barangayIndex_addBarangay.
    destruct (Str.eqb (normalizeKey bn) k) eqn:E.
    + apply Str_eqb_eq in E. intros [= <-]. split.
      * destruct (barangays_at idx (normalizeKey bn)); discriminate.
      * apply Forall_app. split.
        -- unfold barangays_at. destruct (Obj.get (normalizeKey bn) _) as [l0|] eqn:G;
             [|constructor]. cbn. rewrite <- E. now apply (H1 _ _ G).
        -- constructor; [|constructor]. split; [exact E | exact He].
    + apply H1.
  - intros k. rewrite ambiguous_addBarangay, barangays_at_addBarangay.
    rewrite Str_eqb_sym. destruct (Str.eqb (normalizeKey bn) k) eqn:E.
    + apply Str_eqb_eq in E. subst k. rewrite length_app. cbn [length andb].
      rewrite orb_true_iff, H2, Nat.leb_le. lia.
    + cbn [andb]. rewrite orb_false_r. apply H2.
Qed.

Lemma addBarangay_keeps_entry rn rc pn cn idx bn e :
  has_barangay idx e -> has_barangay (addBarangay rn rc pn cn idx bn) e.
Proof.
  unfold has_barangay. rewrite barangays_at_addBarangay.
  destruct (Str.eqb _ _); [|auto]. intros H. apply in_or_app. now left.
Qed.

Lemma addBarangay_has_entry rn rc pn cn idx bn :
  has_barangay (addBarangay rn rc pn cn idx bn)
               {| b_barangay := bn; b_city := cn; b_province := pn;
                  b_region := rn; b_regionCode := rc |}.
Proof.
  unfold has_barangay. rewrite barangays_at_addBarangay. cbn [b_barangay].
  rewrite Str_eqb_refl. apply in_or_app. right. now left.
Qed.

(** The second half of [addCity]: the barangays, after the city is recorded. *)
Lemma addCity_unfold rn rc pn idx cn bl :
  exists idx', addCity rn rc pn idx (cn, bl) = fold_left (addBarangay rn rc pn cn) bl idx' /\
               barangayIndex idx' = barangayIndex idx /\
               ambiguousBarangays idx' = ambiguousBarangays idx.
Proof. unfold addCity. eexists. split; [reflexivity|]. split; reflexivity. Qed.

Lemma table_ok_ext data idx idx' :
  barangayIndex idx' = barangayIndex idx ->
  ambiguousBarangays idx' = ambiguousBarangays idx ->
  barangay_table_ok data idx -> barangay_table_ok data idx'.
Proof.
  intros E1 E2. unfold barangay_table_ok, barangays_at. now rewrite E1, E2.
Qed.

Lemma has_barangay_ext idx idx' e :
  barangayIndex idx' = barangayIndex idx -> has_barangay idx e -> has_barangay idx' e.
Proof. intros E. unfold has_barangay, barangays_at. now rewrite E. Qed.

Section BarangayTable.

Variable data : Dataset.

Lemma addCity_table_ok code rd pn ms idx cn bl :
  In (code, rd) data -> In (pn, ms) (provinces rd) -> In (cn, bl) ms ->
  barangay_table_ok data idx ->
  barangay_table_ok data (addCity (region_name rd) code pn idx (cn, bl)).
Proof.
  intros Hr Hp Hc H.
  destruct (addCity_unfold (region_name rd) code pn idx cn bl) as (idx' & -> & E1 & E2).
  apply fold_left_invariant.
  - intros a bn Hb. apply addBarangay_table_ok.
    exists code, rd, ms, bl. cbn. repeat split; assumption.
  - now apply (table_ok_ext data idx idx').
Qed.

Lemma addProvince_table_ok code rd idx p :
  In (code, rd) data -> In p (provinces rd) ->
  barangay_table_ok data idx ->
  barangay_table_ok data (addProvince (region_name rd) code idx p).
Proof.
  destruct p as [pn ms]. intros Hr Hp H. unfold addProvince.
  apply fold_left_invariant.
  - intros a [cn bl] Hc. now apply (addCity_table_ok code rd pn ms).
  - revert H. apply table_ok_ext; reflexivity.
Qed.

Lemma addRegion_table_ok idx region :
  In region data -> barangay_table_ok data idx -> barangay_table_ok data (addRegion idx region).
Proof.
  destruct region as [code rd]. intros Hr. unfold addRegion.
  apply fold_left_invariant. intros a p Hp. now apply addProvince_table_ok.
Qed.

Lemma buildIndexes_table_ok : barangay_table_ok data (buildIndexes data).
Proof.
  unfold buildIndexes.
  apply (table_ok_ext data (fold_left addRegion data emptyIndex)); try reflexivity.
  apply fold_left_invariant.
  - intros a x Hx. now apply addRegion_table_ok.
  - split.
    + intros k l. discriminate.
    + intros k. cbn. split; [discriminate | lia].
Qed.

Lemma addCity_keeps_entry rn rc pn idx city e :
  has_barangay idx e -> has_barangay (addCity rn rc pn idx city) e.
Proof.
  destruct city as [cn bl]. intros H.
  destruct (addCity_unfold rn rc pn idx cn bl) as (idx' & -> & E1 & _).
  apply (fold_left_invariant (fun a => has_barangay a e)).
  - intros a bn _. apply addBarangay_keeps_entry.
  - now apply (has_barangay_ext idx idx').
Qed.

Lemma addProvince_keeps_entry rn rc idx p e :
  has_barangay idx e -> has_barangay (addProvince rn rc idx p) e.
Proof.
  destruct p as [pn ms]. intros H. unfold addProvince.
  apply (fold_left_invariant (fun a => has_barangay a e)).
  - intros a city _. apply addCity_keeps_entry.
  - revert H. apply has_barangay_ext. reflexivity.
Qed.

Lemma addRegion_keeps_entry idx region e :
  has_barangay idx e -> has_barangay (addRegion idx region) e.
Proof.
  destruct region as [code rd]. unfold addRegion.
  apply (fold_left_invariant (fun a => has_barangay a e)).
  intros a p _. apply addProvince_keeps_entry.
Qed.

Lemma buildIndexes_has_barangay e :
  barangay_of data e -> has_barangay (buildIndexes data) e.
Proof.
  intros (code & rd & ms & bl & Hr & Hp & Hc & Hb & Er & Ec).
  assert (Ee : e = {| b_barangay := b_barangay e; b_city := b_city e;
                      b_province := b_province e; b_region := region_name rd;
                      b_regionCode := code |}).
  { destruct e. cbn in *. now subst. }
  unfold buildIndexes.
  apply (has_barangay_ext (fold_left addRegion data emptyIndex)); [reflexivity|].
  apply (fold_left_establish (fun a => has_barangay a e) addRegion data (code, rd));
    [intros a x; apply addRegion_keeps_entry | | exact Hr].
  intros a. unfold addRegion.
  apply (fold_left_establish (fun a => has_barangay a e)
           (addProvince (region_name rd) code) (provinces rd) (b_province e, ms));
    [intros a' x; apply addProvince_keeps_entry | | exact Hp].
  intros a'. unfold addProvince.
  apply (fold_left_establish (fun a => has_barangay a e)
           (addCity (region_name rd) code (b_province e)) ms (b_city e, bl));
    [intros a'' x; apply addCity_keeps_entry | | exact Hc].
  intros a''.
  destruct (addCity_unfold (region_name rd) code (b_province e) a'' (b_city e) bl)
    as (idx' & -> & _ & _).
  apply (fold_left_establish (fun a => has_barangay a e)
           (addBarangay (region_name rd) code (b_province e) (b_city e)) bl (b_barangay e));
    [intros a3 x; apply addBarangay_keeps_entry | | exact Hb].
  intros a3.
  pose proof (addBarangay_has_entry (region_name rd) code (b_province e) (b_city e)
                a3 (b_barangay e)) as H.
  now rewrite <- Ee in H.
Qed.

End BarangayTable.

(** ** Lookups in the index built from a dataset *)

Lemma barangays_at_entries data k m :
  In m (barangays_at (buildIndexes data) k) ->
  normalizeKey (b_barangay m) = k /\ barangay_of data m.
Proof.
  destruct (buildIndexes_table_ok data) as [H _]. unfold barangays_at.
  destruct (Obj.get k _) as [l|] eqn:G; [|contradiction]. cbn. intros I.
  destruct (H _ _ G) as [_ F]. rewrite Forall_forall in F. now apply F.
Qed.

(** X8.  without hints findBarangay answers exactly for the names that the
    dataset has once; the guard on isAmbiguousBarangay of the generic branch
    of V2 is then always passed. *)
Theorem findBarangay_without_hints (data : Dataset) (name : jsstring) :
  match findBarangay (buildIndexes data) name None None with
  | Some m =>
      barangays_at (buildIndexes data) (normalizeKey name) = [m] /\
      isAmbiguousBarangay (buildIndexes data) name = false /\
      barangay_of data m
  | None =>
      barangays_at (buildIndexes data) (normalizeKey name) = [] \/
      isAmbiguousBarangay (buildIndexes data) name = true
  end.
Proof.
  destruct (buildIndexes_table_ok data) as [H1 H2].
  pose proof (barangays_at_entries data (normalizeKey name)) as He.
  specialize (H2 (normalizeKey name)). unfold isAmbiguousBarangay.
  unfold findBarangay, barangays_at in *.
  destruct (Obj.get (normalizeKey name) _) as [l|] eqn:G; cbn [or_empty] in *.
  - destruct (H1 _ _ G) as [N _].
    destruct l as [|m [|m' l]]; [congruence | |].
    + split; [reflexivity|]. split; [|apply He; now left].
      destruct (SSet.has _ _); [|reflexivity]. cbn in H2.
      destruct H2 as [H2 _]. specialize (H2 eq_refl). lia.
    + cbn [hint_given]. right. apply H2. cbn. lia.
  - now left.
Qed.

(** X9.  isAmbiguousBarangay tells whether the key of the name has two entries or more. *)
Theorem isAmbiguousBarangay_iff_shared (data : Dataset) (name : jsstring) :
  isAmbiguousBarangay (buildIndexes data) name = true <->
  exists m1 m2 rest,
    barangays_at (buildIndexes data) (normalizeKey name) = m1 :: m2 :: rest /\
    Forall (fun m => normalizeKey (b_barangay m) = normalizeKey name /\ barangay_of data m)
           (m1 :: m2 :: rest).
Proof.
  destruct (buildIndexes_table_ok data) as [_ H2].
  unfold isAmbiguousBarangay. rewrite H2.
  pose proof (barangays_at_entries data (normalizeKey name)) as He.
  destruct (barangays_at (buildIndexes data) (normalizeKey name)) as [|m1 [|m2 rest]] eqn:E.
  - split; [cbn; lia | intros (? & ? & ? & [=] & _)].
  - split; [cbn; lia | intros (? & ? & ? & [=] & _)].
  - split; [|cbn; lia]. intros _. exists m1, m2, rest. split; [reflexivity|].
    apply Forall_forall. intros m I. now apply He.
Qed.

(** X10.  findBarangay, given a barangay of the dataset and the name of its
    city, returns an entry of the dataset with the key of the barangay whose
    city passes the test of the hint. *)
Theorem findBarangay_with_its_city (data : Dataset) (e : BarangayEntry)
        (provinceContext : option jsstring) :
  barangay_of data e -> b_city e <> [] ->
  exists m,
    findBarangay (buildIndexes data) (b_barangay e) (Some (b_city e)) provinceContext = Some m /\
    normalizeKey (b_barangay m) = normalizeKey (b_barangay e) /\
    city_hint_matches (normalizeKey (b_city e)) m = true /\
    barangay_of data m.
Proof.
  intros He Nc. pose proof (buildIndexes_has_barangay data e He) as P.
  pose proof (barangays_at_entries data (normalizeKey (b_barangay e))) as Hin.
  assert (Me : city_hint_matches (normalizeKey (b_city e)) e = true).
  { unfold city_hint_matches. now rewrite Str_eqb_refl. }
  unfold has_barangay in P. unfold findBarangay. unfold barangays_at in P, Hin.
  destruct (Obj.get _ _) as [l|] eqn:G; [|contradiction]. cbn [or_empty] in P, Hin.
  destruct l as [|m1 [|m2 l]]; [contradiction | |].
  - destruct P as [->|[]]. exists e. repeat split; auto.
  - assert (T : hint_given (Some (b_city e)) = Some (b_city e)).
    { cbn. destruct (b_city e); [congruence | reflexivity]. }
    rewrite T.
    destruct (find (city_hint_matches (normalizeKey (b_city e))) (m1 :: m2 :: l))
      as [m|] eqn:F.
    + apply find_some in F as [I M]. exists m. destruct (Hin m I). repeat split; auto.
    + exfalso. apply find_none with (x := e) in F; [congruence | exact P].
Qed.

Lemma sample_tayud : barangay_of sampleData tayudConsolacion.
Proof.
  exists (chars "07"),
    {| region_name := chars "REGION VII (CENTRAL VISAYAS)";
       provinces :=
         [ (chars "CEBU",
            [ (chars "CEBU CITY", [chars "LAHUG"]);
              (chars "CONSOLACION", [chars "POBLACION"; chars "TAYUD"]) ]) ] |},
    [ (chars "CEBU CITY", [chars "LAHUG"]);
      (chars "CONSOLACION", [chars "POBLACION"; chars "TAYUD"]) ],
    [chars "POBLACION"; chars "TAYUD"].
  cbn. repeat split; auto 10.
Qed.

Lemma findBarangay_with_its_city_witness :
  exists m,
    findBarangay (buildIndexes sampleData) (b_barangay tayudConsolacion)
                 (Some (b_city tayudConsolacion)) None = Some m /\
    normalizeKey (b_barangay m) = normalizeKey (b_barangay tayudConsolacion) /\
    city_hint_matches (normalizeKey (b_city tayudConsolacion)) m = true /\
    barangay_of sampleData m.
Proof.
  apply (findBarangay_with_its_city sampleData tayudConsolacion None).
  - exact sample_tayud.
  - discriminate.
Defined.

(** X11.  validateHierarchy accepts a barangay and a city exactly when the
    dataset has a barangay with the key of the first in a city with the key
    of the second. *)
Theorem validateHierarchy_barangay_city (data : Dataset) (barangay city : jsstring) :
  barangay <> [] -> city <> [] ->
  (validateHierarchy (buildIndexes data) barangay city [] = true <->
   exists m, barangay_of data m /\
             normalizeKey (b_barangay m) = normalizeKey barangay /\
             normalizeKey (b_city m) = normalizeKey city).
Proof.
  intros Nb Nc. unfold validateHierarchy.
  assert (Tb : Str.truthy barangay = true) by (destruct barangay; [congruence | reflexivity]).
  assert (Tc : Str.truthy city = true) by (destruct city; [congruence | reflexivity]).
  rewrite Tb, Tc. cbn [andb Str.truthy]. rewrite andb_true_r.
  pose proof (barangays_at_entries data (normalizeKey barangay)) as Hin.
  unfold barangays_at in Hin. split.
  - destruct (Obj.get _ _) as [l|] eqn:G; [|discriminate]. cbn [or_empty] in Hin.
    intros X. apply existsb_exists in X as (m & I & E). apply Str_eqb_eq in E.
    exists m. destruct (Hin m I). auto.
  - intros (m & Hm & Kb & Kc).
    pose proof (buildIndexes_has_barangay data m Hm) as P.
    unfold has_barangay, barangays_at in P. rewrite Kb in P.
    destruct (Obj.get _ _) as [l|] eqn:G; [|contradiction]. cbn [or_empty] in P.
    apply existsb_exists. exists m. split; [exact P|]. now apply Str_eqb_eq.
Qed.

Lemma validateHierarchy_barangay_city_witness :
  validateHierarchy (buildIndexes sampleData) (chars "Brgy. Tayud") (chars "Consolacion") []
  = true.
Proof.
  apply (validateHierarchy_barangay_city sampleData (chars "Brgy. Tayud")
           (chars "Consolacion")); try discriminate.
  exists tayudConsolacion. split; [exact sample_tayud|]. split; vm_compute; reflexivity.
Defined.

(** ** The city table *)

Lemma cityIndex_addBarangays rn rc pn cn bl : forall idx,
  cityIndex (fold_left (addBarangay rn rc pn cn) bl idx) = cityIndex idx.
Proof. induction bl as [|b bl IH]; intros idx; [reflexivity|]. cbn [fold_left]. now rewrite IH. Qed.

Lemma cityIndex_addCity rn rc pn idx cn bl :
  cityIndex (addCity rn rc pn idx (cn, bl)) =
  Obj.set (normalizeKey cn)
          (or_empty (Obj.get (normalizeKey cn) (cityIndex idx)) ++
           [{| c_city := cn; c_province := pn; c_region := rn; c_regionCode := rc;
               c_barangays := bl |}])
          (cityIndex idx).
Proof. unfold addCity. now rewrite cityIndex_addBarangays. Qed.

Lemma set_lists_ok key l ci :
  l <> [] -> city_lists_ok ci -> city_lists_ok (Obj.set key l ci).
Proof.
  intros N H k l'. rewrite get_set. destruct (Str.eqb key k); [|apply H].
  now intros [= <-].
Qed.

Lemma set_keeps_key key l ci k :
  l <> [] -> has_city_key ci k -> has_city_key (Obj.set key l ci) k.
Proof.
  intros N (l0 & G & N0). unfold has_city_key. rewrite get_set.
  destruct (Str.eqb key k); eauto.
Qed.

Lemma set_city_table key l ci k :
  l <> [] -> city_table k ci -> city_table k (Obj.set key l ci).
Proof. intros N [H1 H2]. split; [now apply set_lists_ok | now apply set_keeps_key]. Qed.

Lemma applyAlias_city_table k ci a : city_table k ci -> city_table k (applyAlias ci a).
Proof.
  destruct a as [alias target]. unfold applyAlias. intros H.
  destruct (Obj.get alias ci); [exact H|].
  destruct (Obj.get target ci) as [l|] eqn:G; [|exact H].
  apply set_city_table; [|exact H]. destruct H as [H _]. now apply (H target).
Qed.

Lemma applyCommonAlias_city_table k ci a :
  city_table k ci -> city_table k (applyCommonAlias ci a).
Proof.
  destruct a as [alias canonical]. unfold applyCommonAlias. intros H.
  destruct (Obj.get (normalizeKey canonical) ci) as [l|] eqn:G; [|exact H].
  apply set_city_table; [|exact H]. destruct H as [H _]. now apply (H _ _ G).
Qed.

Lemma addCity_lists_ok rn rc pn idx city :
  city_lists_ok (cityIndex idx) -> city_lists_ok (cityIndex (addCity rn rc pn idx city)).
Proof.
  destruct city as [cn bl]. rewrite cityIndex_addCity. apply set_lists_ok.
  destruct (or_empty _); discriminate.
Qed.

Lemma addCity_keeps_key rn rc pn idx city k :
  has_city_key (cityIndex idx) k -> has_city_key (cityIndex (addCity rn rc pn idx city)) k.
Proof.
  destruct city as [cn bl]. rewrite cityIndex_addCity. apply set_keeps_key.
  destruct (or_empty _); discriminate.
Qed.

Lemma addCity_has_key rn rc pn idx cn bl :
  has_city_key (cityIndex (addCity rn rc pn idx (cn, bl))) (normalizeKey cn).
Proof.
  rewrite cityIndex_addCity. eexists. rewrite get_set_same. split; [reflexivity|].
  destruct (or_empty _); discriminate.
Qed.

Lemma addProvince_lists_ok rn rc idx p :
  city_lists_ok (cityIndex idx) -> city_lists_ok (cityIndex (addProvince rn rc idx p)).
Proof.
  destruct p as [pn ms]. intros H. unfold addProvince.
  apply (fold_left_invariant (fun a => city_lists_ok (cityIndex a))); [|exact H].
  intros a city _. apply addCity_lists_ok.
Qed.

Lemma addProvince_keeps_city_key rn rc idx p k :
  has_city_key (cityIndex idx) k -> has_city_key (cityIndex (addProvince rn rc idx p)) k.
Proof.
  destruct p as [pn ms]. intros H. unfold addProvince.
  apply (fold_left_invariant (fun a => has_city_key (cityIndex a) k)); [|exact H].
  intros a city _. apply addCity_keeps_key.
Qed.

Lemma addRegion_lists_ok idx region :
  city_lists_ok (cityIndex idx) -> city_lists_ok (cityIndex (addRegion idx region)).
Proof.
  destruct region as [code rd]. unfold addRegion.
  apply (fold_left_invariant (fun a => city_lists_ok (cityIndex a))).
  intros a p _. apply addProvince_lists_ok.
Qed.

Lemma addRegion_keeps_city_key idx region k :
  has_city_key (cityIndex idx) k -> has_city_key (cityIndex (addRegion idx region)) k.
Proof.
  destruct region as [code rd]. unfold addRegion.
  apply (fold_left_invariant (fun a => has_city_key (cityIndex a) k)).
  intros a p _. apply addProvince_keeps_city_key.
Qed.

Lemma buildIndexes_city_table data province city :
  in_gazetteer data province city ->
  city_table (normalizeKey city) (cityIndex (buildIndexes data)).
Proof.
  intros (code & rd & ms & bl & Hr & Hp & Hc).
  unfold buildIndexes, addCityAliases. cbn [cityIndex].
  apply fold_left_invariant; [intros; now apply applyCommonAlias_city_table|].
  apply fold_left_invariant; [intros; now apply applyAlias_city_table|].
  split.
  - apply (fold_left_invariant (fun a => city_lists_ok (cityIndex a))).
    + intros a x _. apply addRegion_lists_ok.
    + intros k l. discriminate.
  - apply (fold_left_establish (fun a => has_city_key (cityIndex a) (normalizeKey city))
             addRegion data (code, rd));
      [intros a x; apply addRegion_keeps_city_key | | exact Hr].
    intros a. unfold addRegion.
    apply (fold_left_establish (fun a => has_city_key (cityIndex a) (normalizeKey city))
             (addProvince (region_name rd) code) (provinces rd) (province, ms));
      [intros a' x; apply addProvince_keeps_city_key | | exact Hp].
    intros a'. unfold addProvince.
    apply (fold_left_establish (fun a => has_city_key (cityIndex a) (normalizeKey city))
             (addCity (region_name rd) code province) ms (city, bl));
      [intros a'' x; apply addCity_keeps_key | | exact Hc].
    intros a''. apply addCity_has_key.
Qed.

(** X12.  findCity answers for every city of the dataset, whatever the hint,
    with a city that the dataset has under the province it names. *)
Theorem findCity_of_dataset (data : Dataset) (province city : jsstring)
        (provinceContext : option jsstring) :
  in_gazetteer data province city ->
  exists c, findCity (buildIndexes data) city provinceContext = Some c /\
            in_gazetteer data (c_province c) (c_city c).
Proof.
  intros H. destruct (buildIndexes_city_table data province city H) as [_ (l & G & N)].
  assert (E : exists c, findCity (buildIndexes data) city provinceContext = Some c).
  { unfold findCity. rewrite G.
    destruct l as [|m1 [|m2 l]]; [congruence | eauto |].
    destruct (match hint_given provinceContext with Some _ => _ | None => _ end); [eauto|].
    destruct (match Obj.get (normalizeKey city) priorityCities with
              | Some _ => _ | None => _ end); eauto. }
  destruct E as [c E]. exists c. split; [exact E|].
  apply findCity_from_index in E as (key & l' & G' & I).
  destruct (buildIndexes_ok data) as [_ Hc].
  pose proof (@Forall_get _ (fun kv => Forall _ (snd kv)) key l' _ Hc G') as F.
  cbv beta in F. rewrite Forall_forall in F. now apply F.
Qed.

Lemma findCity_of_dataset_witness :
  exists c, findCity (buildIndexes sampleData) (chars "SAN ISIDRO") None = Some c /\
            in_gazetteer sampleData (c_province c) (c_city c).
Proof.
  apply (findCity_of_dataset sampleData (chars "NORTHERN SAMAR") (chars "SAN ISIDRO") None).
  eexists (chars "08"), _, _, _. split; [right; right; left; reflexivity|].
  split; [right; left; reflexivity | left; reflexivity].
Defined.

(** ** Texts in normal form *)

Section Tidy.

Variable P : ascii -> bool.
Hypothesis P_not_space : forall c, P c = true -> Char.is_space c = false.

Lemma spaced_chars : forall s b c,
  spaced P b s = true -> In c s -> c = " "%char \/ P c = true.
Proof.
  induction s as [|x s IH]; intros b c H I; [contradiction|].
  cbn [spaced] in H. destruct (Ascii.eqb x " ") eqn:E.
  - apply andb_true_iff in H as [_ H]. destruct I as [<-|I].
    + left. now apply Ascii.eqb_eq.
    + eapply IH; eauto.
  - apply andb_true_iff in H as [K H]. destruct I as [<-|I].
    + now right.
    + eapply IH; eauto.
Qed.

Lemma spaced_prefix : forall l1 l2 b,
  spaced P b (l1 ++ l2) = true -> spaced P b l1 = true.
Proof.
  induction l1 as [|c l1 IH]; intros l2 b H; [reflexivity|]. cbn [app spaced] in *.
  destruct (Ascii.eqb c " "); apply andb_true_iff in H as [H1 H2];
    apply andb_true_iff; split; eauto.
Qed.

Lemma spaced_trimStart_id s : spaced P true s = true -> Str.trimStart s = s.
Proof.
  destruct s as [|c s]; [reflexivity|]. cbn [spaced Str.trimStart].
  destruct (Ascii.eqb c " "); [discriminate|]. intros H.
  apply andb_true_iff in H as [K _]. now rewrite (P_not_space _ K).
Qed.

Lemma spaced_trimStart s :
  spaced P false s = true -> spaced P true (Str.trimStart s) = true.
Proof.
  destruct s as [|c s]; [reflexivity|]. cbn [spaced Str.trimStart].
  destruct (Ascii.eqb c " ") eqn:E.
  - apply Ascii.eqb_eq in E. subst c. cbn. intros H.
    now rewrite (spaced_trimStart_id _ H).
  - intros H. pose proof H as H'. apply andb_true_iff in H as [K _].
    rewrite (P_not_space _ K). cbn [spaced]. now rewrite E.
Qed.

Lemma collapse_is_spaced : forall s b,
  Forall (fun c => P c || Char.is_space c = true) s ->
  spaced P b (collapse b s) = true.
Proof.
  induction s as [|c s IH]; intros b F; [reflexivity|].
  inversion F as [|c' s' Hc Fs]; subst. cbn [collapse].
  destruct (Char.is_space c) eqn:S.
  - destruct b; [now apply IH|]. cbn. now apply IH.
  - rewrite orb_false_r in Hc. cbn [spaced].
    destruct (Ascii.eqb c " ") eqn:E.
    + apply Ascii.eqb_eq in E. subst c. discriminate S.
    + rewrite Hc. cbn. now apply IH.
Qed.

Lemma spaced_collapse_id : forall s b, spaced P b s = true -> collapse b s = s.
Proof.
  induction s as [|c s IH]; intros b H; [reflexivity|]. cbn [spaced collapse] in *.
  destruct (Ascii.eqb c " ") eqn:E.
  - apply Ascii.eqb_eq in E. subst c. cbn.
    apply andb_true_iff in H as [B H]. apply negb_true_iff in B. subst b.
    now rewrite (IH true H).
  - apply andb_true_iff in H as [K H]. rewrite (P_not_space _ K).
    now rewrite (IH false H).
Qed.

Lemma spaced_weaken s : spaced P true s = true -> spaced P false s = true.
Proof.
  destruct s as [|c s]; cbn; [auto|]. destruct (Ascii.eqb c " "); [discriminate | auto].
Qed.

(** Collapsing the white space and trimming gives a text in normal form. *)
Lemma tidy_trim_collapse s :
  Forall (fun c => P c || Char.is_space c = true) s ->
  tidy P (Str.trim (collapse false s)).
Proof.
  intros F. pose proof (collapse_is_spaced s false F) as H.
  apply spaced_trimStart in H. unfold Str.trim. split.
  - destruct (trimEnd_prefix (Str.trimStart (collapse false s))) as [t E].
    rewrite E in H. now apply spaced_prefix in H.
  - apply trimEnd_idem.
Qed.

(** A text in normal form is left as it is. *)
Lemma tidy_fixed k : tidy P k -> Str.trim (collapse false k) = k.
Proof.
  intros [S T]. rewrite (spaced_collapse_id k false (spaced_weaken k S)).
  unfold Str.trim. now rewrite (spaced_trimStart_id k S).
Qed.

Lemma tidy_chars k c : tidy P k -> In c k -> c = " "%char \/ P c = true.
Proof. intros [S _]. now apply (spaced_chars k true). Qed.

End Tidy.

(** ** normalizeForMatching *)

Lemma matching_char_facts c :
  (matching_char c = true -> Char.is_space c = false) /\
  (let c' := if mem false (Not (Union Word (Union Space (Union (One ",")
                                  (Union (One ".") (One "-")))))) c
             then " "%char else c in
   matching_char c' || Char.is_space c' = true) /\
  (matching_char c = true \/ c = " "%char ->
   mem false (Not (Union Word (Union Space (Union (One ",")
                      (Union (One ".") (One "-")))))) c = false).
Proof.
  pose proof (@forall_ascii
    (fun c =>
       let U := mem false (Not (Union Word (Union Space (Union (One ",")
                                  (Union (One ".") (One "-")))))) c in
       let c' := if U then " "%char else c in
       implb (matching_char c) (negb (Char.is_space c)) &&
       (matching_char c' || Char.is_space c') &&
       implb (matching_char c || Ascii.eqb c " ") (negb U))) as A.
  specialize (A ltac:(vm_compute; reflexivity) c). cbv beta zeta in A.
  apply andb_true_iff in A as [A A3]. apply andb_true_iff in A as [A1 A2].
  repeat split.
  - intros M. rewrite M in A1. now apply negb_true_iff.
  - exact A2.
  - intros [M | ->].
    + rewrite M in A3. now apply negb_true_iff.
    + cbn in A3. reflexivity.
Qed.

Lemma normalizeForMatching_unfold t :
  Matcher.normalizeForMatching t =
  Str.trim (collapse false
    (map (fun c => if mem false (Not (Union Word (Union Space (Union (One ",")
                                        (Union (One ".") (One "-")))))) c
                   then " "%char else c) t)).
Proof.
  unfold Matcher.normalizeForMatching, Matcher.re_unmatched.
  change (chars " ") with [" "%char]. now rewrite replace_all_ws_plus, replace_all_Chr.
Qed.

(** X13.  the result of normalizeForMatching is in normal form, and
    normalizeForMatching leaves it as it is. *)
Theorem normalizeForMatching_idempotent (text : jsstring) :
  tidy matching_char (Matcher.normalizeForMatching text) /\
  Matcher.normalizeForMatching (Matcher.normalizeForMatching text)
  = Matcher.normalizeForMatching text.
Proof.
  assert (T : tidy matching_char (Matcher.normalizeForMatching text)).
  { rewrite normalizeForMatching_unfold. apply tidy_trim_collapse.
    - intros c. apply matching_char_facts.
    - apply Forall_forall. intros c I. apply in_map_iff in I as (c0 & <- & _).
      apply (matching_char_facts c0). }
  split; [exact T|].
  set (k := Matcher.normalizeForMatching text) in *.
  rewrite normalizeForMatching_unfold.
  replace (map _ k) with k.
  - apply (tidy_fixed matching_char); [|exact T]. intros c. apply matching_char_facts.
  - symmetry. rewrite <- (map_id k) at 2. apply map_ext_in. intros c I.
    destruct (tidy_chars matching_char k c T I) as [-> | M].
    + reflexivity.
    + destruct (matching_char_facts c) as (_ & _ & H). now rewrite H by (now left).
Qed.

(** ** normalize *)

Lemma upper_alnum_facts c :
  (upper_alnum c = true -> Char.is_space c = false) /\
  (upper_alnum c = true \/ c = " "%char ->
   Char.upper c = c /\
   mem false (Not (Union (Range "A" "Z") (Union (Range "0" "9") Space))) c = false) /\
  (mem false (Not (Union (Range "A" "Z") (Union (Range "0" "9") Space))) c = false ->
   upper_alnum c || Char.is_space c = true).
Proof.
  pose proof (@forall_ascii
    (fun c =>
       let U := mem false (Not (Union (Range "A" "Z") (Union (Range "0" "9") Space))) c in
       implb (upper_alnum c) (negb (Char.is_space c)) &&
       implb (upper_alnum c || Ascii.eqb c " ") (Ascii.eqb (Char.upper c) c && negb U) &&
       implb (negb U) (upper_alnum c || Char.is_space c))) as A.
  specialize (A ltac:(vm_compute; reflexivity) c). cbv beta zeta in A.
  apply andb_true_iff in A as [A A3]. apply andb_true_iff in A as [A1 A2].
  repeat split.
  - intros M. rewrite M in A1. now apply negb_true_iff.
  - destruct H as [M | ->]; [|reflexivity].
    rewrite M in A2. cbn in A2. apply andb_true_iff in A2 as [E _]. now apply Ascii.eqb_eq.
  - destruct H as [M | ->]; [|reflexivity].
    rewrite M in A2. cbn in A2. apply andb_true_iff in A2 as [_ E]. now apply negb_true_iff.
  - intros U. rewrite U in A3. exact A3.
Qed.

Lemma normalize_unfold t :
  t <> [] ->
  Excel.normalize t =
  Str.trim (collapse false
    (flat_map (fun c => if mem false (Not (Union (Range "A" "Z")
                                            (Union (Range "0" "9") Space))) c
                        then [] else [c]) (Text.toUpperCase t))).
Proof.
  intros N. unfold Excel.normalize, Excel.re_other.
  destruct t as [|c t]; [congruence|]. cbn [Str.truthy negb].
  change (chars " ") with [" "%char]. now rewrite replace_all_ws_plus, replace_all_Chr_str.
Qed.

Lemma normalize_tidy (text : jsstring) : tidy upper_alnum (Excel.normalize text).
Proof.
  destruct text as [|c0 text]; [split; reflexivity|].
  rewrite normalize_unfold by discriminate. apply tidy_trim_collapse.
  - intros c. apply upper_alnum_facts.
  - apply Forall_forall. intros c I. apply in_flat_map in I as (c1 & _ & I).
    destruct (mem false _ c1) eqn:U; [contradiction|].
    destruct I as [<-|[]]. now apply upper_alnum_facts.
Qed.

(** X14.  the result of normalize is in normal form, and normalize leaves it as it is. *)
Theorem normalize_idempotent (text : jsstring) :
  tidy upper_alnum (Excel.normalize text) /\
  Excel.normalize (Excel.normalize text) = Excel.normalize text.
Proof.
  pose proof (normalize_tidy text) as T.
  split; [exact T|].
  set (k := Excel.normalize text) in *.
  destruct k as [|c0 k'] eqn:Ek; [reflexivity|]. rewrite <- Ek in *.
  rewrite normalize_unfold by (rewrite Ek; discriminate).
  assert (U : Text.toUpperCase k = k).
  { unfold Text.toUpperCase. rewrite <- (map_id k) at 2. apply map_ext_in. intros c I.
    destruct (upper_alnum_facts c) as (_ & H & _).
    destruct (tidy_chars upper_alnum k c T I) as [E | M]; apply H; auto. }
  rewrite U.
  replace (flat_map _ k) with k.
  - apply (tidy_fixed upper_alnum); [|exact T]. intros c. apply upper_alnum_facts.
  - clear U Ek. assert (F : forall c, In c k -> c = " "%char \/ upper_alnum c = true).
    { intros c I. exact (tidy_chars upper_alnum k c T I). }
    clear T. induction k as [|c k IH]; [reflexivity|]. cbn [flat_map].
    destruct (upper_alnum_facts c) as (_ & H & _).
    assert (Hc : upper_alnum c = true \/ c = " "%char).
    { destruct (F c (or_introl eq_refl)); auto. }
    destruct (H Hc) as [_ ->].
    cbn. f_equal. apply IH. intros c' I. apply F. now right.
Qed.

(** ** The confidence of the enhanced matcher *)






(** ** Deleting every match of a pattern *)

Lemma search_match_at r : forall ah sn b e,
  search r sn ah = Some (b, e) -> match_at r b = Some e.
Proof.
  induction ah as [|x ah IH]; intros sn b e; cbn [search].
  - destruct (match_at r (Cursor sn [])) eqn:M; [|discriminate]. now intros [= <- <-].
  - destruct (match_at r (Cursor sn (x :: ah))) eqn:M.
    + now intros [= <- <-].
    + apply IH.
Qed.

(** What [search] tells about a match it finds in [ah]. *)
Lemma search_found r ah sn b e :
  search r sn ah = Some (b, e) ->
  exists skipped mid,
    ah = skipped ++ mid ++ ahead e /\
    b = Cursor (rev skipped ++ sn) (mid ++ ahead e) /\
    seen e = rev mid ++ rev skipped ++ sn /\
    match_at r b = Some e /\
    (forall s1 s2 e', skipped = s1 ++ s2 -> s2 <> [] ->
                      ~ Den r (Cursor (rev s1 ++ sn) (s2 ++ mid ++ ahead e)) e').
Proof.
  intros S. pose proof (search_match_at _ _ _ _ _ S) as M.
  apply search_sound in S as (D & skipped & A & Sn & N).
  apply Den_span in D as (mid & A' & S').
  exists skipped, mid. rewrite <- A'. split; [exact A|]. split; [|split; [|split]].
  - destruct b. cbn in *. now subst.
  - now rewrite S', Sn.
  - exact M.
  - intros s1 s2 e' E1 E2. now apply N.
Qed.

(** The greedy star over one class takes the whole run. *)
Section ClassRun.

Variables (ci : bool) (cs : cset).

Lemma drop_class_length s : length (drop_class ci cs s) <= length s.
Proof. induction s as [|c s IH]; cbn; [lia|]. destruct (mem ci cs c); cbn; lia. Qed.

Lemma take_drop_class s : s = take_class ci cs s ++ drop_class ci cs s.
Proof. induction s as [|c s IH]; cbn; [reflexivity|]. destruct (mem ci cs c); cbn; congruence. Qed.

Lemma drop_class_stops s : stops (mem ci cs) (drop_class ci cs s).
Proof.
  induction s as [|c s IH]; cbn; [exact I|].
  destruct (mem ci cs c) eqn:E; [exact IH | exact E].
Qed.

Lemma star_class_greedy : forall fuel ah sn,
  length ah <= fuel ->
  star_loop true (rmatch (Chr ci cs)) fuel (Cursor sn ah) (fun c => Some c)
  = Some (Cursor (rev (take_class ci cs ah) ++ sn) (drop_class ci cs ah)).
Proof.
  induction fuel as [|fuel IH]; intros ah sn L.
  - destruct ah; [reflexivity | cbn in L; lia].
  - destruct ah as [|x ah]; [reflexivity|]. cbn in L.
    cbn [star_loop rmatch ahead seen].
    destruct (mem ci cs x) eqn:Sx; cbn [take_class drop_class]; rewrite Sx.
    + cbn [ahead].
      destruct (Nat.ltb_spec (length ah) (length (x :: ah))) as [_|B]; [|cbn in B; lia].
      rewrite IH by lia. cbn. now rewrite <- app_assoc.
    + reflexivity.
Qed.

End ClassRun.

(** ** The pattern of a mention or a hashtag *)

Lemma match_at_tag t sn ah :
  match_at (tag_pattern t) (Cursor sn ah) =
  match ah with
  | x :: y :: rest =>
      if Ascii.eqb t x && Char.is_word y
      then Some (Cursor (rev (take_class false Word rest) ++ y :: x :: sn)
                        (drop_class false Word rest))
      else None
  | _ => None
  end.
Proof.
  unfold match_at, tag_pattern, Plus. cbn [Seqs Lit rmatch ahead seen mem].
  destruct ah as [|x [|y rest]]; [reflexivity | |].
  - destruct (Ascii.eqb t x); [|reflexivity]. unfold wordc at 1. reflexivity.
  - destruct (Ascii.eqb t x); [|reflexivity]. cbn [andb ahead seen].
    unfold wordc at 1. cbn [rmatch ahead seen mem].
    destruct (Char.is_word y); [|reflexivity]. cbn [ahead].
    unfold wordc. rewrite star_class_greedy by lia. reflexivity.
Qed.

Lemma Den_tag t sn y rest :
  Char.is_word y = true ->
  Den (tag_pattern t) (Cursor sn (t :: y :: rest)) (Cursor (y :: t :: sn) rest).
Proof.
  intros W. unfold tag_pattern. cbn [Seqs Lit].
  apply DSeq with (c1 := Cursor (t :: sn) (y :: rest)).
  - apply DSeq with (c1 := Cursor (t :: sn) (y :: rest)); [|constructor].
    constructor. cbn. apply Ascii.eqb_refl.
  - apply (Den_plus_class true false Word). exists [y]. repeat split; try discriminate.
    cbn. now rewrite W.
Qed.

(** Characters that are kept where no match begins. *)
Lemma keep_unmatched t skipped : forall sn tail out,
  (forall s1 s2 e', skipped = s1 ++ s2 -> s2 <> [] ->
                    ~ Den (tag_pattern t) (Cursor (rev s1 ++ sn) (s2 ++ tail)) e') ->
  Stripped t tail out -> Stripped t (skipped ++ tail) (skipped ++ out).
Proof.
  induction skipped as [|x skipped IH]; intros sn tail out N S; [exact S|].
  cbn [app]. apply St_keep.
  - intros ->. destruct (skipped ++ tail) as [|y rest] eqn:E; [exact I|]. cbn.
    destruct (Char.is_word y) eqn:W; [|reflexivity]. exfalso.
    apply (N [] (t :: skipped) (Cursor (y :: t :: sn) rest) eq_refl ltac:(discriminate)).
    cbn [rev app]. rewrite E. now apply Den_tag.
  - apply (IH (x :: sn)); [|exact S]. intros s1 s2 e' E1 E2.
    specialize (N (x :: s1) s2 e'). cbn [rev app] in N. rewrite <- app_assoc in N.
    apply N; [now rewrite E1 | exact E2].
Qed.

Lemma replace_from_stripped t : forall fuel ah sn,
  length ah < fuel ->
  Stripped t ah (replace_from fuel (tag_pattern t) [] sn ah).
Proof.
  induction fuel as [|fuel IH]; intros ah sn L; [lia|]. cbn [replace_from].
  destruct (search (tag_pattern t) sn ah) as [[b e]|] eqn:S.
  - apply search_found in S as (skipped & mid & A & -> & Se & M & N).
    rewrite match_at_tag in M.
    destruct (mid ++ ahead e) as [|x [|y rest]] eqn:E; try discriminate.
    destruct (Ascii.eqb t x && Char.is_word y) eqn:C; [|discriminate].
    injection M as M. subst e. cbn [ahead seen] in *. subst ah.
    rewrite slice_skipped.
    pose proof (drop_class_length false Word rest) as Ld.
    destruct (Nat.ltb_spec (length (drop_class false Word rest)) (length (x :: y :: rest)))
      as [_|B]; [|cbn in B; lia].
    cbn [app].
    apply (keep_unmatched t skipped sn).
    + intros s1 s2 e' E1 E2. now apply N.
    + change (x :: y :: rest) with ([x; y] ++ rest).
      rewrite (take_drop_class false Word rest) at 1. rewrite app_assoc.
      apply St_block; [apply drop_class_stops|].
      apply IH. rewrite length_app in L. cbn in L. lia.
  - rewrite <- (app_nil_r ah) at 1. rewrite <- (app_nil_r ah) at 2.
    apply (keep_unmatched t ah sn); [|constructor].
    intros s1 s2 e' E1 E2 D. rewrite app_nil_r in D.
    apply (search_complete (tag_pattern t) s1 sn s2 e') in D. now rewrite <- E1 in D.
Qed.

Lemma replace_all_stripped t s : Stripped t s (replace_all (tag_pattern t) [] s).
Proof. unfold replace_all. apply replace_from_stripped. lia. Qed.

(** ** What deleting keeps *)

Lemma stripped_stops t s out :
  Stripped t s out -> stops Char.is_word s -> stops Char.is_word out.
Proof.
  induction 1 as [|x s out K S IH|B s out St S IH]; intros H.
  - exact I.
  - exact H.
  - now apply IH.
Qed.

Lemma no_tag_cons t x s :
  no_tag t (x :: s) =
  match s with
  | y :: _ => negb (Ascii.eqb x t && Char.is_word y) && no_tag t s
  | [] => true
  end.
Proof. reflexivity. Qed.

Lemma no_tag_tail t x s : no_tag t (x :: s) = true -> no_tag t s = true.
Proof.
  rewrite no_tag_cons. destruct s as [|y s]; [reflexivity|].
  intros H. now apply andb_true_iff in H as [_ H].
Qed.

Lemma no_tag_suffix t B : forall p s,
  no_tag t (p :: B ++ s) = true -> exists p', no_tag t (p' :: s) = true.
Proof.
  induction B as [|b B IH]; intros p s H; [now exists p|].
  cbn [app] in H. apply no_tag_tail in H. now apply (IH b).
Qed.

Lemma no_tag_stops t p out :
  stops Char.is_word out -> no_tag t out = true -> no_tag t (p :: out) = true.
Proof.
  intros S H. rewrite no_tag_cons. destruct out as [|y out]; [reflexivity|].
  cbn in S. rewrite S, andb_false_r. exact H.
Qed.

Lemma stripped_no_tag t s out : Stripped t s out -> no_tag t out = true.
Proof.
  induction 1 as [|x s out K S IH|B s out St S IH]; [reflexivity | | exact IH].
  rewrite no_tag_cons. destruct out as [|y out'] eqn:E; [reflexivity|].
  rewrite IH, andb_true_r. apply negb_true_iff.
  destruct (Ascii.eqb x t) eqn:X; [|reflexivity]. apply Ascii.eqb_eq in X.
  pose proof (stripped_stops t s (y :: out') S (K X)) as H. cbn in H. now rewrite H.
Qed.

Lemma stripped_keeps_no_tag t t' s out :
  Stripped t s out -> forall p, no_tag t' (p :: s) = true -> no_tag t' (p :: out) = true.
Proof.
  induction 1 as [|x s out K S IH|B s out St S IH]; intros p H.
  - reflexivity.
  - rewrite no_tag_cons in H |- *. apply andb_true_iff in H as [H1 H2].
    rewrite H1. now apply IH.
  - apply no_tag_stops.
    + now apply (stripped_stops t s).
    + apply no_tag_suffix in H as [p' H]. apply IH in H. now apply no_tag_tail in H.
Qed.

Lemma cut_keeps_no_tag t s out :
  Cut s out -> forall p, no_tag t (p :: s) = true -> no_tag t (p :: out) = true.
Proof.
  induction 1 as [|x s out S IH|b B s out W S IH]; intros p H.
  - reflexivity.
  - rewrite no_tag_cons in H |- *. apply andb_true_iff in H as [H1 H2].
    rewrite H1. now apply IH.
  - assert (Hp : Ascii.eqb p t = false).
    { rewrite no_tag_cons in H. apply andb_true_iff in H as [H _].
      rewrite W, andb_true_r in H. now apply negb_true_iff. }
    change (b :: B ++ s) with ((b :: B) ++ s) in H.
    apply no_tag_suffix in H as [p' H]. apply IH in H. apply no_tag_tail in H.
    rewrite no_tag_cons. destruct out as [|y out]; [reflexivity|].
    now rewrite Hp, H.
Qed.

Lemma keep_uncut skipped : forall tail out,
  Cut tail out -> Cut (skipped ++ tail) (skipped ++ out).
Proof. induction skipped as [|x skipped IH]; intros; [assumption|]. cbn. constructor. auto. Qed.

Lemma Cut_refl s : Cut s s.
Proof. induction s; constructor; auto. Qed.

Lemma replace_from_cut r : word_led r -> forall fuel ah sn,
  length ah < fuel -> Cut ah (replace_from fuel r [] sn ah).
Proof.
  intros H. induction fuel as [|fuel IH]; intros ah sn L; [lia|]. cbn [replace_from].
  destruct (search r sn ah) as [[b e]|] eqn:S; [|apply Cut_refl].
  apply search_found in S as (skipped & mid & A & -> & Se & M & N).
  apply match_at_sound in M. apply H in M as (x & rest & E & W & Lt). cbn [ahead] in *.
  subst ah. rewrite slice_skipped.
  destruct (Nat.ltb_spec (length (ahead e)) (length (mid ++ ahead e))) as [_|B]; [|lia].
  cbn [app]. apply keep_uncut.
  destruct mid as [|m0 mid].
  { cbn in Lt. lia. }
  cbn [app] in E. injection E as -> E. cbn [app]. apply Cut_block; [exact W|].
  apply IH. rewrite !length_app in L. cbn in L. lia.
Qed.

Lemma replace_all_cut r s : word_led r -> Cut s (replace_all r [] s).
Proof. intros H. unfold replace_all. apply replace_from_cut; [exact H | lia]. Qed.

(** ** Patterns that begin with a letter *)

Lemma letter_match_is_word ci a y :
  Char.is_alpha a = true -> mem ci (One a) y = true -> Char.is_word y = true.
Proof.
  intros A M.
  pose proof (@forall_ascii2
                (fun a y => implb (Char.is_alpha a && (mem true (One a) y || mem false (One a) y))
                                  (Char.is_word y))) as H.
  specialize (H ltac:(vm_compute; reflexivity) a y). cbv beta in H. rewrite A in H.
  destruct ci; rewrite M in H; cbn [andb orb implb] in H; [exact H|].
  now rewrite orb_true_r in H.
Qed.

Lemma word_led_lit ci a p r :
  Char.is_alpha a = true -> word_led (Seq (Lit ci (a :: p)) r).
Proof.
  intros A c c' D. inversion D as [| |r1 r2 c0 c1 c2 D1 D2| | | | | | |]; subst.
  change (Den (Lit ci (a :: p)) c c1) in D1.
  apply Den_Lit in D1 as (x & E & _ & F). apply Den_span in D2 as (m2 & E2 & _).
  inversion F as [|a' y p' x' M F']; subst.
  exists y, (x' ++ ahead c1). split; [exact E|]. split.
  - now apply (letter_match_is_word ci a).
  - rewrite E, E2. cbn. rewrite !length_app. lia.
Qed.

Lemma word_led_wordb r : word_led r -> word_led (Seq WordB r).
Proof.
  intros H c c' D. inversion D as [| |r1 r2 c0 c1 c2 D1 D2| | | | | | |]; subst.
  inversion D1; subst. now apply H.
Qed.

Lemma word_led_url : word_led FilterText.re_url.
Proof. apply (word_led_lit false "h" (chars "ttp")). reflexivity. Qed.

Lemma word_led_phrases : Forall word_led FilterText.falsePositivePhrases.
Proof.
  unfold FilterText.falsePositivePhrases.
  repeat (apply Forall_cons;
          [cbn [Seqs]; apply word_led_wordb;
           match goal with
           | |- word_led (Seq (liti ?w) _) =>
               let l := eval cbv in (chars w) in
               match l with
               | ?a :: ?p => apply (word_led_lit true a p); reflexivity
               end
           end|]).
  apply Forall_nil.
Qed.

Lemma no_tag_led t s : Ascii.eqb " " t = false -> no_tag t (" "%char :: s) = no_tag t s.
Proof. intros E. rewrite no_tag_cons. destruct s as [|y s]; [reflexivity|]. now rewrite E. Qed.

Lemma cut_no_tag t r s :
  Ascii.eqb " " t = false -> word_led r ->
  no_tag t s = true -> no_tag t (replace_all r [] s) = true.
Proof.
  intros E H N. rewrite <- (no_tag_led t) in N |- * by exact E.
  revert N. apply cut_keeps_no_tag. now apply replace_all_cut.
Qed.

Lemma cuts_no_tag t rs : Ascii.eqb " " t = false -> Forall word_led rs ->
  forall s, no_tag t s = true ->
  no_tag t (fold_left (fun processed phrase => replace_all phrase [] processed) rs s) = true.
Proof.
  intros E F. induction F as [|r rs H F IH]; intros s N; [exact N|].
  cbn [fold_left]. apply IH. now apply cut_no_tag.
Qed.

(** X16.  the text that preprocessTextForParsing returns holds no mention and
    no hashtag: no [@] and no [#] is followed by a word character. *)
Theorem preprocessTextForParsing_strips_tags (text : jsstring) :
  no_tag "@" (FilterText.preprocessTextForParsing text) = true /\
  no_tag "#" (FilterText.preprocessTextForParsing text) = true.
Proof.
  unfold FilterText.preprocessTextForParsing.
  change FilterText.re_mention with (tag_pattern "@").
  change FilterText.re_hashtag with (tag_pattern "#").
  set (s1 := replace_all (tag_pattern "@") [] text).
  set (s2 := replace_all (tag_pattern "#") [] s1).
  assert (A1 : no_tag "@" s1 = true).
  { apply (stripped_no_tag "@" text). apply replace_all_stripped. }
  assert (A2 : no_tag "@" s2 = true).
  { rewrite <- (no_tag_led "@") in A1 |- * by reflexivity.
    revert A1. apply (stripped_keeps_no_tag "#"). apply replace_all_stripped. }
  assert (H2 : no_tag "#" s2 = true).
  { apply (stripped_no_tag "#" s1). apply replace_all_stripped. }
  split; apply cuts_no_tag; try reflexivity; try apply word_led_phrases;
    apply cut_no_tag; try reflexivity; try apply word_led_url; assumption.
Qed.

(** ** What the V1 resolver returns *)

(** One turn of the loop of the V1 resolver keeps a result built from the index. *)
Lemma V1_step_from_index idx contexts fullText best candidate :
  (forall r, fst best = Some r -> from_index idx r) ->
  forall r, fst (V1.step idx contexts fullText best candidate) = Some r ->
            from_index idx r.
Proof.
  intros Hb. unfold V1.step.
  set (b1 := match findBarangay idx candidate _ _ with Some _ => _ | None => best end).
  assert (H1 : forall r, fst b1 = Some r -> from_index idx r).
  { subst b1. destruct (findBarangay idx candidate _ _) as [m|] eqn:Fb; [|exact Hb].
    destruct (_ <? _)%Z; [|exact Hb]. cbn [fst]. intros r [= <-].
    apply findBarangay_from_index in Fb as (l & G & I). eapply from_barangay; eauto. }
  clearbody b1.
  set (b2 := match findCity idx candidate _ with Some _ => _ | None => b1 end).
  assert (H2 : forall r, fst b2 = Some r -> from_index idx r).
  { subst b2. destruct (findCity idx candidate _) as [c|] eqn:Fc; [|exact H1].
    destruct (_ <? _)%Z; [|exact H1]. cbn [fst]. intros r [= <-].
    apply findCity_from_index in Fc as (key & l & G & I). eapply from_city; eauto. }
  clearbody b2.
  destruct (findProvince idx candidate) as [p|] eqn:Fp; [|exact H2].
  destruct (_ <? _)%Z; [|exact H2]. cbn [fst]. intros r [= <-].
  eapply from_province. exact Fp.
Qed.

Lemma V1_loop_from_index idx contexts fullText candidates best :
  (forall r, fst best = Some r -> from_index idx r) ->
  forall r, fst (fold_left (V1.step idx contexts fullText) candidates best) = Some r ->
            from_index idx r.
Proof.
  revert best. induction candidates as [|c l IH]; intros best Hb; cbn [fold_left]; [exact Hb|].
  apply IH. now apply V1_step_from_index.
Qed.

Lemma V1_findBestMatch_from_index idx candidates fullText r :
  V1.findBestMatch idx candidates fullText = Some r -> from_index idx r.
Proof.
  unfold V1.findBestMatch.
  set (contexts := V1.extractContexts idx candidates fullText). clearbody contexts.
  destruct (fold_left _ _ _) as [bestMatch bestScore] eqn:E.
  destruct bestMatch as [m|]; [|discriminate].
  destruct (V1.validateMatch idx m fullText); [|discriminate]. intros [= <-].
  apply (@V1_loop_from_index idx contexts fullText candidates (None, 0%Z)).
  - cbn. discriminate.
  - rewrite E. reflexivity.
Qed.

(** A result built from the index of a dataset names, when its city is set,
    a city that the dataset has under the province of the result. *)
Lemma from_index_in_gazetteer data r :
  from_index (buildIndexes data) r -> lm_city r <> [] ->
  in_gazetteer data (lm_province r) (lm_city r).
Proof.
  intros H Hc. destruct (buildIndexes_ok data) as [Hb Hci].
  remember (buildIndexes data) as idx eqn:Eidx. clear Eidx.
  destruct H as [key l m G I | key l c G I | key p G].
  - pose proof (@Forall_get _ (fun kv => Forall _ (snd kv)) key l _ Hb G) as F.
    cbv beta in F. rewrite Forall_forall in F. now apply F.
  - pose proof (@Forall_get _ (fun kv => Forall _ (snd kv)) key l _ Hci G) as F.
    cbv beta in F. rewrite Forall_forall in F. now apply F.
  - exfalso. now apply Hc.
Qed.

(** X17.  the V1 parser answers only for a text that has location context,
    and every answer over the index built from a dataset names, when its
    city is set, a city that the dataset has under the province the answer
    names. *)
Theorem V1_parseLocation_city_in_province
        (data : Dataset) (text : jsstring) (r : LocationMatch) :
  V1Parse.parseLocation (buildIndexes data) text = Some r ->
  V1.hasLocationContext text = true /\
  (lm_city r <> [] -> in_gazetteer data (lm_province r) (lm_city r)).
Proof.
  unfold V1Parse.parseLocation. destruct (negb (Str.truthy text)); [discriminate|].
  destruct (V1.hasLocationContext text); [|discriminate]. cbn [negb andb]. cbv zeta.
  destruct (length _ =? 0); [discriminate|]. intros H. split; [reflexivity|].
  apply from_index_in_gazetteer. now apply V1_findBestMatch_from_index in H.
Qed.

Lemma V1_parseLocation_city_in_province_witness :
  V1.hasLocationContext (chars "Location: Tayud, Consolacion") = true /\
  in_gazetteer sampleData (chars "CEBU") (chars "CONSOLACION").
Proof.
  destruct (@V1_parseLocation_city_in_province sampleData
              (chars "Location: Tayud, Consolacion") (OfEntry tayudConsolacion)) as [H1 H2].
  - vm_compute. reflexivity.
  - split; [exact H1|]. apply H2. simpl. discriminate.
Defined.

(** ** The set of ambiguous cities *)

Lemma ambiguousCities_addBarangays rn rc pn cn bl : forall idx,
  ambiguousCities (fold_left (addBarangay rn rc pn cn) bl idx) = ambiguousCities idx.
Proof. induction bl as [|b bl IH]; intros idx; [reflexivity|]. cbn [fold_left]. now rewrite IH. Qed.

Lemma cities_at_addCity rn rc pn idx cn bl k :
  cities_at (addCity rn rc pn idx (cn, bl)) k =
  if Str.eqb (normalizeKey cn) k
  then cities_at idx k ++
       [{| c_city := cn; c_province := pn; c_region := rn; c_regionCode := rc;
           c_barangays := bl |}]
  else cities_at idx k.
Proof.
  unfold cities_at at 1. rewrite cityIndex_addCity, get_set.
  destruct (Str.eqb (normalizeKey cn) k) eqn:E; [|reflexivity].
  apply Str_eqb_eq in E. now subst k.
Qed.

Lemma ambiguous_addCity rn rc pn idx cn bl k :
  SSet.has k (ambiguousCities (addCity rn rc pn idx (cn, bl))) =
  SSet.has k (ambiguousCities idx) ||
  (Str.eqb k (normalizeKey cn) && (1 <=? length (cities_at idx (normalizeKey cn)))).
Proof.
  unfold addCity. rewrite ambiguousCities_addBarangays. cbn [ambiguousCities].
  fold (cities_at idx (normalizeKey cn)). rewrite length_app. cbn [length].
  destruct (Nat.ltb_spec 1 (length (cities_at idx (normalizeKey cn)) + 1));
    destruct (Nat.leb_spec 1 (length (cities_at idx (normalizeKey cn)))); try lia.
  - rewrite SSet_has_add. now rewrite andb_true_r.
  - now rewrite andb_false_r, orb_false_r.
Qed.

Lemma addCity_ambiguous_ok rn rc pn idx city :
  ambiguous_cities_ok idx -> ambiguous_cities_ok (addCity rn rc pn idx city).
Proof.
  destruct city as [cn bl]. unfold ambiguous_cities_ok. intros H k.
  rewrite ambiguous_addCity, cities_at_addCity, Str_eqb_sym.
  destruct (Str.eqb (normalizeKey cn) k) eqn:E.
  - apply Str_eqb_eq in E. subst k. rewrite length_app. cbn [length andb].
    rewrite orb_true_iff, H, Nat.leb_le. lia.
  - cbn [andb]. rewrite orb_false_r. apply H.
Qed.

Lemma addCities_count rn rc pn k ms : forall idx,
  length (cities_at (fold_left (addCity rn rc pn) ms idx) k) =
  length (cities_at idx k) + length (cities_keyed k ms).
Proof.
  induction ms as [|[cn bl] ms IH]; intros idx; cbn [fold_left].
  - cbn. lia.
  - rewrite IH, cities_at_addCity. unfold cities_keyed. cbn [map fst filter].
    destruct (Str.eqb (normalizeKey cn) k); [rewrite length_app|]; cbn [length]; lia.
Qed.

Lemma addProvince_count rn rc k idx p :
  length (cities_at (addProvince rn rc idx p) k) =
  length (cities_at idx k) + length (cities_keyed k (snd p)).
Proof. destruct p as [pn ms]. unfold addProvince. now rewrite addCities_count. Qed.

Lemma addProvinces_count rn rc k ps : forall idx,
  length (cities_at (fold_left (addProvince rn rc) ps idx) k) =
  length (cities_at idx k) +
  length (flat_map (fun province => cities_keyed k (snd province)) ps).
Proof.
  induction ps as [|p ps IH]; intros idx; cbn [fold_left flat_map].
  - cbn. lia.
  - rewrite IH, addProvince_count, length_app. lia.
Qed.

Lemma addRegions_count k data : forall idx,
  length (cities_at (fold_left addRegion data idx) k) =
  length (cities_at idx k) + length (cities_with_key data k).
Proof.
  induction data as [|[code rd] data IH]; intros idx; cbn [fold_left].
  - cbn. lia.
  - rewrite IH. unfold addRegion. rewrite addProvinces_count.
    unfold cities_with_key. cbn [flat_map snd]. rewrite length_app. lia.
Qed.

Lemma addProvince_ambiguous_ok rn rc idx p :
  ambiguous_cities_ok idx -> ambiguous_cities_ok (addProvince rn rc idx p).
Proof.
  destruct p as [pn ms]. intros H. unfold addProvince.
  apply fold_left_invariant; [intros a city _; apply addCity_ambiguous_ok | exact H].
Qed.

Lemma addRegion_ambiguous_ok idx region :
  ambiguous_cities_ok idx -> ambiguous_cities_ok (addRegion idx region).
Proof.
  destruct region as [code rd]. unfold addRegion.
  apply fold_left_invariant. intros a p _. apply addProvince_ambiguous_ok.
Qed.

(** X18.  isAmbiguousCity tells whether the dataset has two cities or more
    whose names have the key of the name; the aliases do not count. *)
Theorem isAmbiguousCity_iff_shared (data : Dataset) (name : jsstring) :
  isAmbiguousCity (buildIndexes data) name = true <->
  2 <= length (cities_with_key data (normalizeKey name)).
Proof.
  unfold isAmbiguousCity, buildIndexes, addCityAliases. cbn [ambiguousCities].
  assert (H : ambiguous_cities_ok (fold_left addRegion data emptyIndex)).
  { apply fold_left_invariant; [intros a x _; apply addRegion_ambiguous_ok|].
    intros k. cbn. split; [discriminate | lia]. }
  unfold ambiguous_cities_ok in H.
  rewrite (H (normalizeKey name)), addRegions_count. cbn. reflexivity.
Qed.

(** ** A single character class, replaced by a function of the match *)

Section CapClass.

Variables (ci : bool) (cs : cset) (f : list jsstring -> jsstring).

Lemma cap_search_Chr_none : forall ah sn,
  forallb (fun c => negb (mem ci cs c)) ah = true ->
  Cap.search [Chr ci cs] sn ah = None.
Proof.
  induction ah as [|x ah IH]; intros sn H; cbn; [reflexivity|].
  cbn in H. apply andb_true_iff in H as [Hx H]. apply negb_true_iff in Hx.
  rewrite Hx. now apply IH.
Qed.

Lemma cap_search_Chr_some : forall pre sn x rest,
  forallb (fun c => negb (mem ci cs c)) pre = true -> mem ci cs x = true ->
  Cap.search [Chr ci cs] sn (pre ++ x :: rest)
  = Some (Cursor (rev pre ++ sn) (x :: rest), [Cursor (x :: rev pre ++ sn) rest]).
Proof.
  induction pre as [|y pre IH]; intros sn x rest H Hx; cbn.
  - now rewrite Hx.
  - cbn in H. apply andb_true_iff in H as [Hy H]. apply negb_true_iff in Hy.
    rewrite Hy. rewrite (IH (y :: sn) x rest H Hx). now rewrite <- !app_assoc.
Qed.

Lemma flat_map_unmatched l :
  forallb (fun c => negb (mem ci cs c)) l = true ->
  flat_map (fun c => if mem ci cs c then f [[c]] else [c]) l = l.
Proof.
  induction l as [|c l IH]; cbn; [reflexivity|]. intros H.
  apply andb_true_iff in H as [Hc H]. apply negb_true_iff in Hc.
  now rewrite Hc, IH.
Qed.

Lemma cap_replace_from_Chr : forall fuel ah sn,
  length ah < fuel ->
  Cap.replace_from fuel [Chr ci cs] f sn ah
  = flat_map (fun c => if mem ci cs c then f [[c]] else [c]) ah.
Proof.
  induction fuel as [|fuel IH]; intros ah sn L; [lia|]. cbn [Cap.replace_from].
  destruct (first_split (mem ci cs) ah) as [N | (pre & x & rest & -> & N & Px)].
  - rewrite (cap_search_Chr_none _ _ N). now rewrite flat_map_unmatched.
  - rewrite (cap_search_Chr_some _ _ _ _ N Px).
    cbn [Cap.end_of last Cap.texts ahead seen].
    rewrite slice_skipped.
    change (slice (Cursor (rev pre ++ sn) (x :: rest)) (Cursor (x :: rev pre ++ sn) rest))
      with (slice (Cursor (rev pre ++ sn) ([x] ++ rest))
                  (Cursor (rev [x] ++ rev pre ++ sn) rest)).
    rewrite slice_skipped.
    destruct (Nat.ltb_spec (length rest) (length (x :: rest))) as [_|B]; [|cbn in B; lia].
    rewrite IH by (rewrite length_app in L; cbn in L; lia).
    rewrite flat_map_app. cbn [flat_map]. rewrite Px, (flat_map_unmatched pre N).
    reflexivity.
Qed.

Lemma cap_replace_all_Chr s :
  Cap.replace_all [Chr ci cs] f s
  = flat_map (fun c => if mem ci cs c then f [[c]] else [c]) s.
Proof. unfold Cap.replace_all. apply cap_replace_from_Chr. lia. Qed.

End CapClass.

(** ** escapeRegex *)

Lemma syntax_class c :
  match Matcher.re_syntax with
  | Chr ci cs => mem ci cs c
  | _ => false
  end = Filter.syntax_char c.
Proof.
  pose proof (@forall_ascii
    (fun c => Bool.eqb (match Matcher.re_syntax with
                        | Chr ci cs => mem ci cs c
                        | _ => false
                        end) (Filter.syntax_char c))) as A.
  specialize (A ltac:(vm_compute; reflexivity) c). now apply Bool.eqb_prop in A.
Qed.

Lemma escapeRegex_escaped s : Matcher.escapeRegex s = escaped s.
Proof.
  unfold Matcher.escapeRegex, Matcher.re_syntax. rewrite cap_replace_all_Chr.
  unfold escaped. apply flat_map_ext. intros c.
  pose proof (syntax_class c) as H. unfold Matcher.re_syntax in H. rewrite H.
  destruct (Filter.syntax_char c); reflexivity.
Qed.

Lemma plain_not_backslash c : Filter.syntax_char c = false -> Ascii.eqb c "\" = false.
Proof.
  intros H. destruct (Ascii.eqb c "\") eqn:E; [|reflexivity].
  apply Ascii.eqb_eq in E. subst c. discriminate H.
Qed.

Lemma escapedPattern_escaped s : Matcher.escapedPattern (escaped s) = Some (Lit false s).
Proof.
  induction s as [|c s IH]; [reflexivity|]. unfold escaped in *. cbn [flat_map].
  destruct (Filter.syntax_char c) eqn:S.
  - cbn [app Matcher.escapedPattern]. rewrite Ascii.eqb_refl, S, IH. reflexivity.
  - cbn [app Matcher.escapedPattern]. rewrite (plain_not_backslash c S), S, IH. reflexivity.
Qed.

Lemma ci_match_exact p x : ci_match false p x -> x = p.
Proof.
  induction 1 as [|a y p x M F IH]; [reflexivity|].
  cbn in M. apply Ascii.eqb_eq in M. congruence.
Qed.

Lemma ci_match_exact_refl p : ci_match false p p.
Proof. induction p; constructor; [cbn; apply Ascii.eqb_refl | assumption]. Qed.

Lemma Den_lit_exact s c c' : Den (Lit false s) c c' <-> consumes c s c'.
Proof.
  rewrite Den_Lit. unfold consumes. split.
  - intros (x & A & S & F). apply ci_match_exact in F. now subst x.
  - intros [A S]. exists s. repeat split; auto. apply ci_match_exact_refl.
Qed.

(** X19.  escapeRegex makes of every string the source of a pattern that
    stands for the string itself: the pattern matches that text and no
    other. *)
Theorem escapeRegex_literal (string : jsstring) :
  exists body,
    Matcher.escapedPattern (Matcher.escapeRegex string) = Some body /\
    forall c c', Den body c c' <-> consumes c string c'.
Proof.
  exists (Lit false string). split.
  - rewrite escapeRegex_escaped. apply escapedPattern_escaped.
  - apply Den_lit_exact.
Qed.

(** ** Words of a normalized text *)

Lemma upper_alnum_word c : upper_alnum c = true -> Char.is_word c = true.
Proof.
  pose proof (@forall_ascii (fun c => implb (upper_alnum c) (Char.is_word c))) as A.
  specialize (A ltac:(vm_compute; reflexivity) c). cbv beta in A.
  intros H. now rewrite H in A.
Qed.

Lemma tidy_head P c k : tidy P (c :: k) -> P c = true.
Proof.
  intros [S _]. cbn [spaced] in S. destruct (Ascii.eqb c " "); [discriminate|].
  now apply andb_true_iff in S as [K _].
Qed.

Lemma trimEnd_last k c : Str.trimEnd (k ++ [c]) = k ++ [c] -> Char.is_space c = false.
Proof.
  unfold Str.trimEnd. rewrite rev_app_distr. cbn [rev app Str.trimStart].
  destruct (Char.is_space c); [|reflexivity]. intros E.
  apply (f_equal (@length _)) in E. rewrite length_rev, length_app in E. cbn in E.
  destruct (trimStart_suffix (rev k)) as [d Ed].
  apply (f_equal (@length _)) in Ed. rewrite length_rev, length_app in Ed. lia.
Qed.

Lemma tidy_last k c : tidy upper_alnum (k ++ [c]) -> upper_alnum c = true.
Proof.
  intros T. pose proof T as [_ E]. apply trimEnd_last in E.
  destruct (tidy_chars upper_alnum (k ++ [c]) c T) as [-> | H].
  - apply in_or_app. right. now left.
  - vm_compute in E. discriminate E.
  - exact H.
Qed.

Lemma tidy_word_or_space T c :
  tidy upper_alnum T -> In c T -> c = " "%char \/ Char.is_word c = true.
Proof.
  intros H I. destruct (tidy_chars upper_alnum T c H I) as [-> | U]; auto.
  right. now apply upper_alnum_word.
Qed.

Lemma tidy_no_comma T : tidy upper_alnum T -> ~ In ","%char T.
Proof.
  intros H I. destruct (tidy_chars upper_alnum T _ H I) as [E | U]; discriminate.
Qed.

(** A word in normal form that is not empty begins and ends with a word
    character. *)
Lemma tidy_ends W :
  tidy upper_alnum W -> W <> [] ->
  (exists a W', W = a :: W' /\ Char.is_word a = true) /\
  (exists W' z, W = W' ++ [z] /\ Char.is_word z = true).
Proof.
  intros T N. split.
  - destruct W as [|a W']; [congruence|]. exists a, W'. split; [reflexivity|].
    apply upper_alnum_word. now apply (tidy_head upper_alnum a W').
  - destruct (exists_last N) as (W' & z & ->). exists W', z. split; [reflexivity|].
    apply upper_alnum_word. now apply (tidy_last W').
Qed.

Lemma boundary_at_start y rest :
  Char.is_word y = true -> at_word_boundary (Cursor [] (y :: rest)) = true.
Proof. intros H. unfold at_word_boundary. cbn. now rewrite H. Qed.

Lemma boundary_after_space sn y rest :
  Char.is_word y = true -> at_word_boundary (Cursor (" "%char :: sn) (y :: rest)) = true.
Proof. intros H. unfold at_word_boundary. cbn [seen ahead]. now rewrite H. Qed.

Lemma boundary_at_end z sn :
  Char.is_word z = true -> at_word_boundary (Cursor (z :: sn) []) = true.
Proof. intros H. unfold at_word_boundary. cbn. now rewrite H. Qed.

Lemma boundary_before_space z sn rest :
  Char.is_word z = true -> at_word_boundary (Cursor (z :: sn) (" "%char :: rest)) = true.
Proof. intros H. unfold at_word_boundary. cbn [seen ahead]. now rewrite H. Qed.

Lemma not_word_is_space T c :
  tidy upper_alnum T -> In c T -> Char.is_word c = false -> c = " "%char.
Proof.
  intros H I N. destruct (tidy_word_or_space T c H I) as [E | W]; [exact E|]. congruence.
Qed.

Lemma whole_words_found W T pre e :
  tidy upper_alnum W -> tidy upper_alnum T -> W <> [] ->
  T = pre ++ W ++ ahead e -> seen e = rev W ++ rev pre ->
  at_word_boundary (Cursor (rev pre) (W ++ ahead e)) = true ->
  at_word_boundary e = true ->
  whole_words W T.
Proof.
  intros HW HT N E S B1 B2.
  destruct (tidy_ends W HW N) as [(a & W1 & Ea & Wa) (W2 & z & Ez & Wz)].
  exists pre, (ahead e). split; [exact E|]. split.
  - destruct (rev pre) as [|y rp] eqn:R.
    + left. apply (f_equal (@rev _)) in R. now rewrite rev_involutive in R.
    + right. exists (rev rp).
      assert (Ep : pre = rev rp ++ [y]).
      { apply (f_equal (@rev _)) in R. now rewrite rev_involutive in R. }
      rewrite Ep. f_equal. f_equal.
      apply (not_word_is_space T y HT).
      * rewrite E, Ep. apply in_or_app. left. apply in_or_app. right. now left.
      * unfold at_word_boundary in B1. rewrite Ea in B1. cbn [seen ahead app] in B1.
        rewrite Wa in B1. now destruct (Char.is_word y).
  - destruct (ahead e) as [|y q] eqn:A; [now left|]. right. exists q. f_equal.
    apply (not_word_is_space T y HT).
    + rewrite E. apply in_or_app. right. apply in_or_app. right. now left.
    + unfold at_word_boundary in B2. rewrite S, A, Ez, rev_app_distr in B2.
      cbn [rev app] in B2. rewrite Wz in B2. now destruct (Char.is_word y).
Qed.

Lemma first_pattern_iff W T :
  tidy upper_alnum W -> tidy upper_alnum T ->
  test (Seqs [WordB; Lit false W; WordB]) T = true <->
  match W with
  | [] => T <> []
  | _ :: _ => whole_words W T
  end.
Proof.
  intros HW HT. rewrite test_true_iff. cbn [Seqs]. split.
  - intros (pre & post & e & E & D).
    inversion D as [| |r1 r2 c0 c1 c2 D1 D2| | | | | | |]; subst.
    inversion D1 as [| | | | | | | | |c B1]; subst.
    inversion D2 as [| |r1 r2 c0 c3 c4 D3 D4| | | | | | |]; subst.
    inversion D4 as [| | | | | | | | |c B2]; subst.
    apply Den_lit_exact in D3 as [A S]. cbn [ahead seen] in A, S.
    destruct W as [|a W'] eqn:EW.
    + intros N. apply app_eq_nil in N as [-> ->]. discriminate B1.
    + rewrite <- EW in *. subst post.
      apply (whole_words_found W (pre ++ W ++ ahead e) pre e); auto.
      rewrite EW. discriminate.
  - destruct W as [|a W'] eqn:EW.
    + intros N. destruct T as [|t0 T']; [congruence|].
      exists [], (t0 :: T'), (Cursor [] (t0 :: T')). split; [reflexivity|].
      assert (B : at_word_boundary (Cursor [] (t0 :: T')) = true).
      { apply boundary_at_start, upper_alnum_word. now apply (tidy_head upper_alnum t0 T'). }
      cbn [rev Lit]. repeat econstructor; exact B.
    + rewrite <- EW in *. assert (N : W <> []) by (rewrite EW; discriminate).
      intros (pre & post & E & Hpre & Hpost).
      destruct (tidy_ends W HW N) as [(a1 & W1 & Ea & Wa) (W2 & z & Ez & Wz)].
      exists pre, (W ++ post), (Cursor (rev W ++ rev pre) post). split; [exact E|].
      apply DSeq with (c1 := Cursor (rev pre) (W ++ post)).
      * constructor. rewrite Ea. cbn [app].
        destruct Hpre as [-> | [p ->]].
        -- now apply boundary_at_start.
        -- rewrite rev_app_distr. cbn [rev app]. now apply boundary_after_space.
      * apply DSeq with (c1 := Cursor (rev W ++ rev pre) post).
        -- apply Den_lit_exact. split; reflexivity.
        -- constructor. rewrite Ez, rev_app_distr. cbn [rev app].
           destruct Hpost as [-> | [q ->]].
           ++ now apply boundary_at_end.
           ++ now apply boundary_before_space.
Qed.

Lemma consumes_nothing c c' : consumes c [] c' -> c' = c.
Proof. intros [A S]. destruct c, c'. cbn in *. now subst. Qed.

Lemma second_pattern W T :
  tidy upper_alnum W ->
  test (Seqs [Bol; Lit false W; WordB]) T = true ->
  test (Seqs [WordB; Lit false W; WordB]) T = true.
Proof.
  intros HW. rewrite !test_true_iff. cbn [Seqs]. intros (pre & post & e & E & D).
  exists pre, post, e. split; [exact E|].
  inversion D as [| |r1 r2 c0 c1 c2 D1 D2| | | | | | |]; subst.
  inversion D1 as [| | | | | | |c B0| |]; subst. cbn [seen] in B0.
  apply DSeq with (c1 := Cursor (rev pre) post); [|exact D2]. constructor.
  inversion D2 as [| |r1 r2 c0 c3 c4 D3 D4| | | | | | |]; subst.
  inversion D4 as [| | | | | | | | |c B2]; subst.
  apply Den_lit_exact in D3. rewrite B0 in *.
  destruct W as [|a W'] eqn:EW.
  - apply consumes_nothing in D3. now subst e.
  - destruct D3 as [A _]. cbn [ahead] in A. rewrite A. cbn [app].
    apply boundary_at_start, upper_alnum_word. now apply (tidy_head upper_alnum a W').
Qed.

Lemma third_pattern W T :
  tidy upper_alnum W ->
  test (Seqs [WordB; Lit false W; Eol]) T = true ->
  test (Seqs [WordB; Lit false W; WordB]) T = true.
Proof.
  intros HW. rewrite !test_true_iff. cbn [Seqs]. intros (pre & post & e & E & D).
  exists pre, post, e. split; [exact E|].
  inversion D as [| |r1 r2 c0 c1 c2 D1 D2| | | | | | |]; subst.
  apply DSeq with (c1 := c1); [exact D1|].
  inversion D1 as [| | | | | | | | |c B1]; subst.
  inversion D2 as [| |r1 r2 c0 c3 c4 D3 D4| | | | | | |]; subst.
  apply DSeq with (c1 := c3); [exact D3|].
  inversion D4 as [| | | | | | | |c B2|]; subst. constructor.
  apply Den_lit_exact in D3.
  destruct W as [|a W'] eqn:EW.
  - apply consumes_nothing in D3. now subst e.
  - rewrite <- EW in *. assert (N : W <> []) by (rewrite EW; discriminate).
    destruct (tidy_ends W HW N) as [_ (W2 & z & Ez & Wz)].
    destruct D3 as [_ S]. destruct e as [sn ah]. cbn [seen ahead] in *. subst ah.
    rewrite S, Ez, rev_app_distr. cbn [rev app]. now apply boundary_at_end.
Qed.

Lemma Den_comma c c' : Den (lit ",") c c' -> exists rest, ahead c = ","%char :: rest.
Proof.
  intros D. change (lit ",") with (Lit false [","%char]) in D.
  apply Den_lit_exact in D as [A _]. eexists. exact A.
Qed.

Lemma fourth_pattern W T :
  tidy upper_alnum T ->
  test (Seqs [WordB; Lit false W; ws_star; lit ","]) T = false.
Proof.
  intros HT. destruct (test _ T) eqn:X; [|reflexivity]. exfalso.
  apply test_true_iff in X as (pre & post & e & E & D). cbn [Seqs] in D.
  inversion D as [| |r1 r2 c0 c1 c2 D1 D2| | | | | | |]; subst.
  inversion D1 as [| | | | | | | | |c B1]; subst.
  inversion D2 as [| |r1 r2 c0 c3 c4 D3 D4| | | | | | |]; subst.
  inversion D4 as [| |r1 r2 c0 c5 c6 D5 D6| | | | | | |]; subst.
  apply Den_span in D3 as (m3 & A3 & _). apply Den_span in D5 as (m5 & A5 & _).
  apply Den_comma in D6 as (rest & A6). cbn [ahead] in A3.
  apply (tidy_no_comma _ HT). rewrite A3, A5, A6.
  apply in_or_app. right. apply in_or_app. right. apply in_or_app. right. now left.
Qed.

Lemma fifth_pattern W T :
  tidy upper_alnum T ->
  test (Seqs [lit ","; ws_star; Lit false W; WordB]) T = false.
Proof.
  intros HT. destruct (test _ T) eqn:X; [|reflexivity]. exfalso.
  apply test_true_iff in X as (pre & post & e & E & D). cbn [Seqs] in D.
  inversion D as [| |r1 r2 c0 c1 c2 D1 D2| | | | | | |]; subst.
  apply Den_comma in D1 as (rest & A1). cbn [ahead] in A1.
  apply (tidy_no_comma _ HT). rewrite A1. apply in_or_app. right. now left.
Qed.

(** X20.  hasWordBoundaryMatch tells whether the word, normalized, lies in the
    normalized text between spaces or the ends of the text; a word that is
    not empty but has no letter or digit is found in every text that has
    one. *)
Theorem hasWordBoundaryMatch_whole_words (text word : jsstring) :
  exists found,
    Matcher.hasWordBoundaryMatch text word = Some found /\
    (found = true <->
     word <> [] /\
     match Excel.normalize word with
     | [] => Excel.normalize text <> []
     | _ :: _ => whole_words (Excel.normalize word) (Excel.normalize text)
     end).
Proof.
  unfold Matcher.hasWordBoundaryMatch.
  destruct word as [|w0 word'] eqn:Ew.
  { exists false. split; [reflexivity|]. split; [discriminate | intros [N _]; congruence]. }
  rewrite <- Ew. replace (negb (Str.truthy word) || (length word =? 0)) with false
    by (rewrite Ew; reflexivity).
  rewrite escapeRegex_escaped, escapedPattern_escaped.
  pose proof (normalize_tidy word) as HW. pose proof (normalize_tidy text) as HT.
  set (W := Excel.normalize word) in *. set (T := Excel.normalize text) in *.
  eexists. split; [reflexivity|]. cbn [existsb].
  rewrite (fourth_pattern W T HT), (fifth_pattern W T HT), !orb_false_r.
  rewrite <- (first_pattern_iff W T HW HT).
  split.
  - intros H. split; [rewrite Ew; discriminate|].
    apply orb_true_iff in H as [H | H]; [exact H|].
    apply orb_true_iff in H as [H | H];
      [now apply second_pattern | now apply third_pattern].
  - intros [_ H]. now rewrite H.
Qed.

(** ** The confidence threshold of the V2 parser *)









(** ** Numbers *)

Lemma test_number s : test Patterns.re_number s = is_number s.
Proof.
  apply eq_true_iff_eq. rewrite test_true_iff. unfold Patterns.re_number, is_number.
  cbn [Seqs]. split.
  - intros (pre & post & e & E & D).
    inversion D as [| |r1 r2 c0 c1 c2 D1 D2| | | | | | |]; subst.
    apply Den_Bol_inv in D1 as [-> B]. cbn [seen] in B.
    inversion D2 as [| |r1 r2 c0 c3 c4 D3 D4| | | | | | |]; subst.
    apply Den_Eol_inv in D4 as [-> A].
    apply Den_plus_class in D3 as (x & [Ax _] & N & F). cbn [ahead] in Ax.
    rewrite A, app_nil_r in Ax. subst post.
    assert (pre = []) as ->.
    { apply (f_equal (@rev _)) in B. now rewrite rev_involutive in B. }
    cbn [app]. destruct x; [congruence|]. exact F.
  - intros H. apply andb_true_iff in H as [T F].
    exists [], s, (Cursor (rev s) []). split; [reflexivity|].
    apply DSeq with (c1 := Cursor [] s); [now constructor|].
    apply DSeq with (c1 := Cursor (rev s) []); [|now constructor].
    apply Den_plus_class. exists s. repeat split.
    + cbn. now rewrite app_nil_r.
    + cbn. now rewrite app_nil_r.
    + destruct s; [discriminate | discriminate].
    + exact F.
Qed.

(** ** The candidates of the V1 parser *)

Lemma Str_mem_In k s : Str.mem k s = false -> ~ In k s.
Proof.
  unfold Str.mem. intros H I. induction s as [|x s IH]; [contradiction|].
  cbn in H. apply orb_false_iff in H as [H1 H2]. destruct I as [<-|I]; [|auto].
  now rewrite Str_eqb_refl in H1.
Qed.

Lemma SSet_add_NoDup k s : NoDup s -> NoDup (SSet.add k s).
Proof.
  intros H. unfold SSet.add. destruct (SSet.has k s) eqn:E; [exact H|].
  apply NoDup_app; [exact H | repeat constructor; intros [] |].
  intros x I [<-|[]]. revert I. now apply Str_mem_In.
Qed.

Lemma SSet_add_Forall (P : jsstring -> Prop) k s :
  P k -> Forall P s -> Forall P (SSet.add k s).
Proof.
  intros Hk H. unfold SSet.add. destruct (SSet.has k s); [exact H|].
  apply Forall_app. split; [exact H | now constructor].
Qed.

Lemma addCandidate_ok candidates text :
  candidates_ok candidates -> candidates_ok (V1Parse.addCandidate candidates text).
Proof.
  intros [N F]. unfold V1Parse.addCandidate.
  destruct (negb (Str.truthy text)); [now split|]. cbv zeta.
  destruct (Nat.ltb_spec (length (Str.trim text)) 3) as [|L]; [now split|].
  destruct (Str.mem (Str.toLowerCase (Str.trim text)) V1.SERVICE_NAMES) eqn:S; [now split|].
  destruct (Str.mem (Str.toLowerCase (Str.trim text)) V1.STOPWORDS) eqn:W; [now split|].
  rewrite test_number.
  destruct (is_number (Str.trim text)) eqn:D; [now split|].
  split; [now apply SSet_add_NoDup|]. apply SSet_add_Forall; [|exact F].
  repeat split; auto. apply trim_idem.
Qed.

Lemma addCandidates_ok {A : Type} (f : SSet.t -> A -> SSet.t) (l : list A) :
  (forall candidates m, candidates_ok candidates -> candidates_ok (f candidates m)) ->
  forall candidates, candidates_ok candidates -> candidates_ok (fold_left f l candidates).
Proof. intros H. apply fold_left_invariant. intros a x _. apply H. Qed.

Lemma addCityMatch_ok candidates tail :
  candidates_ok candidates ->
  candidates_ok
    match tail with
    | Some tail =>
        let match2 := Patterns.group 1 tail in
        if Str.truthy match2 then
          let cityName := Str.trim (replace_all V1Parse.re_hehe [] match2) in
          if Str.truthy cityName then
            let cleanCity := replace V1Parse.re_direction [] cityName in
            let candidates := V1Parse.addCandidate candidates cleanCity in
            if negb (Str.eqb cleanCity cityName)
            then V1Parse.addCandidate candidates cityName
            else candidates
          else candidates
        else candidates
    | None => candidates
    end.
Proof.
  intros H. destruct tail as [tail|]; [|exact H]. cbv zeta.
  destruct (Str.truthy (Patterns.group 1 tail)); [|exact H].
  destruct (Str.truthy (Str.trim _)); [|exact H].
  destruct (negb _); repeat apply addCandidate_ok; exact H.
Qed.

Lemma addBarangayMatch_ok candidates m :
  candidates_ok candidates -> candidates_ok (V1Parse.addBarangayMatch candidates m).
Proof.
  intros H. unfold V1Parse.addBarangayMatch. cbv zeta.
  apply addCityMatch_ok.
  destruct (Str.truthy _); [now apply addCandidate_ok | exact H].
Qed.

(** X22.  the candidates that the V1 parser extracts from a text are all
    different, and each is a trimmed text of three characters or more that
    is no service name, no stopword and no number. *)
Theorem V1_extractCandidates_ok (text : jsstring) :
  candidates_ok (V1Parse.extractCandidates text).
Proof.
  unfold V1Parse.extractCandidates. cbv zeta.
  repeat (apply addCandidates_ok;
          [intros candidates m H;
           repeat first [ apply addCandidates_ok; [intros candidates' m' H'|]
                        | apply addBarangayMatch_ok
                        | apply addCandidate_ok
                        | match goal with |- candidates_ok (if ?b then _ else _) => destruct b end
                        | assumption ] |]).
  split; constructor.
Qed.

(** ** Splitting at runs of a character class *)

Section SplitClass.

Variables (ci : bool) (cs : cset).

Lemma match_at_plus_progress c e :
  match_at (Plus true (Chr ci cs)) c = Some e -> length (ahead e) < length (ahead c).
Proof.
  intros M. apply match_at_sound, Den_plus_class in M as (x & [A _] & N & _).
  rewrite A, length_app. destruct x; [congruence | cbn; lia].
Qed.

Lemma match_at_plus_none sn x tl :
  match_at (Plus true (Chr ci cs)) (Cursor sn (x :: tl)) = None -> mem ci cs x = false.
Proof.
  intros M. destruct (mem ci cs x) eqn:E; [|reflexivity]. exfalso.
  apply (match_at_complete (Plus true (Chr ci cs)) (Cursor sn (x :: tl)) (Cursor (x :: sn) tl));
    [|exact M].
  apply Den_plus_class. exists [x]. repeat split; [discriminate | cbn; now rewrite E].
Qed.

Lemma split_from_pieces : forall fuel piece sn ah,
  length ah < fuel ->
  forallb (fun c => negb (mem ci cs c)) piece = true ->
  Forall (fun p => forallb (fun c => negb (mem ci cs c)) p = true)
         (Cap.split_from fuel (Plus true (Chr ci cs)) piece sn ah).
Proof.
  induction fuel as [|fuel IH]; intros piece sn ah L P; [lia|].
  assert (R : forallb (fun c => negb (mem ci cs c)) (rev piece) = true).
  { rewrite forallb_forall in *. intros c I. apply P. now apply in_rev. }
  cbn [Cap.split_from]. destruct ah as [|x tl]; [now repeat constructor|].
  destruct (match_at _ _) as [e|] eqn:M.
  - pose proof (match_at_plus_progress _ _ M) as Lt. cbn [ahead] in Lt.
    destruct (Nat.eqb_spec (length (ahead e)) (length (x :: tl))) as [E|_]; [exfalso; lia|].
    cbn [andb]. constructor; [exact R|]. apply IH; [cbn [length] in L, Lt; lia | reflexivity].
  - apply match_at_plus_none in M. apply IH; [cbn in L; lia|].
    cbn [forallb]. now rewrite M, P.
Qed.

Lemma split_pieces s :
  Forall (fun p => forallb (fun c => negb (mem ci cs c)) p = true)
         (Cap.split (Plus true (Chr ci cs)) s).
Proof.
  unfold Cap.split. destruct s as [|x s].
  - destruct (match_at _ _); repeat constructor.
  - apply split_from_pieces; [cbn; lia | reflexivity].
Qed.

End SplitClass.

(** ** parseCandidateString *)

Lemma push_locations parts : forall candidates,
  fold_left (fun candidates part =>
               if negb (V2Parse.isStopword part) then candidates ++ [V2.Location part]
               else candidates)
            parts candidates
  = candidates ++
    map V2.Location (filter (fun part => negb (V2Parse.isStopword part)) parts).
Proof.
  induction parts as [|p parts IH]; intros candidates; cbn [fold_left filter].
  - cbn. now rewrite app_nil_r.
  - rewrite IH. destruct (negb (V2Parse.isStopword p)); [|reflexivity].
    cbn [map]. now rewrite <- app_assoc.
Qed.

(** X23.  parseCandidateString only appends candidates, of the type location,
    in the order of the text; each name has three characters or more, none
    of them a comma or white space, and is no stopword, service name or
    number. *)
Theorem parseCandidateString_appends (candidates : list V2.Candidate) (str : jsstring) :
  exists names,
    V2Parse.parseCandidateString candidates str = candidates ++ map V2.Location names /\
    Forall name_ok names.
Proof.
  unfold V2Parse.parseCandidateString.
  destruct (negb (Str.truthy str)).
  { exists []. split; [cbn; now rewrite app_nil_r | constructor]. }
  cbv zeta. rewrite push_locations. eexists. split; [reflexivity|].
  apply Forall_forall. intros n I.
  apply filter_In in I as [I S]. apply filter_In in I as [I L].
  apply negb_true_iff in S. apply Nat.ltb_lt in L.
  pose proof (split_pieces false (Union (One ",") Space) str) as F.
  rewrite Forall_forall in F. specialize (F n I).
  repeat split; [lia | exact F | exact S].
Qed.

(** ** The barangay patterns of the V1 parser *)

Lemma cap_search_found rs : forall ah sn b l,
  Cap.search rs sn ah = Some (b, l) -> Cap.match_parts rs b = Some l.
Proof.
  induction ah as [|x ah IH]; intros sn b l; cbn [Cap.search].
  - destruct (Cap.match_parts rs (Cursor sn [])) eqn:M; [|discriminate].
    now intros [= <- <-].
  - destruct (Cap.match_parts rs (Cursor sn (x :: ah))) eqn:M.
    + now intros [= <- <-].
    + apply IH.
Qed.

Lemma lazy_star_first m fuel c :
  star_loop false m fuel c (fun c' => Some c') = Some c.
Proof. destruct fuel; reflexivity. Qed.

(** A lazy run at the end of a pattern takes one character. *)
Lemma match_at_lazy_plus ci cs c e :
  match_at (Plus false (Chr ci cs)) c = Some e ->
  exists x rest, ahead c = x :: rest /\ e = Cursor (x :: seen c) rest /\
                 mem ci cs x = true.
Proof.
  unfold match_at, Plus. cbn [rmatch]. destruct (ahead c) as [|x rest]; [discriminate|].
  destruct (mem ci cs x) eqn:E; [|discriminate]. cbn [ahead].
  rewrite lazy_star_first. intros [= <-]. now exists x, rest.
Qed.

Lemma match_parts_cons_inv r rs c l :
  Cap.match_parts (r :: rs) c = Some l ->
  exists e l', l = e :: l' /\ Cap.match_parts rs e = Some l'.
Proof.
  cbn [Cap.match_parts]. destruct (rmatch r c _) as [c1|]; [|discriminate].
  destruct (Cap.match_parts rs c1) as [l'|] eqn:M; [|discriminate].
  intros [= <-]. eauto.
Qed.

Lemma match_parts_last r c l :
  Cap.match_parts [r] c = Some l -> exists e, l = [e] /\ match_at r c = Some e.
Proof.
  cbn [Cap.match_parts]. destruct (rmatch r c _) as [c1|] eqn:M; [|discriminate].
  intros [= <-]. exists c1. split; [reflexivity | exact M].
Qed.

Lemma named_barangay_parts b l :
  Cap.match_parts [Patterns.brgy_prefix; V1Parse.words_lazy true] b = Some l ->
  exists e x rest, l = [e; Cursor (x :: seen e) rest] /\ ahead e = x :: rest /\
                   mem true Patterns.letter_or_space x = true.
Proof.
  intros H. apply match_parts_cons_inv in H as (e & l' & -> & H).
  apply match_parts_last in H as (e2 & -> & M).
  apply match_at_lazy_plus in M as (x & rest & A & -> & X). now exists e, x, rest.
Qed.

Lemma letter_not_digit x :
  mem true Patterns.letter_or_space x = true -> Char.is_digit x = false.
Proof.
  pose proof (@forall_ascii
    (fun x => implb (mem true Patterns.letter_or_space x) (negb (Char.is_digit x)))) as A.
  specialize (A ltac:(vm_compute; reflexivity) x). cbv beta in A.
  intros H. rewrite H in A. now apply negb_true_iff.
Qed.

Lemma short_not_added candidates name :
  length name < 3 -> V1Parse.addCandidate candidates name = candidates.
Proof.
  intros L. unfold V1Parse.addCandidate. destruct (negb (Str.truthy name)); [reflexivity|].
  cbv zeta. pose proof (trim_length name) as T.
  destruct (Nat.ltb_spec (length (Str.trim name)) 3); [reflexivity | lia].
Qed.

Lemma execBarangay_named : forall fuel sn ah,
  Forall (fun m => length (Patterns.group 1 (fst m)) = 1 /\
                   forall candidates,
                     V1Parse.addCandidate candidates (barangayName m) = candidates)
         (V1Parse.execBarangay fuel [Patterns.brgy_prefix; V1Parse.words_lazy true] sn ah).
Proof.
  induction fuel as [|fuel IH]; intros sn ah; cbn [V1Parse.execBarangay]; [constructor|].
  destruct (Cap.search _ sn ah) as [[b l]|] eqn:S; [|constructor].
  apply cap_search_found, named_barangay_parts in S as (e & x & rest & -> & A & X).
  assert (G : forall tail : option (list jsstring),
             Patterns.group 1 (fst (Cap.texts b [e; Cursor (x :: seen e) rest], tail)) = [x]).
  { intros tail. cbn [fst Cap.texts Patterns.group nth]. unfold slice. cbn [seen length].
    replace (S (length (seen e)) - length (seen e)) with 1 by lia. now rewrite A. }
  assert (H : forall tail : option (list jsstring),
             (fun m => length (Patterns.group 1 (fst m)) = 1 /\
                       forall candidates,
                         V1Parse.addCandidate candidates (barangayName m) = candidates)
               (Cap.texts b [e; Cursor (x :: seen e) rest], tail)).
  { intros tail. cbv beta. unfold barangayName. rewrite G. split; [reflexivity|].
    intros candidates. rewrite test_number. unfold is_number. cbn [Str.truthy forallb andb].
    rewrite (letter_not_digit x X). cbn [andb]. apply short_not_added. cbn. lia. }
  destruct (Cap.match_parts V1Parse.cityTail _) as [l'|];
    destruct (_ <? _); repeat constructor; try apply H; apply IH.
Qed.

(** X24.  the second barangay pattern of the V1 parser, for a barangay with a
    name, never yields the name: its group takes one character, which
    addCandidate drops as too short. *)
Theorem V1_named_barangay_dropped (text : jsstring) :
  Forall (fun m => length (Patterns.group 1 (fst m)) = 1 /\
                   forall candidates,
                     V1Parse.addCandidate candidates (barangayName m) = candidates)
         (V1Parse.execBarangay (S (length text))
                               (nth 1 V1Parse.barangayPatterns []) [] text).
Proof. apply execBarangay_named. Qed.

(** ** Candidates from a hashtag *)





Section SplitChars.

Variables (ci : bool) (cs : cset) (Q : ascii -> Prop).



End SplitChars.













